(** * The MDP engine of [src/MDP/mdp.py]

    A shallow embedding of the class [MDP]: its constructor, the Evaluator
    ([policy_evaluation]), the Planner ([value_iteration],
    [policy_iteration]), the Simulator ([step]) and the Learner
    ([q_learning]), followed by the properties of the specification that
    concern them.

    Conventions of the embedding.
    - The code is duck-typed in its numbers (the literal [0], floats, and
      anything else with [+ - * abs < >]); the embedding is parametric in a
      [Number] interface and is instantiated at exact rationals and at IEEE
      binary64.  The interface stands for operands of one type whose
      arithmetic never raises: [float], and [fractions.Fraction].  Operands
      whose arithmetic can raise (an [int] too large for the [float] it
      meets, [decimal.Decimal] with its traps) are outside the embedding.
    - Python dictionaries keep insertion order and the Learner iterates
      them, so a dictionary is an association list with unique keys.
    - A call either returns, raises, or is still looping when its fuel runs
      out: [result].
    - The process-wide generator of the [random] module is an explicit
      state threaded through the calls that draw from it. *)

From Stdlib Require Import List Bool Arith Lia String.
From Stdlib Require Import ZArith QArith Qabs Lqa.
From Corelib Require PrimFloat SpecFloat FloatAxioms.
Import ListNotations.

Close Scope Q_scope.
Open Scope nat_scope.

Set Implicit Arguments.

(* ================================================================== *)
(** * Python runtime: exceptions, numbers, dictionaries, builtins *)
(* ================================================================== *)

Module Py.

(** The exceptions the engine can raise. *)
Inductive exn : Type :=
| KeyError
| ValueError
| IndexError.

(** Outcome of a call: a value, an exception, or a loop that has not
    finished within the fuel it was given. *)
Inductive result (A : Type) : Type :=
| Ok (a : A)
| Raise (e : exn)
| Timeout.

Arguments Ok {A} a.
Arguments Raise {A} e.
Arguments Timeout {A}.

Definition bind {A B : Type} (r : result A) (k : A -> result B) : result B :=
  match r with
  | Ok a => k a
  | Raise e => Raise e
  | Timeout => Timeout
  end.

Notation "x <- e ;; k" := (bind e (fun x => k))
  (at level 61, e at next level, right associativity).
Notation "' pat <- e ;; k" := (bind e (fun x => match x with pat => k end))
  (at level 61, pat pattern, e at next level, right associativity).

(** A [for] loop whose body may raise, threading the loop-carried state. *)
Fixpoint foldM {A B : Type} (f : A -> B -> result A) (l : list B) (a : A)
  : result A :=
  match l with
  | [] => Ok a
  | b :: l' => a' <- f a b ;; foldM f l' a'
  end.

(** A comprehension or generator whose element expression may raise. *)
Fixpoint mapM {A B : Type} (f : A -> result B) (l : list A) : result (list B) :=
  match l with
  | [] => Ok []
  | x :: l' => y <- f x ;; ys <- mapM f l' ;; Ok (y :: ys)
  end.

(** Keys: hashable and comparable with [==]. *)
Class Hashable (K : Type) := key_eq_dec : forall x y : K, {x = y} + {x <> y}.

Definition key_eqb {K} `{Hashable K} (x y : K) : bool :=
  if key_eq_dec x y then true else false.

(** Numbers: what the arithmetic of the engine asks of its operands.
    [num_zero] is the literal [0]; [num_lt a b] is [a < b], and [a > b] is
    read as [b < a].  The operations are total: the interface covers
    operands of a single type whose arithmetic does not raise ([float],
    [fractions.Fraction]), not mixtures in which a conversion can raise
    [OverflowError], nor [decimal.Decimal]. *)
Class Number (N : Type) := {
  num_zero : N;
  num_add : N -> N -> N;
  num_sub : N -> N -> N;
  num_mul : N -> N -> N;
  num_abs : N -> N;
  num_lt : N -> N -> bool;
  num_le : N -> N -> bool;
  num_isfinite : N -> bool
}.

Section Dict.
Context {K V : Type} `{Hashable K}.

Definition dict : Type := list (K * V).

(** [d.get(k)] *)
Fixpoint dict_get (k : K) (d : dict) : option V :=
  match d with
  | [] => None
  | (k', v) :: d' => if key_eq_dec k k' then Some v else dict_get k d'
  end.

(** [d[k] = v]: an existing key keeps its place, a new one goes last. *)
Fixpoint dict_set (k : K) (v : V) (d : dict) : dict :=
  match d with
  | [] => [(k, v)]
  | (k', v') :: d' =>
      if key_eq_dec k k' then (k', v) :: d' else (k', v') :: dict_set k v d'
  end.

(** [d[k]] *)
Definition getitem (k : K) (d : dict) : result V :=
  match dict_get k d with
  | Some v => Ok v
  | None => Raise KeyError
  end.

(** [{k: v for k in keys}] *)
Definition dict_fromkeys (keys : list K) (v : V) : dict :=
  fold_left (fun d k => dict_set k v d) keys [].

(** [k in seq] *)
Definition contains (k : K) (seq : list K) : bool :=
  existsb (key_eqb k) seq.

End Dict.

Arguments dict K V : clear implicits.

Section Builtins.
Context {N : Type} `{Number N}.

(** The scan of the builtin [max]: the running best is replaced only by an
    item that compares strictly greater, so the first maximum wins. *)
Fixpoint max_scan {A : Type} (key : A -> N) (best : A) (l : list A) : A :=
  match l with
  | [] => best
  | x :: l' =>
      if num_lt (key best) (key x) then max_scan key x l'
      else max_scan key best l'
  end.

(** [max(iterable, key=key)]; [ValueError] on an empty iterable. *)
Definition max_by {A : Type} (key : A -> N) (l : list A) : result A :=
  match l with
  | [] => Raise ValueError
  | x :: l' => Ok (max_scan key x l')
  end.

(** [max(iterable)] *)
Definition max_of (l : list N) : result N := max_by (fun x => x) l.

(** [max(a, b)] *)
Definition max2 (a b : N) : N := max_scan (fun x => x) a [b].

(** [sum(iterable)]: starts from [0] and adds from the left. *)
Definition sum_of (l : list N) : N := fold_left num_add l num_zero.

(** [itertools.accumulate(weights)] *)
Fixpoint accumulate_from (acc : N) (l : list N) : list N :=
  match l with
  | [] => []
  | x :: l' => let acc' := num_add acc x in acc' :: accumulate_from acc' l'
  end.

Definition accumulate (l : list N) : list N :=
  match l with
  | [] => []
  | x :: l' => x :: accumulate_from x l'
  end.

(** [bisect.bisect_right(a, x, lo, hi)], the binary search as the library
    runs it; [fuel] bounds its halving steps. *)
Fixpoint bisect_right (fuel : nat) (a : list N) (x : N) (lo hi : nat) : nat :=
  match fuel with
  | O => lo
  | S fuel' =>
      if lo <? hi then
        let mid := (lo + hi) / 2 in
        if num_lt x (nth mid a num_zero)
        then bisect_right fuel' a x lo mid
        else bisect_right fuel' a x (mid + 1) hi
      else lo
  end.

End Builtins.

(** The generator behind the [random] module: [random.random()] and the
    integer draw [_randbelow(n)] that [random.choice] is built on. *)
Class RandomSource (G N : Type) := {
  rng_random : G -> N * G;
  rng_randbelow : nat -> G -> nat * G
}.

Section Random.
Context {G N : Type} `{Number N} `{RandomSource G N}.

(** [random.choice(seq)]: [IndexError] on an empty sequence, otherwise the
    element at a drawn index below [len(seq)]. *)
Definition choice {A : Type} (seq : list A) (g : G) : result (A * G) :=
  match seq with
  | [] => Raise IndexError
  | x :: _ =>
      let '(i, g') := rng_randbelow (List.length seq) g in
      Ok (nth (i mod List.length seq) seq x, g')
  end.

(** [random.choices(population, weights=weights)[0]]: cumulative weights,
    a total that must be positive and finite, and a bisection of
    [random() * total] over the cumulative weights, capped at the last
    index.  The library computes the total as [cum_weights[-1] + 0.0], a
    float: on float weights this definition is the library's computation;
    on [Fraction] weights it is so when the total is exactly [1] (the
    conversion is then exact), and for other totals the library rounds, or
    raises, where this definition stays exact. *)
Definition choices1 {A : Type} (population : list A) (weights : list N) (g : G)
  : result (A * G) :=
  match population with
  | [] => Raise IndexError
  | x :: _ =>
      let cum_weights := accumulate weights in
      if negb (List.length cum_weights =? List.length population) then Raise ValueError
      else
        let total := num_add (last cum_weights num_zero) num_zero in
        if num_le total num_zero then Raise ValueError
        else if negb (num_isfinite total) then Raise ValueError
        else
          let '(u, g') := rng_random g in
          let hi := List.length population - 1 in
          let i := bisect_right (List.length population) cum_weights
                                (num_mul u total) 0 hi in
          Ok (nth i population x, g')
  end.

End Random.

End Py.

Import Py.

(* ================================================================== *)
(** * The class [MDP] *)
(* ================================================================== *)

Section Engine.
Context {State Action N G : Type}.
Context `{Hashable State} `{Hashable Action} `{Number N} `{RandomSource G N}.

(** A value function, a policy (terminal states map to [None]) and a
    Q-table, as the dictionaries the methods build and return. *)
Definition values : Type := dict State N.
Definition policy_map : Type := dict State (option Action).
Definition qtable : Type := dict State (dict Action N).

(** The attributes of an [MDP] object. *)
Record MDP : Type := {
  states : list State;
  actions : list Action;
  P : dict State (dict Action (list (N * State)));
  R : dict State (dict Action N);
  gamma : N;
  terminal_states : list State
}.

(** [MDP.__init__]: the six attributes are assigned from the arguments;
    [terminal_states or set()] replaces [None] (and an empty collection) by
    the empty set.  Nothing else is executed. *)
Definition MDP_init (states0 : list State) (actions0 : list Action)
    (transition_probabilities : dict State (dict Action (list (N * State))))
    (rewards : dict State (dict Action N)) (gamma0 : N)
    (terminal_states0 : option (list State)) : result MDP :=
  Ok {| states := states0;
        actions := actions0;
        P := transition_probabilities;
        R := rewards;
        gamma := gamma0;
        terminal_states := match terminal_states0 with
                           | Some (t :: ts) => t :: ts
                           | Some [] | None => []
                           end |}.

Variable self : MDP.

(** [s in self.terminal_states] *)
Definition is_terminal (s : State) : bool := contains s (terminal_states self).

(** The generator expression shared by the three planners,
    [sum(prob * (self.R[s][a] + self.gamma * V[next_state])
         for prob, next_state in self.P[s][a])]:
    [self.P[s][a]] is looked up once, the reward and the successor's value
    once per transition, and the terms are added from the left to [0]. *)
Fixpoint sum_terms (V : values) (s : State) (a : Action) (acc : N)
    (transitions : list (N * State)) : result N :=
  match transitions with
  | [] => Ok acc
  | (prob, next_state) :: rest =>
      Rs <- getitem s (R self) ;;
      r <- getitem a Rs ;;
      v <- getitem next_state V ;;
      sum_terms V s a
        (num_add acc (num_mul prob (num_add r (num_mul (gamma self) v)))) rest
  end.

Definition lookahead (V : values) (s : State) (a : Action) : result N :=
  Ps <- getitem s (P self) ;;
  transitions <- getitem a Ps ;;
  sum_terms V s a num_zero transitions.

(** ** Evaluator *)

(** Body of the [for s in self.states] loop of [policy_evaluation]; the
    loop carries [V] and [delta].  A policy entry [None] is not a key of
    [self.P[s]]. *)
Definition eval_state (policy : policy_map) (st : values * N) (s : State)
  : result (values * N) :=
  let '(V, delta) := st in
  if is_terminal s then Ok (V, delta)
  else
    a <- getitem s policy ;;
    v <- match a with
         | Some a => lookahead V s a
         | None => _ <- getitem s (P self) ;; Raise KeyError
         end ;;
    old <- getitem s V ;;
    Ok (dict_set s v V, max2 delta (num_abs (num_sub old v))).

(** One pass of the [while True] body: [delta = 0], then the sweep. *)
Definition eval_sweep (policy : policy_map) (V : values) : result (values * N) :=
  foldM (eval_state policy) (states self) (V, num_zero).

Fixpoint eval_loop (policy : policy_map) (theta : N) (fuel : nat) (V : values)
  : result values :=
  match fuel with
  | O => Timeout
  | S fuel' =>
      '(V', delta) <- eval_sweep policy V ;;
      if num_lt delta theta then Ok V' else eval_loop policy theta fuel' V'
  end.

(** [policy_evaluation(policy, theta)]; [sweeps] bounds the number of
    sweeps of the [while True] loop. *)
Definition policy_evaluation (sweeps : nat) (policy : policy_map) (theta : N)
  : result values :=
  eval_loop policy theta sweeps (dict_fromkeys (states self) num_zero).

(** ** Planner: value iteration *)

(** [max(sum(...) for a in self.actions)] *)
Definition best_value (V : values) (s : State) : result N :=
  qs <- mapM (lookahead V s) (actions self) ;;
  max_of qs.

(** [max(self.actions, key=lambda a: sum(...))]: each action is paired
    with its key, and the first pair with the greatest key wins. *)
Definition best_action (V : values) (s : State) : result Action :=
  keyed <- mapM (fun a => q <- lookahead V s a ;; Ok (a, q)) (actions self) ;;
  best <- max_by snd keyed ;;
  Ok (fst best).

Definition vi_state (st : values * N) (s : State) : result (values * N) :=
  let '(V, delta) := st in
  if is_terminal s then Ok (V, delta)
  else
    v <- best_value V s ;;
    old <- getitem s V ;;
    Ok (dict_set s v V, max2 delta (num_abs (num_sub old v))).

Definition vi_sweep (V : values) : result (values * N) :=
  foldM vi_state (states self) (V, num_zero).

Fixpoint vi_loop (theta : N) (fuel : nat) (V : values) : result values :=
  match fuel with
  | O => Timeout
  | S fuel' =>
      '(V', delta) <- vi_sweep V ;;
      if num_lt delta theta then Ok V' else vi_loop theta fuel' V'
  end.

(** Body of the policy-derivation loop of [value_iteration]. *)
Definition derive_state (V : values) (policy : policy_map) (s : State)
  : result policy_map :=
  if is_terminal s then Ok (dict_set s None policy)
  else
    best_a <- best_action V s ;;
    Ok (dict_set s (Some best_a) policy).

Definition derive_policy (V : values) : result policy_map :=
  foldM (derive_state V) (states self) [].

(** [value_iteration(theta)] *)
Definition value_iteration (sweeps : nat) (theta : N)
  : result (values * policy_map) :=
  V <- vi_loop theta sweeps (dict_fromkeys (states self) num_zero) ;;
  policy <- derive_policy V ;;
  Ok (V, policy).

(** ** Planner: policy iteration *)

(** [{s: random.choice(self.actions) for s in self.states
        if s not in self.terminal_states}] *)
Definition init_state (st : policy_map * G) (s : State)
  : result (policy_map * G) :=
  let '(policy, g) := st in
  if is_terminal s then Ok (policy, g)
  else
    '(a, g') <- choice (actions self) g ;;
    Ok (dict_set s (Some a) policy, g').

(** The initial policy, followed by
    [policy.update({s: None for s in self.terminal_states})]. *)
Definition init_policy (g : G) : result (policy_map * G) :=
  '(policy, g') <- foldM init_state (states self) ([], g) ;;
  Ok (fold_left (fun p s => dict_set s None p) (terminal_states self) policy, g').

(** Body of the improvement loop; it carries [policy] and
    [policy_stable]. *)
Definition improve_state (V : values) (st : policy_map * bool) (s : State)
  : result (policy_map * bool) :=
  let '(policy, policy_stable) := st in
  if is_terminal s then Ok (policy, policy_stable)
  else
    old_action <- getitem s policy ;;
    best <- best_action V s ;;
    Ok (dict_set s (Some best) policy,
        match old_action with
        | Some old => if key_eq_dec old best then policy_stable else false
        | None => false
        end).

(** [policy_stable = True], then the improvement loop. *)
Definition improve (V : values) (policy : policy_map)
  : result (policy_map * bool) :=
  foldM (improve_state V) (states self) (policy, true).

(** One pass of the [while True] body of [policy_iteration]. *)
Definition pi_round (sweeps : nat) (theta : N) (policy : policy_map)
  : result (values * policy_map * bool) :=
  V <- policy_evaluation sweeps policy theta ;;
  '(policy', policy_stable) <- improve V policy ;;
  Ok (V, policy', policy_stable).

Fixpoint pi_loop (sweeps : nat) (theta : N) (rounds : nat) (policy : policy_map)
  : result (values * policy_map) :=
  match rounds with
  | O => Timeout
  | S rounds' =>
      '(V, policy', policy_stable) <- pi_round sweeps theta policy ;;
      if policy_stable then Ok (V, policy')
      else pi_loop sweeps theta rounds' policy'
  end.

(** [policy_iteration(theta)]; [rounds] bounds the improvement rounds and
    [sweeps] the sweeps of each evaluation. *)
Definition policy_iteration (sweeps rounds : nat) (theta : N) (g : G)
  : result (values * policy_map * G) :=
  '(policy, g') <- init_policy g ;;
  '(V, policy') <- pi_loop sweeps theta rounds policy ;;
  Ok (V, policy', g').

(** ** Simulator *)

(** [step(state, action)].  The transitions are unzipped into [probs] and
    [next_states]; unpacking the unzipped empty list into the two names
    fails with [ValueError]. *)
Definition step (state : State) (action : Action) (g : G)
  : result (State * N * G) :=
  if is_terminal state then Ok (state, num_zero, g)
  else
    Ps <- getitem state (P self) ;;
    transitions <- getitem action Ps ;;
    match transitions with
    | [] => Raise ValueError
    | _ :: _ =>
        let probs := map fst transitions in
        let next_states := map snd transitions in
        '(next_state, g') <- choices1 next_states probs g ;;
        Rs <- getitem state (R self) ;;
        reward <- getitem action Rs ;;
        Ok (next_state, reward, g')
    end.

(** ** Learner *)

(** [{s: {a: 0 for a in self.actions} for s in self.states}] *)
Definition q_init : qtable :=
  fold_left (fun Q s => dict_set s (dict_fromkeys (actions self) num_zero) Q)
            (states self) [].

(** The epsilon-greedy choice: [random.choice(self.actions)] when
    [random.random() < epsilon], else [max(Q[state], key=Q[state].get)],
    the first key of the row with the greatest value. *)
Definition select_action (Q : qtable) (state : State) (epsilon : N) (g : G)
  : result (Action * G) :=
  let '(u, g1) := rng_random g in
  if num_lt u epsilon then choice (actions self) g1
  else
    row <- getitem state Q ;;
    best <- max_by snd row ;;
    Ok (fst best, g1).

(** [Q[state][action] += alpha * (reward + self.gamma *
       max(Q[next_state].values()) - Q[state][action])] *)
Definition q_update (Q : qtable) (state : State) (action : Action)
    (next_state : State) (reward : N) (alpha : N) : result qtable :=
  row <- getitem state Q ;;
  old <- getitem action row ;;
  next_row <- getitem next_state Q ;;
  best_next <- max_of (map snd next_row) ;;
  cur <- getitem action row ;;
  let target := num_sub (num_add reward (num_mul (gamma self) best_next)) cur in
  Ok (dict_set state (dict_set action (num_add old (num_mul alpha target)) row) Q).

(** Body of the [while state not in self.terminal_states] loop. *)
Definition q_step (alpha epsilon : N) (Q : qtable) (state : State) (g : G)
  : result (qtable * State * G) :=
  '(action, g1) <- select_action Q state epsilon g ;;
  '(next_state, reward, g2) <- step state action g1 ;;
  Q' <- q_update Q state action next_state reward alpha ;;
  Ok (Q', next_state, g2).

Fixpoint q_walk (alpha epsilon : N) (fuel : nat) (Q : qtable) (state : State)
    (g : G) : result (qtable * G) :=
  if is_terminal state then Ok (Q, g)
  else
    match fuel with
    | O => Timeout
    | S fuel' =>
        '(Q', next_state, g') <- q_step alpha epsilon Q state g ;;
        q_walk alpha epsilon fuel' Q' next_state g'
    end.

(** [random.choice([s for s in self.states
                     if s not in self.terminal_states])] *)
Definition sample_start (g : G) : result (State * G) :=
  choice (filter (fun s => negb (is_terminal s)) (states self)) g.

(** One episode: a start state, then the walk to a terminal state. *)
Definition q_episode (alpha epsilon : N) (fuel : nat) (Q : qtable) (g : G)
  : result (qtable * G) :=
  '(state, g1) <- sample_start g ;;
  q_walk alpha epsilon fuel Q state g1.

Fixpoint q_episodes (alpha epsilon : N) (fuel : nat) (episodes : nat)
    (Q : qtable) (g : G) : result (qtable * G) :=
  match episodes with
  | O => Ok (Q, g)
  | S episodes' =>
      '(Q', g') <- q_episode alpha epsilon fuel Q g ;;
      q_episodes alpha epsilon fuel episodes' Q' g'
  end.

(** The final comprehension, [{s: (max(Q[s], key=Q[s].get)
       if s not in self.terminal_states else None) for s in self.states}]. *)
Definition greedy_state (Q : qtable) (policy : policy_map) (s : State)
  : result policy_map :=
  if is_terminal s then Ok (dict_set s None policy)
  else
    row <- getitem s Q ;;
    best <- max_by snd row ;;
    Ok (dict_set s (Some (fst best)) policy).

Definition greedy_policy (Q : qtable) : result policy_map :=
  foldM (greedy_state Q) (states self) [].

(** [q_learning(episodes, alpha, epsilon)]; [fuel] bounds the length of
    each episode's walk. *)
Definition q_learning (fuel : nat) (episodes : nat) (alpha epsilon : N) (g : G)
  : result (qtable * policy_map * G) :=
  '(Q, g') <- q_episodes alpha epsilon fuel episodes q_init g ;;
  policy <- greedy_policy Q ;;
  Ok (Q, policy, g').

End Engine.

Arguments MDP State Action N : clear implicits.

(* ================================================================== *)
(** * The trajectory loop of [main] *)
(* ================================================================== *)

Section Driver.
Context {State Action N G : Type}.
Context `{Hashable State} `{Hashable Action} `{Number N} `{RandomSource G N}.
Variable self : MDP State Action N.

(** [mdp.step(state, action)] with the action read from a policy: the
    entry [None] of a terminal state is passed on as it is, and it is not
    a key of [self.P[state]]. *)
Definition step_with (state : State) (action : option Action) (g : G)
  : result (State * N * G) :=
  match action with
  | Some a => step self state a g
  | None =>
      if is_terminal self state then Ok (state, num_zero, g)
      else _ <- getitem state (P self) ;; Raise KeyError
  end.

(** The loop [for _ in range(n)] that ends [main]: the action is looked
    up in the policy, a step is simulated, a line is printed and the walk
    moves on.  The printed lines are returned as records
    [(state, action, reward, next_state)]. *)
Fixpoint trajectory (policy : policy_map (State := State) (Action := Action))
    (n : nat) (state : State) (g : G)
  : result (list (State * option Action * N * State) * G) :=
  match n with
  | O => Ok ([], g)
  | S n' =>
      action <- getitem state policy ;;
      '(next_state, reward, g1) <- step_with state action g ;;
      '(lines, g2) <- trajectory policy n' next_state g1 ;;
      Ok ((state, action, reward, next_state) :: lines, g2)
  end.

End Driver.

(* ================================================================== *)
(** * Instances: keys, numbers, a replayable random source *)
(* ================================================================== *)

#[export] Instance string_Hashable : Hashable string := string_dec.

(** Exact rationals kept in lowest terms (what [fractions.Fraction]
    operands give). *)
#[export] Instance Q_Number : Number Q := {|
  num_zero := 0%Q;
  num_add := fun a b => Qred (a + b);
  num_sub := fun a b => Qred (a - b);
  num_mul := fun a b => Qred (a * b);
  num_abs := Qabs;
  num_lt := fun a b => negb (Qle_bool b a);
  num_le := Qle_bool;
  num_isfinite := fun _ => true
|}.

(** IEEE binary64 (what [float] operands give; the literal [0] meets a
    float operand as [0.0]).  The runs computed below in binary64 are on
    models where [sum] adds a single term to [0], or two terms one of
    which is [0.0] or NaN, so that the sum is the same however it is
    accumulated; how a longer float sum is rounded is not fixed here. *)
#[export] Instance float_Number : Number PrimFloat.float := {|
  num_zero := PrimFloat.zero;
  num_add := PrimFloat.add;
  num_sub := PrimFloat.sub;
  num_mul := PrimFloat.mul;
  num_abs := PrimFloat.abs;
  num_lt := PrimFloat.ltb;
  num_le := PrimFloat.leb;
  num_isfinite := PrimFloat.is_finite
|}.

(** A random source that replays recorded draws, and yields [0] once a
    recording is used up. *)
Record tape (N : Type) : Type := {
  unit_draws : list N;
  index_draws : list nat
}.

#[export] Instance tape_RandomSource {N : Type} `{Number N}
  : RandomSource (tape N) N := {|
  rng_random := fun g =>
    match unit_draws g with
    | [] => (num_zero, g)
    | u :: rest => (u, {| unit_draws := rest; index_draws := index_draws g |})
    end;
  rng_randbelow := fun _ g =>
    match index_draws g with
    | [] => (0, g)
    | i :: rest => (i, {| unit_draws := unit_draws g; index_draws := rest |})
    end
|}.

(* ================================================================== *)
(** * Concrete models *)
(* ================================================================== *)

Module Examples.

Import PrimFloat.
Open Scope string_scope.

(** The three-state chain built by [main()], over the rationals. *)
Definition chain : MDP string string Q := {|
  states := ["s0"; "s1"; "s2"];
  actions := ["a0"; "a1"];
  P := [("s0", [("a0", [((8 # 10)%Q, "s0"); ((2 # 10)%Q, "s1")]);
                ("a1", [((5 # 10)%Q, "s1"); ((5 # 10)%Q, "s2")])]);
        ("s1", [("a0", [(1%Q, "s0")]); ("a1", [(1%Q, "s2")])]);
        ("s2", [("a0", [(1%Q, "s2")]); ("a1", [(1%Q, "s2")])])];
  R := [("s0", [("a0", 0%Q); ("a1", 1%Q)]);
        ("s1", [("a0", 0%Q); ("a1", 2%Q)]);
        ("s2", [("a0", 0%Q); ("a1", 0%Q)])];
  gamma := (9 # 10)%Q;
  terminal_states := ["s2"]
|}.

(** The same chain with every state terminal. *)
Definition all_terminal : MDP string string Q := {|
  states := states chain;
  actions := actions chain;
  P := P chain;
  R := R chain;
  gamma := gamma chain;
  terminal_states := ["s0"; "s1"; "s2"]
|}.

(** The same chain with no action at all. *)
Definition no_actions : MDP string string Q := {|
  states := states chain;
  actions := [];
  P := P chain;
  R := R chain;
  gamma := gamma chain;
  terminal_states := terminal_states chain
|}.

(** Arguments for the constructor whose kernel is short of probability
    mass: the two outcomes of [("s0", "a0")] sum to [0.9]. *)
Definition leaky_P : dict string (dict string (list (Q * string))) :=
  [("s0", [("a0", [((7 # 10)%Q, "s0"); ((2 # 10)%Q, "s1")]);
           ("a1", [((5 # 10)%Q, "s1"); ((5 # 10)%Q, "s2")])]);
   ("s1", [("a0", [(1%Q, "s0")]); ("a1", [(1%Q, "s2")])]);
   ("s2", [("a0", [(1%Q, "s2")]); ("a1", [(1%Q, "s2")])])].

(** Arguments for the constructor whose kernel names a state, ["s9"], that
    is not in the state list. *)
Definition stray_P : dict string (dict string (list (Q * string))) :=
  [("s0", [("a0", [((8 # 10)%Q, "s0"); ((2 # 10)%Q, "s9")]);
           ("a1", [((5 # 10)%Q, "s1"); ((5 # 10)%Q, "s2")])]);
   ("s1", [("a0", [(1%Q, "s0")]); ("a1", [(1%Q, "s2")])]);
   ("s2", [("a0", [(1%Q, "s2")]); ("a1", [(1%Q, "s2")])])].

(** One decision state, ["s0"], and a terminal state, ["s1"]; discount
    [1/2].  Action ["a0"] pays [2] and stops; action ["a1"] pays
    [1.0000001] and stays, worth [2.0000002] in the long run. *)
Definition dither : MDP string string Q := {|
  states := ["s0"; "s1"];
  actions := ["a0"; "a1"];
  P := [("s0", [("a0", [(1%Q, "s1")]); ("a1", [(1%Q, "s0")])]);
        ("s1", [("a0", [(1%Q, "s1")]); ("a1", [(1%Q, "s1")])])];
  R := [("s0", [("a0", 2%Q); ("a1", (10000001 # 10000000)%Q)]);
        ("s1", [("a0", 0%Q); ("a1", 0%Q)])];
  gamma := (1 # 2)%Q;
  terminal_states := ["s1"]
|}.

(** The default threshold, [1e-6]. *)
Definition theta_default : Q := (1 # 1000000)%Q.

(** The same model and threshold in binary64: the literals [1.0000001]
    and [1e-6] are read as the nearest doubles. *)
Definition dither64 : MDP string string PrimFloat.float := {|
  states := ["s0"; "s1"];
  actions := ["a0"; "a1"];
  P := [("s0", [("a0", [(1%float, "s1")]); ("a1", [(1%float, "s0")])]);
        ("s1", [("a0", [(1%float, "s1")]); ("a1", [(1%float, "s1")])])];
  R := [("s0", [("a0", 2%float); ("a1", 0x1.000001ad7f29bp+0%float)]);
        ("s1", [("a0", 0%float); ("a1", 0%float)])];
  gamma := 0.5%float;
  terminal_states := ["s1"]
|}.

Definition theta_default64 : PrimFloat.float := 0x1.0c6f7a0b5ed8dp-20%float.

(** The two policies [dither] can be in. *)
Definition stop_policy : policy_map (State := string) (Action := string) :=
  [("s0", Some "a0"); ("s1", None)].
Definition stay_policy : policy_map (State := string) (Action := string) :=
  [("s0", Some "a1"); ("s1", None)].

(** What [policy_evaluation] returns for them at the default threshold:
    exactly [2] for stopping, and [2.0000002 * (1 - 2^-21)], a little under
    [2], for staying. *)
Definition stop_values : dict string Q := [("s0", 2%Q); ("s1", 0%Q)].
Definition stay_values : dict string Q :=
  [("s0", (20971512097151 # 10485760000000)%Q); ("s1", 0%Q)].
Definition stop_values64 : dict string PrimFloat.float :=
  [("s0", 2%float); ("s1", 0%float)].
Definition stay_values64 : dict string PrimFloat.float :=
  [("s0", 0x1.fffff35afe388p+0%float); ("s1", 0%float)].

(** A policy for [chain] that stays cautious at ["s0"], with the exact
    solution of its Bellman equation; and the exact solution of the
    Bellman optimality equation of [chain]. *)
Definition cautious_policy : policy_map (State := string) (Action := string) :=
  [("s0", Some "a0"); ("s1", Some "a1"); ("s2", None)].
Definition cautious_values (s : string) : Q :=
  if string_dec s "s0" then (9 # 7)%Q
  else if string_dec s "s1" then 2%Q else 0%Q.
Definition chain_optimal_values (s : string) : Q :=
  if string_dec s "s0" then (19 # 10)%Q
  else if string_dec s "s1" then 2%Q else 0%Q.

(** A coarser threshold, [1e-2]. *)
Definition theta_coarse : Q := (1 # 100)%Q.

(** A model in binary64 whose values overflow.  Its probabilities sum to
    [1], its rewards are finite and its discount is [0.9].  ["s1"] pays
    [2^1023] for staying where it is, so its value exceeds the largest
    float in the third sweep and becomes [inf]; action ["a0"] of ["s0"]
    lists ["s1"] with probability [0.0], and [0.0 * inf] is NaN; action
    ["a1"] of ["s0"] pays [5] and stops. *)
Definition overflow64 : MDP string string PrimFloat.float := {|
  states := ["s0"; "s1"; "s2"];
  actions := ["a0"; "a1"];
  P := [("s0", [("a0", [(0%float, "s1"); (1%float, "s2")]);
                ("a1", [(1%float, "s2")])]);
        ("s1", [("a0", [(1%float, "s1")]); ("a1", [(1%float, "s1")])]);
        ("s2", [("a0", [(1%float, "s2")]); ("a1", [(1%float, "s2")])])];
  R := [("s0", [("a0", 5%float); ("a1", 5%float)]);
        ("s1", [("a0", 0x1p+1023%float); ("a1", 0x1p+1023%float)]);
        ("s2", [("a0", 0%float); ("a1", 0%float)])];
  gamma := 0x1.ccccccccccccdp-1%float;
  terminal_states := ["s2"]
|}.

(** The tables of [overflow64] before and after its fourth sweep. *)
Definition overflow_before : dict string PrimFloat.float :=
  [("s0", 5%float); ("s1", infinity); ("s2", 0%float)].
Definition overflow_after : dict string PrimFloat.float :=
  [("s0", nan); ("s1", infinity); ("s2", 0%float)].

(** A recording with no draws: every draw is [0]. *)
Definition silent {N : Type} : tape N :=
  {| unit_draws := []; index_draws := [] |}.

(** A recording for one episode on [chain]: start at index [0], explore
    (the unit draw [0] is below epsilon) with the action at index [1], and
    land with the unit draw [9/10]. *)
Definition one_episode : tape Q :=
  {| unit_draws := [0%Q; (9 # 10)%Q]; index_draws := [0; 1] |}.


End Examples.

(* ================================================================== *)
(** * Definitions for the statements *)
(* ================================================================== *)

(** Whether a call returned. *)
Definition returns {A : Type} (r : result A) : bool :=
  match r with
  | Ok _ => true
  | _ => false
  end.

(** [d[k1][k2]], when both keys are present. *)
Definition dict_get2 {K1 K2 V : Type} `{Hashable K1} `{Hashable K2}
    (k1 : K1) (k2 : K2) (d : dict K1 (dict K2 V)) : option V :=
  match dict_get k1 d with
  | Some row => dict_get k2 row
  | None => None
  end.

(** [Q[s][a]] *)
Definition q_value {State Action N : Type}
    `{Hashable State} `{Hashable Action}
    (Q : dict State (dict Action N)) (s : State) (a : Action) : option N :=
  dict_get2 s a Q.

(** A call that neither loops nor raises anything but [KeyError]. *)
Definition key_errors_only {A : Type} (r : result A) : Prop :=
  match r with
  | Ok _ => True
  | Raise e => e = KeyError
  | Timeout => False
  end.

(** A call that raises nothing: it returns, or it is still running when
    its bound is spent. *)
Definition raises_nothing {A : Type} (r : result A) : Prop :=
  match r with
  | Raise _ => False
  | _ => True
  end.

(** The keys of a table and of each of its rows, in order. *)
Definition q_shape {State Action N : Type} (Q : dict State (dict Action N))
  : dict State (list Action) :=
  map (fun entry => (fst entry, map fst (snd entry))) Q.

(** The comparison [<] as a strict weak order on the whole number type:
    what exact numbers provide.  Binary64 does not, because of NaN; what
    it does provide is [NumberCompare] below. *)
Class NumberOrder (N : Type) `{Number N} : Prop := {
  num_lt_irrefl : forall a : N, num_lt a a = false;
  num_lt_trans : forall a b c : N,
      num_lt a b = true -> num_lt b c = true -> num_lt a c = true;
  num_lt_cotrans : forall a b c : N,
      num_lt a c = true -> num_lt a b = true \/ num_lt b c = true
}.

Arguments NumberOrder N {_}.

(** What the comparisons of exact numbers and of binary64 have in common.
    A number [x] compares with every number when [x <= x]: every exact
    number does, and a float does unless it is NaN.  [<] is irreflexive
    and transitive on all numbers, and holds only between numbers that
    compare; among the numbers that compare it is a strict weak order, and
    [<=] is the negation of the reversed [<]. *)
Class NumberCompare (N : Type) `{Number N} : Prop := {
  cmp_zero : num_le (num_zero : N) num_zero = true;
  cmp_lt_irrefl : forall a : N, num_lt a a = false;
  cmp_lt_trans : forall a b c : N,
      num_lt a b = true -> num_lt b c = true -> num_lt a c = true;
  cmp_lt_compares : forall a b : N,
      num_lt a b = true -> num_le a a = true /\ num_le b b = true;
  cmp_lt_cotrans : forall a b c : N,
      num_le b b = true ->
      num_lt a c = true -> num_lt a b = true \/ num_lt b c = true;
  cmp_le_lt : forall a b : N,
      num_le a a = true -> num_le b b = true ->
      num_le b a = negb (num_lt a b)
}.

Arguments NumberCompare N {_}.

Section Statements.
Context {State Action N : Type}.
Context `{Hashable State} `{Hashable Action} `{Number N}.
Variable self : MDP State Action N.

(** The formula of the specification,
    [sum over (p, s') of p * (r + gamma * V(s'))], on a reward [r], a
    total value function [V] and a list of transitions. *)
Definition expected_return (gamma0 r : N) (V : State -> N)
    (transitions : list (N * State)) : N :=
  sum_of (map (fun t => num_mul (fst t)
                          (num_add r (num_mul gamma0 (V (snd t)))))
              transitions).

(** [V[s]] and [self.R[s][a]] read as total functions. *)
Definition value_at (V : dict State N) (s : State) : N :=
  match dict_get s V with
  | Some v => v
  | None => num_zero
  end.

Definition reward_at (s : State) (a : Action) : N :=
  match dict_get s (R self) with
  | Some Rs => match dict_get a Rs with
               | Some r => r
               | None => num_zero
               end
  | None => num_zero
  end.

(** The table and the [delta] after [k + 1] sweeps, whatever the
    threshold. *)
Fixpoint vi_sweeps (k : nat) (V : dict State N) : result (dict State N * N) :=
  match k with
  | O => vi_sweep self V
  | S k' => '(V1, _) <- vi_sweep self V ;; vi_sweeps k' V1
  end.

(** What the [k + 1]-th pass of the [while True] body returns, whatever
    the passes before it found. *)
Fixpoint pi_rounds (sweeps : nat) (theta : N) (k : nat)
    (policy : dict State (option Action))
  : result (dict State N * dict State (option Action) * bool) :=
  match k with
  | O => pi_round self sweeps theta policy
  | S k' =>
      '(_, policy', _) <- pi_round self sweeps theta policy ;;
      pi_rounds sweeps theta k' policy'
  end.

End Statements.

Section LearnerStatements.
Context {State Action N G : Type}.
Context `{Hashable State} `{Hashable Action} `{Number N} `{RandomSource G N}.
Variable self : MDP State Action N.



End LearnerStatements.

(** The kernel invariant in the words of the specification, on exact
    numbers: for every state and action the listed probabilities sum to
    [1] and every listed successor is a known state.  The code has no
    counterpart of this check. *)
Definition spec_kernel_ok (states0 : list string) (actions0 : list string)
    (P0 : dict string (dict string (list (Q * string)))) : bool :=
  forallb (fun s =>
    forallb (fun a =>
      match dict_get2 s a P0 with
      | Some transitions =>
          Qeq_bool (sum_of (map fst transitions)) 1
          && forallb (fun t => contains (snd t) states0) transitions
      | None => false
      end) actions0) states0.

Section RationalStatements.
Context {State Action : Type} `{Hashable State} `{Hashable Action}.
Variable self : MDP State Action Q.
Open Scope Q_scope.

(** The plain sum of a list of rationals. *)
Definition qsum (l : list Q) : Q := fold_right Qplus 0 l.

(** The formula of the specification with plain rational operations. *)
Definition backup (gamma0 r : Q) (V : State -> Q) (tr : list (Q * State)) : Q :=
  qsum (map (fun t => fst t * (r + gamma0 * V (snd t))) tr).

(** A valid kernel, as the specification asks: at a non-terminal state of
    the model and an action of the model, the probabilities are
    non-negative and sum to [1], and the successors are states of the
    model. *)
Definition kernel_valid : Prop :=
  forall s a tr,
    In s (states self) -> is_terminal self s = false -> In a (actions self) ->
    dict_get2 s a (P self) = Some tr ->
    (forall t, In t tr -> 0 <= fst t /\ In (snd t) (states self))
    /\ qsum (map fst tr) == 1.

(** A policy whose actions are actions of the model. *)
Definition policy_valid (policy : dict State (option Action)) : Prop :=
  forall s a, dict_get s policy = Some (Some a) -> In a (actions self).

(** Every non-terminal state of the model has a transition list and a
    reward for every action of the model. *)
Definition tables_complete : Prop :=
  forall s a,
    In s (states self) -> is_terminal self s = false -> In a (actions self) ->
    dict_get2 s a (P self) <> None /\ dict_get2 s a (R self) <> None.

(** A policy with an action at every non-terminal state of the model. *)
Definition policy_complete (policy : dict State (option Action)) : Prop :=
  forall s, In s (states self) -> is_terminal self s = false ->
            exists a, dict_get s policy = Some (Some a).

(** A table with an entry for every state of the model. *)
Definition has_states (W : dict State Q) : Prop :=
  forall s, In s (states self) -> dict_get s W <> None.

(** The two planners' sweeps share a shape: [update] computes the new
    value of a state from the table, and the body of the sweep stores it
    and keeps track of [delta].  [eval_update] is the update of
    [policy_evaluation]; that of [value_iteration] is [best_value]. *)
Definition sweep_state (update : dict State Q -> State -> result Q)
    (st : dict State Q * Q) (s : State) : result (dict State Q * Q) :=
  let '(V, delta) := st in
  if is_terminal self s then Ok (V, delta)
  else
    v <- update V s ;;
    old <- getitem s V ;;
    Ok (dict_set s v V, max2 delta (num_abs (num_sub old v))).

Fixpoint sweep_loop (update : dict State Q -> State -> result Q) (theta : Q)
    (fuel : nat) (V : dict State Q) : result (dict State Q) :=
  match fuel with
  | O => Timeout
  | S fuel' =>
      '(V', delta) <- foldM (sweep_state update) (states self) (V, num_zero) ;;
      if num_lt delta theta then Ok V' else sweep_loop update theta fuel' V'
  end.

Definition eval_update (policy : dict State (option Action))
    (V : dict State Q) (s : State) : result Q :=
  a <- getitem s policy ;;
  match a with
  | Some a => lookahead self V s a
  | None => _ <- getitem s (P self) ;; Raise KeyError
  end.

(** A value function that solves the Bellman equation of a policy
    exactly: [0] at terminal states, the backup of the policy's action
    elsewhere. *)
Definition evaluates (policy : dict State (option Action)) (U : State -> Q)
  : Prop :=
  forall s, In s (states self) ->
    if is_terminal self s then U s == 0
    else exists a tr,
        dict_get s policy = Some (Some a)
        /\ dict_get2 s a (P self) = Some tr
        /\ U s == backup (gamma self) (reward_at self s a) U tr.

(** A value function that solves the Bellman optimality equation exactly:
    [0] at terminal states, the greatest backup over the actions
    elsewhere. *)
Definition optimal (U : State -> Q) : Prop :=
  forall s, In s (states self) ->
    if is_terminal self s then U s == 0
    else (exists a tr,
            In a (actions self) /\ dict_get2 s a (P self) = Some tr
            /\ U s == backup (gamma self) (reward_at self s a) U tr)
         /\ (forall a tr,
                In a (actions self) -> dict_get2 s a (P self) = Some tr ->
                backup (gamma self) (reward_at self s a) U tr <= U s).

End RationalStatements.

(** [gamma ^ n] *)
Fixpoint qpow (x : Q) (n : nat) : Q :=
  match n with
  | O => 1%Q
  | S n' => (x * qpow x n')%Q
  end.

(* ================================================================== *)
(** * Lemmas on the runtime *)
(* ================================================================== *)

Section RuntimeLemmas.

Lemma bind_Ok {A B : Type} (r : result A) (k : A -> result B) (b : B) :
  bind r k = Ok b -> exists a, r = Ok a /\ k a = Ok b.
Proof.
  destruct r as [a| |]; simpl; intros E; try discriminate.
  exists a; split; [reflexivity | exact E].
Qed.

Lemma foldM_app {A B : Type} (f : A -> B -> result A) (l1 l2 : list B) (a : A) :
  foldM f (l1 ++ l2) a = bind (foldM f l1 a) (foldM f l2).
Proof.
  revert a; induction l1 as [|b l1 IH]; intros a; simpl; [reflexivity|].
  destruct (f a b); simpl; auto.
Qed.

(** An invariant kept by every iteration holds when the loop is over. *)
Lemma foldM_invariant {A B : Type} (f : A -> B -> result A) (I : A -> Prop)
    (l : list B) :
  (forall a b a', In b l -> I a -> f a b = Ok a' -> I a') ->
  forall a r, I a -> foldM f l a = Ok r -> I r.
Proof.
  induction l as [|b l IH]; simpl; intros Hstep a r Ha E.
  - inversion E; subst; exact Ha.
  - apply bind_Ok in E as (a' & E1 & E2).
    eapply IH; [ | | exact E2].
    + intros; eapply Hstep; eauto.
    + eapply Hstep; eauto.
Qed.

(** A property set up by the iteration at [b] and kept by the others holds
    when the loop is over, provided the loop visits [b]. *)
Lemma foldM_establish {A B : Type} (f : A -> B -> result A) (I : A -> Prop)
    (b : B) (l : list B) :
  In b l ->
  (forall a a', f a b = Ok a' -> I a') ->
  (forall a x a', I a -> f a x = Ok a' -> I a') ->
  forall a r, foldM f l a = Ok r -> I r.
Proof.
  intros Hin Hset Hkeep a r E.
  apply in_split in Hin as (l1 & l2 & ->).
  rewrite foldM_app in E. apply bind_Ok in E as (a1 & _ & E).
  simpl in E. apply bind_Ok in E as (a2 & E2 & E).
  apply foldM_invariant with (I := I) in E; eauto.
Qed.

Lemma mapM_Ok_length {A B : Type} (f : A -> result B) (l : list A) (r : list B) :
  mapM f l = Ok r -> List.length r = List.length l.
Proof.
  revert r; induction l as [|x l IH]; simpl; intros r E.
  - inversion E; reflexivity.
  - apply bind_Ok in E as (y & _ & E). apply bind_Ok in E as (ys & E1 & E).
    inversion E; subst; simpl. f_equal; auto.
Qed.

Lemma mapM_Ok_nth {A B : Type} (f : A -> result B) (l : list A) (r : list B) :
  mapM f l = Ok r ->
  forall i x y, nth_error l i = Some x -> nth_error r i = Some y -> f x = Ok y.
Proof.
  revert r; induction l as [|x0 l IH]; simpl; intros r E i x y Hx Hy.
  - destruct i; discriminate.
  - apply bind_Ok in E as (y0 & E0 & E). apply bind_Ok in E as (ys & E1 & E).
    inversion E; subst. destruct i as [|i]; simpl in *.
    + inversion Hx; inversion Hy; subst; exact E0.
    + eapply IH; eauto.
Qed.

Context {K V : Type} `{Hashable K}.

Lemma key_eqb_true (x y : K) : key_eqb x y = true <-> x = y.
Proof.
  unfold key_eqb; destruct (key_eq_dec x y); split; congruence.
Qed.

Lemma contains_In (k : K) (seq : list K) : contains k seq = true <-> In k seq.
Proof.
  unfold contains. rewrite existsb_exists. split.
  - intros (x & Hin & E). apply key_eqb_true in E. subst; exact Hin.
  - intros Hin. exists k. split; [exact Hin | apply key_eqb_true; reflexivity].
Qed.

Lemma dict_get_set_same (k : K) (v : V) (d : dict K V) :
  dict_get k (dict_set k v d) = Some v.
Proof.
  induction d as [|[k' v'] d IH]; simpl.
  - destruct (key_eq_dec k k); congruence.
  - destruct (key_eq_dec k k') as [->|Hne]; simpl.
    + destruct (key_eq_dec k' k'); congruence.
    + destruct (key_eq_dec k k'); congruence.
Qed.

Lemma dict_get_set_other (k k' : K) (v : V) (d : dict K V) :
  k <> k' -> dict_get k' (dict_set k v d) = dict_get k' d.
Proof.
  intros Hne. induction d as [|[k0 v0] d IH]; simpl.
  - destruct (key_eq_dec k' k); congruence.
  - destruct (key_eq_dec k k0) as [->|Hne0]; simpl.
    + destruct (key_eq_dec k' k0); congruence.
    + destruct (key_eq_dec k' k0); congruence.
Qed.

Lemma dict_get_set (k k' : K) (v : V) (d : dict K V) :
  dict_get k' (dict_set k v d)
  = if key_eq_dec k k' then Some v else dict_get k' d.
Proof.
  destruct (key_eq_dec k k') as [->|Hne].
  - apply dict_get_set_same.
  - apply dict_get_set_other; exact Hne.
Qed.

Lemma getitem_Ok (k : K) (d : dict K V) (v : V) :
  getitem k d = Ok v <-> dict_get k d = Some v.
Proof.
  unfold getitem. destruct (dict_get k d); split; congruence.
Qed.

Lemma dict_get_fold_set (keys : list K) (v : V) (k : K) (d : dict K V) :
  dict_get k (fold_left (fun d0 k0 => dict_set k0 v d0) keys d)
  = if in_dec key_eq_dec k keys then Some v else dict_get k d.
Proof.
  revert d; induction keys as [|k0 keys IH]; intros d; simpl; [reflexivity|].
  rewrite IH. destruct (in_dec key_eq_dec k keys) as [Hin|Hnin].
  - destruct (key_eq_dec k0 k); reflexivity.
  - rewrite dict_get_set. destruct (key_eq_dec k0 k); reflexivity.
Qed.

Lemma dict_get_fromkeys (keys : list K) (v : V) (k : K) :
  In k keys -> dict_get k (dict_fromkeys keys v) = Some v.
Proof.
  intros Hin. unfold dict_fromkeys. rewrite dict_get_fold_set.
  destruct (in_dec key_eq_dec k keys); [reflexivity | contradiction].
Qed.

End RuntimeLemmas.

(** Inversion of a successful sequence of binds. *)
Ltac inv_bind E :=
  let x := fresh "x" in
  let E1 := fresh "E" in
  apply bind_Ok in E as (x & E1 & E).

Ltac inv_Ok E := inversion E; subst; clear E.

(** Runs the closed call [r] and names what it returned. *)
Ltac run_of r pat E :=
  let Hr := fresh "Hr" in
  assert (Hr : returns r = true) by (vm_compute; reflexivity);
  destruct r as pat eqn:E; [clear Hr | discriminate Hr ..].

(* ================================================================== *)
(** * Terminal states in the outputs *)
(* ================================================================== *)

Section TerminalStates.
Context {State Action N G : Type}.
Context `{Hashable State} `{Hashable Action} `{Number N} `{RandomSource G N}.
Variable self : MDP State Action N.
Variable s : State.
Hypothesis s_terminal : is_terminal self s = true.

Lemma terminal_neq (s' : State) : is_terminal self s' = false -> s' <> s.
Proof. intros E ->. rewrite s_terminal in E. discriminate. Qed.

(** Neither planner's sweep writes the value of a terminal state. *)
Lemma eval_state_terminal policy V delta s' V' delta' :
  eval_state self policy (V, delta) s' = Ok (V', delta') ->
  dict_get s V' = dict_get s V.
Proof.
  unfold eval_state. destruct (is_terminal self s') eqn:T; intros E.
  - inv_Ok E. reflexivity.
  - do 3 inv_bind E. inv_Ok E.
    apply dict_get_set_other, terminal_neq, T.
Qed.

Lemma vi_state_terminal V delta s' V' delta' :
  vi_state self (V, delta) s' = Ok (V', delta') ->
  dict_get s V' = dict_get s V.
Proof.
  unfold vi_state. destruct (is_terminal self s') eqn:T; intros E.
  - inv_Ok E. reflexivity.
  - do 2 inv_bind E. inv_Ok E.
    apply dict_get_set_other, terminal_neq, T.
Qed.

Lemma eval_sweep_terminal policy V V' delta :
  eval_sweep self policy V = Ok (V', delta) -> dict_get s V' = dict_get s V.
Proof.
  unfold eval_sweep. intros E.
  apply (foldM_invariant (eval_state self policy)
           (fun st => dict_get s (fst st) = dict_get s V)) in E; auto.
  intros [V1 d1] s' [V2 d2] _ I1 E1; simpl in *.
  rewrite <- I1. eapply eval_state_terminal; eauto.
Qed.

Lemma vi_sweep_terminal V V' delta :
  vi_sweep self V = Ok (V', delta) -> dict_get s V' = dict_get s V.
Proof.
  unfold vi_sweep. intros E.
  apply (foldM_invariant (vi_state self)
           (fun st => dict_get s (fst st) = dict_get s V)) in E; auto.
  intros [V1 d1] s' [V2 d2] _ I1 E1; simpl in *.
  rewrite <- I1. eapply vi_state_terminal; eauto.
Qed.

Lemma eval_loop_terminal policy theta fuel V V' :
  eval_loop self policy theta fuel V = Ok V' -> dict_get s V' = dict_get s V.
Proof.
  revert V; induction fuel as [|fuel IH]; simpl; intros V E; [discriminate|].
  inv_bind E. destruct x as [V1 d1].
  apply eval_sweep_terminal in E0.
  destruct (num_lt d1 theta).
  - inv_Ok E. exact E0.
  - rewrite <- E0. apply IH; exact E.
Qed.

Lemma vi_loop_terminal theta fuel V V' :
  vi_loop self theta fuel V = Ok V' -> dict_get s V' = dict_get s V.
Proof.
  revert V; induction fuel as [|fuel IH]; simpl; intros V E; [discriminate|].
  inv_bind E. destruct x as [V1 d1].
  apply vi_sweep_terminal in E0.
  destruct (num_lt d1 theta).
  - inv_Ok E. exact E0.
  - rewrite <- E0. apply IH; exact E.
Qed.

Lemma policy_evaluation_terminal sweeps policy theta V :
  In s (states self) ->
  policy_evaluation self sweeps policy theta = Ok V ->
  dict_get s V = Some num_zero.
Proof.
  intros Hin E. unfold policy_evaluation in E.
  apply eval_loop_terminal in E. rewrite E.
  apply dict_get_fromkeys; exact Hin.
Qed.

(** The three loops that build a policy give a terminal state [None]. *)
Lemma derive_policy_terminal V policy :
  In s (states self) ->
  derive_policy self V = Ok policy -> dict_get s policy = Some None.
Proof.
  intros Hin E. unfold derive_policy in E.
  apply (foldM_establish (derive_state self V)
           (fun p => dict_get s p = Some None) s) in E; auto.
  - intros p p'. unfold derive_state. rewrite s_terminal. intros E1.
    inv_Ok E1. apply dict_get_set_same.
  - intros p s' p' I1. unfold derive_state.
    destruct (is_terminal self s') eqn:T; intros E1.
    + inv_Ok E1. rewrite dict_get_set.
      destruct (key_eq_dec s' s); [reflexivity | exact I1].
    + inv_bind E1. inv_Ok E1.
      rewrite dict_get_set_other; [exact I1 | apply terminal_neq, T].
Qed.

Lemma greedy_policy_terminal (Q : qtable) policy :
  In s (states self) ->
  greedy_policy self Q = Ok policy -> dict_get s policy = Some None.
Proof.
  intros Hin E. unfold greedy_policy in E.
  apply (foldM_establish (greedy_state self Q)
           (fun p => dict_get s p = Some None) s) in E; auto.
  - intros p p'. unfold greedy_state. rewrite s_terminal. intros E1.
    inv_Ok E1. apply dict_get_set_same.
  - intros p s' p' I1. unfold greedy_state.
    destruct (is_terminal self s') eqn:T; intros E1.
    + inv_Ok E1. rewrite dict_get_set.
      destruct (key_eq_dec s' s); [reflexivity | exact I1].
    + do 2 inv_bind E1. inv_Ok E1.
      rewrite dict_get_set_other; [exact I1 | apply terminal_neq, T].
Qed.

Lemma init_policy_terminal (g g' : G) policy :
  init_policy self g = Ok (policy, g') -> dict_get s policy = Some None.
Proof.
  unfold init_policy. intros E. inv_bind E. destruct x as [p0 g0]. inv_Ok E.
  rewrite dict_get_fold_set.
  destruct (in_dec key_eq_dec s (terminal_states self)) as [|Hn];
    [reflexivity|].
  exfalso; apply Hn. apply contains_In. exact s_terminal.
Qed.

Lemma improve_terminal V policy policy' stable :
  improve self V policy = Ok (policy', stable) ->
  dict_get s policy' = dict_get s policy.
Proof.
  unfold improve. intros E.
  apply (foldM_invariant (improve_state self V)
           (fun st => dict_get s (fst st) = dict_get s policy)) in E; auto.
  intros [p1 b1] s' [p2 b2] _ I1 E1; simpl in *. rewrite <- I1.
  unfold improve_state in E1. destruct (is_terminal self s') eqn:T.
  - inv_Ok E1. reflexivity.
  - do 2 inv_bind E1. inv_Ok E1.
    apply dict_get_set_other, terminal_neq, T.
Qed.

Lemma pi_loop_terminal sweeps theta rounds policy V policy' :
  In s (states self) ->
  dict_get s policy = Some None ->
  pi_loop self sweeps theta rounds policy = Ok (V, policy') ->
  dict_get s V = Some num_zero /\ dict_get s policy' = Some None.
Proof.
  intros Hin. revert policy.
  induction rounds as [|rounds IH]; simpl; intros policy Hp E; [discriminate|].
  inv_bind E. destruct x as [[V1 p1] stable].
  unfold pi_round in E0. inv_bind E0. inv_bind E0. destruct x0 as [p2 b2].
  inv_Ok E0. apply improve_terminal in E2.
  destruct stable.
  - inv_Ok E. split.
    + eapply policy_evaluation_terminal; eauto.
    + congruence.
  - apply IH in E; [exact E | congruence].
Qed.

End TerminalStates.

(** C2.  In the value function returned by [policy_evaluation],
    [value_iteration] and [policy_iteration] every terminal state of the
    model has value [0], and in the policy returned by [value_iteration],
    [policy_iteration] and [q_learning] every terminal state has the entry
    [None]. *)
Theorem terminal_states_value_zero_policy_none
    {State Action N G : Type}
    `{Hashable State} `{Hashable Action} `{Number N} `{RandomSource G N}
    (self : MDP State Action N) (s : State) :
  In s (states self) ->
  is_terminal self s = true ->
  (forall sweeps policy theta V,
      policy_evaluation self sweeps policy theta = Ok V ->
      dict_get s V = Some num_zero)
  /\ (forall sweeps theta V policy,
      value_iteration self sweeps theta = Ok (V, policy) ->
      dict_get s V = Some num_zero /\ dict_get s policy = Some None)
  /\ (forall sweeps rounds theta (g g' : G) V policy,
      policy_iteration self sweeps rounds theta g = Ok (V, policy, g') ->
      dict_get s V = Some num_zero /\ dict_get s policy = Some None)
  /\ (forall fuel episodes alpha epsilon (g g' : G) Q policy,
      q_learning self fuel episodes alpha epsilon g = Ok (Q, policy, g') ->
      dict_get s policy = Some None).
Proof.
  intros Hin T. split; [|split; [|split]].
  - intros sweeps policy theta V E.
    eapply policy_evaluation_terminal; eauto.
  - intros sweeps theta V policy E.
    unfold value_iteration in E. do 2 inv_bind E. inv_Ok E. split.
    + apply (vi_loop_terminal self s T) in E0. rewrite E0.
      apply dict_get_fromkeys; exact Hin.
    + eapply derive_policy_terminal; eauto.
  - intros sweeps rounds theta g g' V policy E.
    unfold policy_iteration in E. inv_bind E. destruct x as [p0 g0].
    inv_bind E. destruct x as [V1 p1]. inv_Ok E.
    apply (init_policy_terminal self s T) in E0.
    eapply pi_loop_terminal in E1; eauto.
  - intros fuel episodes alpha epsilon g g' Q policy E.
    unfold q_learning in E. inv_bind E. destruct x as [Q1 g1].
    inv_bind E. inv_Ok E.
    eapply greedy_policy_terminal; eauto.
Qed.

(** The statement above at the chain of [main()] and its terminal state
    ["s2"], on a run of each of the four algorithms. *)
Lemma terminal_states_value_zero_policy_none_witness :
  (exists V,
      policy_evaluation Examples.chain 200
        [("s0", Some "a1"); ("s1", Some "a1"); ("s2", None)]%string
        Examples.theta_default = Ok V
      /\ dict_get "s2"%string V = Some 0%Q)
  /\ (exists V policy,
      value_iteration Examples.chain 200 Examples.theta_default = Ok (V, policy)
      /\ dict_get "s2"%string V = Some 0%Q
      /\ dict_get "s2"%string policy = Some None)
  /\ (exists V policy g',
      policy_iteration Examples.chain 200 10 Examples.theta_default
        (Examples.silent (N := Q)) = Ok (V, policy, g')
      /\ dict_get "s2"%string V = Some 0%Q
      /\ dict_get "s2"%string policy = Some None)
  /\ (exists Q policy g',
      q_learning Examples.chain 10 1 (1 # 10)%Q (1 # 10)%Q Examples.one_episode
      = Ok (Q, policy, g')
      /\ dict_get "s2"%string policy = Some None).
Proof.
  destruct (terminal_states_value_zero_policy_none (G := tape Q)
              Examples.chain "s2"%string)
    as (T1 & T2 & T3 & T4); [simpl; auto | reflexivity |].
  split; [|split; [|split]].
  - run_of (policy_evaluation Examples.chain 200
              [("s0", Some "a1"); ("s1", Some "a1"); ("s2", None)]%string
              Examples.theta_default) ipattern:([V| |]) E.
    exists V. split; [reflexivity | eapply T1; exact E].
  - run_of (value_iteration Examples.chain 200 Examples.theta_default)
      ipattern:([[V policy]| |]) E.
    exists V, policy. split; [reflexivity | eapply T2; exact E].
  - run_of (policy_iteration Examples.chain 200 10 Examples.theta_default
              (Examples.silent (N := Q))) ipattern:([[[V policy] g']| |]) E.
    exists V, policy, g'. split; [reflexivity | eapply T3; exact E].
  - run_of (q_learning Examples.chain 10 1 (1 # 10)%Q (1 # 10)%Q
              Examples.one_episode) ipattern:([[[Q policy] g']| |]) E.
    exists Q, policy, g'. split; [reflexivity | eapply T4; exact E].
Defined.

(* ================================================================== *)
(** * The Simulator on a terminal state *)
(* ================================================================== *)

(** C5.  On a terminal state, [step] returns the state itself with reward
    [0], whatever the action; it draws nothing from the random source, and
    the answer is the same under any transition kernel and reward table. *)
Theorem step_terminal_absorbing
    {State Action N G : Type}
    `{Hashable State} `{Hashable Action} `{Number N} `{RandomSource G N}
    (self : MDP State Action N) (state : State) (action : Action) (g : G) :
  is_terminal self state = true ->
  step self state action g = Ok (state, num_zero, g)
  /\ forall P' R',
      step {| states := states self; actions := actions self;
              P := P'; R := R'; gamma := gamma self;
              terminal_states := terminal_states self |} state action g
      = Ok (state, num_zero, g).
Proof.
  intros T. split.
  - unfold step. rewrite T. reflexivity.
  - intros P' R'. unfold step, is_terminal in *. simpl. rewrite T. reflexivity.
Qed.

(** The statement above at the chain of [main()]: ["s2"] is terminal. *)
Lemma step_terminal_absorbing_witness :
  step Examples.chain "s2"%string "a1"%string Examples.one_episode
  = Ok ("s2"%string, 0%Q, Examples.one_episode)
  /\ forall P' R',
      step {| states := states Examples.chain;
              actions := actions Examples.chain;
              P := P'; R := R'; gamma := gamma Examples.chain;
              terminal_states := terminal_states Examples.chain |}
           "s2"%string "a1"%string Examples.one_episode
      = Ok ("s2"%string, 0%Q, Examples.one_episode).
Proof.
  exact (step_terminal_absorbing Examples.chain "s2"%string "a1"%string
           Examples.one_episode eq_refl).
Defined.

(* ================================================================== *)
(** * The Learner *)
(* ================================================================== *)

Section Learner.
Context {State Action N G : Type}.
Context `{Hashable State} `{Hashable Action} `{Number N} `{RandomSource G N}.
Variable self : MDP State Action N.

Lemma choice_In {A : Type} (seq : list A) (g g' : G) (x : A) :
  choice seq g = Ok (x, g') -> In x seq.
Proof.
  unfold choice. destruct seq as [|x0 seq]; [discriminate|].
  set (l := x0 :: seq).
  destruct (rng_randbelow (List.length l) g) as [i g1].
  intros E.
  assert (Hx : x = nth (i mod List.length l) l x0) by congruence.
  rewrite Hx. apply nth_In.
  apply Nat.mod_upper_bound. subst l. discriminate.
Qed.

Lemma choice_nonempty {A : Type} (seq : list A) (g : G) :
  seq <> [] -> exists x g', choice seq g = Ok (x, g').
Proof.
  unfold choice. destruct seq as [|x0 seq]; [congruence|]. intros _.
  destruct (rng_randbelow (List.length (x0 :: seq)) g) as [i g1].
  eauto.
Qed.

Lemma q_init_row (s : State) :
  In s (states self) ->
  dict_get s (q_init self) = Some (dict_fromkeys (actions self) num_zero).
Proof.
  intros Hin. unfold q_init.
  apply (dict_get_fromkeys (states self)
           (dict_fromkeys (actions self) num_zero) s Hin).
Qed.

Lemma q_init_zero (s : State) (a : Action) :
  In s (states self) -> In a (actions self) ->
  q_value (q_init self) s a = Some num_zero.
Proof.
  intros Hs Ha. unfold q_value, dict_get2. rewrite q_init_row by exact Hs.
  apply dict_get_fromkeys; exact Ha.
Qed.

(** What one update does to the table. *)
Lemma q_update_spec Q state action next_state reward alpha Q' :
  q_update self Q state action next_state reward alpha = Ok Q' ->
  exists old best_next next_row,
    q_value Q state action = Some old
    /\ dict_get next_state Q = Some next_row
    /\ max_of (map snd next_row) = Ok best_next
    /\ q_value Q' state action
       = Some (num_add old
                 (num_mul alpha
                    (num_sub (num_add reward (num_mul (gamma self) best_next))
                             old)))
    /\ (forall s', s' <> state -> dict_get s' Q' = dict_get s' Q)
    /\ (forall a', a' <> action -> q_value Q' state a' = q_value Q state a').
Proof.
  unfold q_update. intros E.
  inv_bind E. rename x into row. inv_bind E. rename x into old.
  inv_bind E. rename x into next_row. inv_bind E. rename x into best_next.
  inv_bind E. rename x into cur. inv_Ok E.
  apply getitem_Ok in E0, E1, E2, E4.
  assert (cur = old) by congruence. subst cur.
  exists old, best_next, next_row. unfold q_value, dict_get2.
  rewrite E0, dict_get_set_same. repeat split; auto.
  - apply dict_get_set_same.
  - intros s' Hne. apply dict_get_set_other. congruence.
  - intros a' Hne. apply dict_get_set_other. congruence.
Qed.

Lemma q_step_other_rows alpha epsilon Q state g Q' next_state g' s :
  q_step self alpha epsilon Q state g = Ok (Q', next_state, g') ->
  s <> state -> dict_get s Q' = dict_get s Q.
Proof.
  unfold q_step. intros E Hne.
  inv_bind E. destruct x as [action g1].
  inv_bind E. destruct x as [[ns reward] g2].
  inv_bind E. inv_Ok E.
  apply q_update_spec in E2 as (? & ? & ? & _ & _ & _ & _ & Hrows & _).
  apply Hrows; exact Hne.
Qed.

Lemma q_walk_terminal_rows alpha epsilon fuel Q state g Q' g' s :
  is_terminal self s = true ->
  q_walk self alpha epsilon fuel Q state g = Ok (Q', g') ->
  dict_get s Q' = dict_get s Q.
Proof.
  intros T. revert Q state g.
  induction fuel as [|fuel IH]; intros Q state g; simpl;
    destruct (is_terminal self state) eqn:Tst; intros E;
    try (inv_Ok E; reflexivity); try discriminate.
  inv_bind E. destruct x as [[Q1 st1] g1].
  apply IH in E. rewrite E.
  eapply q_step_other_rows; eauto.
  intros ->. congruence.
Qed.

Lemma q_episodes_terminal_rows alpha epsilon fuel episodes Q g Q' g' s :
  is_terminal self s = true ->
  q_episodes self alpha epsilon fuel episodes Q g = Ok (Q', g') ->
  dict_get s Q' = dict_get s Q.
Proof.
  intros T. revert Q g.
  induction episodes as [|n IH]; intros Q g; simpl; intros E.
  - inv_Ok E. reflexivity.
  - inv_bind E. destruct x as [Q1 g1].
    apply IH in E. rewrite E.
    unfold q_episode in E0. inv_bind E0. destruct x as [st g2].
    eapply q_walk_terminal_rows; eauto.
Qed.

Lemma sample_start_nonterminal (g g' : G) (s0 : State) :
  sample_start self g = Ok (s0, g') ->
  In s0 (states self) /\ is_terminal self s0 = false.
Proof.
  unfold sample_start. intros E. apply choice_In in E.
  apply filter_In in E as [Hin Hnt]. split; [exact Hin|].
  destruct (is_terminal self s0); [discriminate | reflexivity].
Qed.

End Learner.

Section WalkPasses.
Context {State Action N G : Type}.
Context `{Hashable State} `{Hashable Action} `{Number N} `{RandomSource G N}.
Variable self : MDP State Action N.



End WalkPasses.



(** C9.  For a terminal state [s] of the model and any action [a], the
    entry [Q[s][a]] is [0] at the start, is left as it is by every pass
    through the body of the walk (which runs on non-terminal states only)
    and by every walk, and is [0] in the table [q_learning] returns. *)
Theorem q_learning_terminal_rows_zero
    {State Action N G : Type}
    `{Hashable State} `{Hashable Action} `{Number N} `{RandomSource G N}
    (self : MDP State Action N) (s : State) (a : Action) :
  In s (states self) ->
  is_terminal self s = true ->
  In a (actions self) ->
  q_value (q_init self) s a = Some num_zero
  /\ (forall alpha epsilon Q state (g g' : G) Q' next_state,
      is_terminal self state = false ->
      q_step self alpha epsilon Q state g = Ok (Q', next_state, g') ->
      q_value Q' s a = q_value Q s a)
  /\ (forall alpha epsilon fuel Q state (g g' : G) Q',
      q_walk self alpha epsilon fuel Q state g = Ok (Q', g') ->
      q_value Q' s a = q_value Q s a)
  /\ (forall fuel episodes alpha epsilon (g g' : G) Q policy,
      q_learning self fuel episodes alpha epsilon g = Ok (Q, policy, g') ->
      q_value Q s a = Some num_zero).
Proof.
  intros Hs T Ha. split; [|split; [|split]].
  - apply q_init_zero; assumption.
  - intros alpha epsilon Q state g g' Q' next_state Tst E.
    unfold q_value, dict_get2. erewrite q_step_other_rows; eauto.
    intros ->. congruence.
  - intros alpha epsilon fuel Q state g g' Q' E.
    unfold q_value, dict_get2. erewrite q_walk_terminal_rows; eauto.
  - intros fuel episodes alpha epsilon g g' Q policy E.
    unfold q_learning in E. inv_bind E. destruct x as [Q1 g1].
    inv_bind E. inv_Ok E.
    unfold q_value, dict_get2. erewrite q_episodes_terminal_rows; eauto.
    apply q_init_zero; assumption.
Qed.

(** The statement above on the chain of [main()], after one episode. *)
Lemma q_learning_terminal_rows_zero_witness :
  q_value (q_init Examples.chain) "s2"%string "a1"%string = Some 0%Q
  /\ exists Q policy g',
      q_learning Examples.chain 10 1 (1 # 10)%Q (1 # 10)%Q Examples.one_episode
      = Ok (Q, policy, g')
      /\ q_value Q "s2"%string "a1"%string = Some 0%Q.
Proof.
  destruct (q_learning_terminal_rows_zero (G := tape Q) Examples.chain
              "s2"%string "a1"%string) as (W0 & _ & _ & W);
    [simpl; auto | reflexivity | simpl; auto |].
  split; [exact W0|].
  run_of (q_learning Examples.chain 10 1 (1 # 10)%Q (1 # 10)%Q
            Examples.one_episode) ipattern:([[[Q policy] g']| |]) E.
  exists Q, policy, g'. split; [reflexivity | eapply W; exact E].
Defined.

(** C10.  With at least one episode to run, [q_learning] on a model whose
    states are all terminal fails with the [IndexError] of
    [random.choice] on an empty list, and returns nothing; when some state
    is not terminal, drawing the start state succeeds and gives a
    non-terminal state of the model. *)
Theorem q_learning_needs_nonterminal_state
    {State Action N G : Type}
    `{Hashable State} `{Hashable Action} `{Number N} `{RandomSource G N}
    (self : MDP State Action N) (g : G) :
  (forall fuel episodes alpha epsilon,
      (forall s, In s (states self) -> is_terminal self s = true) ->
      1 <= episodes ->
      q_learning self fuel episodes alpha epsilon g = Raise IndexError)
  /\ ((exists s, In s (states self) /\ is_terminal self s = false) ->
      exists s0 g',
        sample_start self g = Ok (s0, g')
        /\ In s0 (states self) /\ is_terminal self s0 = false).
Proof.
  split.
  - intros fuel episodes alpha epsilon Hall Hep.
    destruct episodes as [|n]; [lia|].
    assert (Hnil : filter (fun s => negb (is_terminal self s)) (states self)
                   = []).
    { clear - Hall. induction (states self) as [|s l IH]; simpl; auto.
      rewrite (Hall s) by (left; reflexivity). simpl.
      apply IH. intros s' Hin. apply Hall. right; exact Hin. }
    unfold q_learning. simpl. unfold q_episode, sample_start.
    rewrite Hnil. reflexivity.
  - intros (s & Hin & Hnt).
    assert (Hne : filter (fun s => negb (is_terminal self s)) (states self)
                  <> []).
    { intros Hnil.
      assert (Hf : In s (filter (fun s => negb (is_terminal self s))
                                (states self))).
      { apply filter_In. split; [exact Hin | rewrite Hnt; reflexivity]. }
      rewrite Hnil in Hf. exact Hf. }
    destruct (choice_nonempty g Hne) as (s0 & g' & E).
    exists s0, g'. split; [exact E|].
    eapply sample_start_nonterminal; exact E.
Qed.

(** The statement above on the chain of [main()] with every state made
    terminal, and on the chain itself. *)
Lemma q_learning_needs_nonterminal_state_witness :
  q_learning Examples.all_terminal 10 1 (1 # 10)%Q (1 # 10)%Q
             Examples.one_episode = Raise IndexError
  /\ exists s0 g',
      sample_start Examples.chain Examples.one_episode = Ok (s0, g')
      /\ In s0 (states Examples.chain)
      /\ is_terminal Examples.chain s0 = false.
Proof.
  split.
  - apply (proj1 (q_learning_needs_nonterminal_state Examples.all_terminal
                    Examples.one_episode)); [|lia].
    intros s Hin. simpl in Hin.
    destruct Hin as [<-|[<-|[<-|[]]]]; reflexivity.
  - apply (proj2 (q_learning_needs_nonterminal_state Examples.chain
                    Examples.one_episode)).
    exists "s0"%string. split; [simpl; auto | reflexivity].
Defined.

(* ================================================================== *)
(** * The builtin [max] under an order *)
(* ================================================================== *)

Section MaxLemmas.
Context {N : Type} `{NumberOrder N}.

Lemma num_lt_asym (a b : N) : num_lt a b = true -> num_lt b a = false.
Proof.
  intros Hab. destruct (num_lt b a) eqn:Hba; [|reflexivity].
  rewrite <- (num_lt_irrefl a). symmetry. eapply num_lt_trans; eauto.
Qed.

(** The scan stops on the first greatest item: everything before it is
    strictly smaller, nothing after it is strictly greater. *)
Lemma max_scan_split {A : Type} (key : A -> N) (l : list A) (best : A) :
  exists pre post,
    best :: l = pre ++ max_scan key best l :: post
    /\ (forall x, In x pre -> num_lt (key x) (key (max_scan key best l)) = true)
    /\ (forall x, In x post ->
          num_lt (key (max_scan key best l)) (key x) = false).
Proof.
  revert best. induction l as [|x l IH]; intros best; simpl.
  - exists [], []. repeat split; simpl; intros; contradiction.
  - destruct (num_lt (key best) (key x)) eqn:Hlt.
    + destruct (IH x) as (pre & post & Heq & Hpre & Hpost).
      exists (best :: pre), post. split; [simpl; f_equal; exact Heq|].
      split; [|exact Hpost].
      intros y [<-|Hy]; [|apply Hpre; exact Hy].
      destruct pre as [|p pre]; simpl in Heq.
      * injection Heq as Hx _. rewrite <- Hx. exact Hlt.
      * injection Heq as Hx _. subst p.
        eapply num_lt_trans; [exact Hlt|]. apply Hpre. left; reflexivity.
    + destruct (IH best) as (pre & post & Heq & Hpre & Hpost).
      destruct pre as [|p pre]; simpl in Heq.
      * injection Heq as Hb Hl.
        exists [], (x :: post).
        split; [simpl; f_equal; [exact Hb | f_equal; exact Hl]|].
        split; [intros y []|].
        intros y [<-|Hy]; [rewrite <- Hb; exact Hlt | apply Hpost; exact Hy].
      * injection Heq as Hb Hl. subst p.
        exists (best :: x :: pre), post.
        split; [simpl; do 2 f_equal; exact Hl|].
        split; [|exact Hpost].
        assert (Hbm : num_lt (key best) (key (max_scan key best l)) = true)
          by (apply Hpre; left; reflexivity).
        intros y [<-|[<-|Hy]]; [exact Hbm | | apply Hpre; right; exact Hy].
        destruct (num_lt_cotrans (key best) (key x) _ Hbm) as [Hc|Hc];
          [congruence | exact Hc].
Qed.

Lemma max_by_spec {A : Type} (key : A -> N) (l : list A) (m : A) :
  max_by key l = Ok m ->
  exists pre post,
    l = pre ++ m :: post
    /\ (forall x, In x pre -> num_lt (key x) (key m) = true)
    /\ (forall x, In x l -> num_lt (key m) (key x) = false).
Proof.
  unfold max_by. destruct l as [|x l]; [discriminate|].
  intros E. inv_Ok E.
  destruct (max_scan_split key l x) as (pre & post & Heq & Hpre & Hpost).
  exists pre, post. split; [exact Heq|]. split; [exact Hpre|].
  intros y Hy. rewrite Heq in Hy. apply in_app_or in Hy as [Hy|[<-|Hy]].
  - apply num_lt_asym, Hpre, Hy.
  - apply num_lt_irrefl.
  - apply Hpost, Hy.
Qed.

(** [max(a, b)] is an upper bound of both, and one of them. *)
Lemma max2_spec (a b : N) :
  (max2 a b = a \/ max2 a b = b)
  /\ num_lt (max2 a b) a = false /\ num_lt (max2 a b) b = false.
Proof.
  unfold max2. simpl. destruct (num_lt a b) eqn:Hlt.
  - split; [right; reflexivity|]. split.
    + apply num_lt_asym; exact Hlt.
    + apply num_lt_irrefl.
  - split; [left; reflexivity|]. split; [apply num_lt_irrefl | exact Hlt].
Qed.

(** An upper bound stays one when the running maximum moves on. *)
Lemma max2_keeps_bound (a b x : N) :
  num_lt a x = false -> num_lt (max2 a b) x = false.
Proof.
  intros Hax. unfold max2. simpl. destruct (num_lt a b) eqn:Hlt; [|exact Hax].
  destruct (num_lt b x) eqn:Hbx; [|reflexivity].
  rewrite <- Hax. symmetry. eapply num_lt_trans; eauto.
Qed.

End MaxLemmas.

Section MapM.
Context {A B : Type}.

Lemma mapM_Forall2 (f : A -> result B) (l : list A) (r : list B) :
  mapM f l = Ok r -> Forall2 (fun x y => f x = Ok y) l r.
Proof.
  revert r; induction l as [|x l IH]; simpl; intros r E.
  - inv_Ok E. constructor.
  - inv_bind E. inv_bind E. inv_Ok E. constructor; auto.
Qed.

Lemma mapM_keyed (f : A -> result B) (l : list A) (r : list (A * B)) :
  mapM (fun a => q <- f a ;; Ok (a, q)) l = Ok r ->
  map fst r = l /\ forall a q, In (a, q) r -> f a = Ok q.
Proof.
  revert r; induction l as [|x l IH]; simpl; intros r E.
  - inv_Ok E. split; [reflexivity | intros ? ? []].
  - apply bind_Ok in E as (y & Ey & E).
    apply bind_Ok in Ey as (q0 & Eq0 & Ey).
    apply bind_Ok in E as (ys & Eys & E).
    inv_Ok Ey. inv_Ok E.
    destruct (IH _ Eys) as [Hfst Hin]. split.
    + simpl. rewrite Hfst. reflexivity.
    + intros a q [Heq|Hq]; [inv_Ok Heq; exact Eq0 | apply Hin; exact Hq].
Qed.

End MapM.

(** Exact rationals are ordered as the scan of [max] needs. *)
Lemma Q_num_lt_iff (a b : Q) : num_lt a b = true <-> (a < b)%Q.
Proof.
  simpl. rewrite negb_true_iff. split.
  - intros E. apply Qnot_le_lt. intros Hle.
    apply Qle_bool_iff in Hle. congruence.
  - intros Hlt. destruct (Qle_bool b a) eqn:E; [|reflexivity].
    apply Qle_bool_iff in E. exfalso. exact (Qlt_not_le _ _ Hlt E).
Qed.

Lemma Q_num_lt_false_iff (a b : Q) : num_lt a b = false <-> (b <= a)%Q.
Proof.
  simpl. rewrite negb_false_iff. apply Qle_bool_iff.
Qed.

#[export] Instance Q_NumberOrder : NumberOrder Q.
Proof.
  constructor.
  - intros a. apply Q_num_lt_false_iff. apply Qle_refl.
  - intros a b c Hab Hbc. apply Q_num_lt_iff in Hab, Hbc.
    apply Q_num_lt_iff. eapply Qlt_trans; eauto.
  - intros a b c Hac. apply Q_num_lt_iff in Hac.
    destruct (Qlt_le_dec a b) as [Hab|Hba].
    + left. apply Q_num_lt_iff. exact Hab.
    + right. apply Q_num_lt_iff. eapply Qle_lt_trans; eauto.
Defined.

(* ================================================================== *)
(** * The one-step lookahead and the greedy choice *)
(* ================================================================== *)

Section Lookahead.
Context {State Action N : Type}.
Context `{Hashable State} `{Hashable Action} `{Number N}.
Variable self : MDP State Action N.

Lemma sum_terms_fold V s a (transitions : list (N * State)) (acc q : N) :
  sum_terms self V s a acc transitions = Ok q ->
  q = fold_left num_add
        (map (fun t => num_mul (fst t)
                         (num_add (reward_at self s a)
                            (num_mul (gamma self) (value_at V (snd t)))))
             transitions) acc
  /\ forall t, In t transitions -> dict_get (snd t) V <> None.
Proof.
  revert acc. induction transitions as [|[prob next_state] rest IH];
    intros acc; simpl; intros E.
  - inv_Ok E. split; [reflexivity | intros ? []].
  - apply bind_Ok in E as (Rs & ERs & E). apply bind_Ok in E as (r & Er & E).
    apply bind_Ok in E as (v & Ev & E).
    apply getitem_Ok in ERs, Er, Ev.
    apply IH in E as [Hq Hdef]. split.
    + rewrite Hq. unfold reward_at, value_at. rewrite ERs, Er, Ev. reflexivity.
    + intros t [<-|Ht]; [simpl; congruence | apply Hdef; exact Ht].
Qed.

(** The generator expression of the code computes the formula of the
    specification. *)
Lemma lookahead_expected V s a q :
  lookahead self V s a = Ok q ->
  exists Ps transitions,
    dict_get s (P self) = Some Ps
    /\ dict_get a Ps = Some transitions
    /\ (forall t, In t transitions -> dict_get (snd t) V <> None)
    /\ q = expected_return (gamma self) (reward_at self s a) (value_at V) transitions.
Proof.
  unfold lookahead. intros E.
  apply bind_Ok in E as (Ps & EPs & E). apply bind_Ok in E as (tr & Etr & E).
  apply getitem_Ok in EPs, Etr. apply sum_terms_fold in E as [Hq Hdef].
  exists Ps, tr. repeat split; assumption.
Qed.

Context `{!NumberOrder N}.

(** [max(sum(...) for a in self.actions)] is the lookahead of some action
    and no action's lookahead is strictly greater. *)
Lemma best_value_spec V s v :
  best_value self V s = Ok v ->
  (exists a, In a (actions self) /\ lookahead self V s a = Ok v)
  /\ (forall a, In a (actions self) ->
        exists q, lookahead self V s a = Ok q /\ num_lt v q = false).
Proof.
  unfold best_value. intros E. apply bind_Ok in E as (qs & Eqs & E).
  apply mapM_Forall2 in Eqs. unfold max_of in E.
  apply max_by_spec in E as (pre & post & Hsplit & _ & Hmax).
  assert (Hv : In v qs) by (rewrite Hsplit; apply in_elt).
  split.
  - clear - Eqs Hv. induction Eqs as [|a q l r Hq _ IH]; [contradiction|].
    destruct Hv as [<-|Hv].
    + exists a. split; [left; reflexivity | exact Hq].
    + destruct (IH Hv) as (a' & Ha' & E'). exists a'. split; [right|]; auto.
  - clear - Eqs Hmax. induction Eqs as [|a q l r Hq _ IH]; intros a' [].
    + subst a'. exists q. split; [exact Hq | apply Hmax; left; reflexivity].
    + apply IH; [|assumption]. intros x Hx. apply Hmax. right; exact Hx.
Qed.

(** [max(self.actions, key=...)] is the first action, in the order of
    [self.actions], whose lookahead no action exceeds. *)
Lemma best_action_spec V s best :
  best_action self V s = Ok best ->
  exists pre post q,
    actions self = pre ++ best :: post
    /\ lookahead self V s best = Ok q
    /\ (forall a, In a pre ->
          exists qa, lookahead self V s a = Ok qa /\ num_lt qa q = true)
    /\ (forall a, In a (actions self) ->
          exists qa, lookahead self V s a = Ok qa /\ num_lt q qa = false).
Proof.
  unfold best_action. intros E. apply bind_Ok in E as (keyed & Ek & E).
  apply bind_Ok in E as ([b qb] & Em & E). inv_Ok E. simpl.
  apply mapM_keyed in Ek as [Hfst Hin].
  apply max_by_spec in Em as (pre & post & Hsplit & Hpre & Hmax).
  simpl in Hpre, Hmax.
  exists (map fst pre), (map fst post), qb. split; [|split; [|split]].
  - rewrite <- Hfst, Hsplit, map_app. reflexivity.
  - apply Hin. rewrite Hsplit. apply in_elt.
  - intros a Ha. apply in_map_iff in Ha as ([a' qa] & <- & Ha).
    exists qa. split; [|apply (Hpre _ Ha)].
    apply Hin. rewrite Hsplit. apply in_or_app. left; exact Ha.
  - intros a Ha. rewrite <- Hfst in Ha.
    apply in_map_iff in Ha as ([a' qa] & <- & Ha).
    exists qa. split; [apply Hin; exact Ha | apply (Hmax _ Ha)].
Qed.

End Lookahead.

(* ================================================================== *)
(** * Value iteration: the sweep and its exit *)
(* ================================================================== *)

Section ValueIteration.
Context {State Action N : Type}.
Context `{Hashable State} `{Hashable Action} `{Number N}.
Variable self : MDP State Action N.

Lemma foldM_split {A B : Type} (f : A -> B -> result A) l1 b l2 a r :
  foldM f (l1 ++ b :: l2) a = Ok r ->
  exists a1 a2,
    foldM f l1 a = Ok a1 /\ f a1 b = Ok a2 /\ foldM f l2 a2 = Ok r.
Proof.
  rewrite foldM_app. intros E. apply bind_Ok in E as (a1 & E1 & E).
  simpl in E. apply bind_Ok in E as (a2 & E2 & E). eauto.
Qed.

Lemma vi_state_nonterminal V delta s V' delta' :
  is_terminal self s = false ->
  vi_state self (V, delta) s = Ok (V', delta') ->
  exists v old,
    best_value self V s = Ok v /\ dict_get s V = Some old
    /\ V' = dict_set s v V
    /\ delta' = max2 delta (num_abs (num_sub old v)).
Proof.
  unfold vi_state. intros -> E.
  apply bind_Ok in E as (v & Ev & E). apply bind_Ok in E as (old & Eold & E).
  inv_Ok E. apply getitem_Ok in Eold.
  exists v, old. repeat split; auto.
Qed.

Lemma vi_state_other V delta s' V' delta' s :
  vi_state self (V, delta) s' = Ok (V', delta') ->
  s' <> s -> dict_get s V' = dict_get s V.
Proof.
  intros E Hne. destruct (is_terminal self s') eqn:T.
  - unfold vi_state in E. rewrite T in E. inv_Ok E. reflexivity.
  - apply vi_state_nonterminal in E as (v & old & _ & _ & -> & _); auto.
    apply dict_get_set_other; exact Hne.
Qed.

(** [delta] is [0] or the change of a visited state. *)
Lemma vi_delta_attained (l : list State) V V' delta :
  foldM (vi_state self) l (V, num_zero) = Ok (V', delta) ->
  delta = num_zero
  \/ exists l1 s l2 V1 d1 old v,
      l = l1 ++ s :: l2 /\ is_terminal self s = false
      /\ foldM (vi_state self) l1 (V, num_zero) = Ok (V1, d1)
      /\ dict_get s V1 = Some old /\ best_value self V1 s = Ok v
      /\ delta = num_abs (num_sub old v).
Proof.
  revert V' delta. induction l as [|x l IH] using rev_ind; intros V' delta E.
  - inv_Ok E. left; reflexivity.
  - apply foldM_split in E as ([V1 d1] & [V2 d2] & E1 & Ex & E2).
    inv_Ok E2. destruct (is_terminal self x) eqn:T.
    + unfold vi_state in Ex. rewrite T in Ex. inv_Ok Ex.
      destruct (IH _ _ E1) as [Hz|(l1 & s & l2 & Va & da & old & v & Hl & Hrest)];
        [left; exact Hz | right].
      exists l1, s, (l2 ++ [x]), Va, da, old, v. split; [|exact Hrest].
      rewrite Hl, <- app_assoc. reflexivity.
    + pose proof Ex as Ex'.
      apply vi_state_nonterminal in Ex' as (v & old & Ev & Eold & _ & Hd); auto.
      unfold max2 in Hd; simpl in Hd.
      destruct (num_lt d1 (num_abs (num_sub old v))).
      * right. exists l, x, [], V1, d1, old, v. repeat split; auto.
      * subst delta.
        destruct (IH _ _ E1)
          as [Hz|(l1 & s & l2 & Va & da & old' & v' & Hl & Hrest)];
          [left; exact Hz | right].
        exists l1, s, (l2 ++ [x]), Va, da, old', v'. split; [|exact Hrest].
        rewrite Hl, <- app_assoc. reflexivity.
Qed.

(** The loop returns at the first sweep whose [delta] is below [theta]. *)
Lemma vi_loop_exit theta fuel V V' :
  vi_loop self theta fuel V = Ok V' <->
  exists k delta,
    k < fuel /\ vi_sweeps self k V = Ok (V', delta) /\ num_lt delta theta = true
    /\ forall j, j < k ->
         exists Vj dj, vi_sweeps self j V = Ok (Vj, dj) /\ num_lt dj theta = false.
Proof.
  revert V. induction fuel as [|fuel IH]; intros V; simpl.
  - split; [discriminate | intros (k & ? & Hk & _); lia].
  - split.
    + intros E. apply bind_Ok in E as ([V1 d1] & E1 & E).
      destruct (num_lt d1 theta) eqn:Hd.
      * inv_Ok E. exists 0, d1. repeat split; auto; [lia|]. intros j Hj; lia.
      * apply IH in E as (k & delta & Hk & Ek & Hlt & Hbefore).
        exists (S k), delta. split; [lia|]. split; [simpl; rewrite E1; exact Ek|].
        split; [exact Hlt|]. intros [|j] Hj.
        -- exists V1, d1. split; [exact E1 | exact Hd].
        -- simpl. rewrite E1. simpl. apply Hbefore. lia.
    + intros (k & delta & Hk & Ek & Hlt & Hbefore). destruct k as [|k].
      * simpl in Ek. rewrite Ek. simpl. rewrite Hlt. reflexivity.
      * simpl in Ek. apply bind_Ok in Ek as ([V1 d1] & E1 & Ek).
        rewrite E1. simpl.
        destruct (Hbefore 0) as (V0 & d0 & E0 & Hd0); [lia|].
        simpl in E0. rewrite E1 in E0. inv_Ok E0. rewrite Hd0.
        apply IH. exists k, delta. split; [lia|]. split; [exact Ek|].
        split; [exact Hlt|]. intros j Hj.
        destruct (Hbefore (S j)) as (Vj & dj & Ej & Hdj); [lia|].
        simpl in Ej. rewrite E1 in Ej. simpl in Ej. eauto.
Qed.

Context `{!NumberOrder N}.

Lemma vi_state_bound V delta s' V' delta' x :
  vi_state self (V, delta) s' = Ok (V', delta') ->
  num_lt delta x = false -> num_lt delta' x = false.
Proof.
  intros E Hx. destruct (is_terminal self s') eqn:T.
  - unfold vi_state in E. rewrite T in E. inv_Ok E. exact Hx.
  - apply vi_state_nonterminal in E as (v & old & _ & _ & _ & ->); auto.
    apply max2_keeps_bound; exact Hx.
Qed.

(** What a sweep leaves at a non-terminal state, and in [delta]. *)
Lemma vi_sweep_at V V' delta l1 s l2 :
  states self = l1 ++ s :: l2 ->
  ~ In s l2 ->
  is_terminal self s = false ->
  vi_sweep self V = Ok (V', delta) ->
  exists V1 d1 old v,
    foldM (vi_state self) l1 (V, num_zero) = Ok (V1, d1)
    /\ dict_get s V1 = Some old
    /\ best_value self V1 s = Ok v
    /\ dict_get s V' = Some v
    /\ num_lt delta (num_abs (num_sub old v)) = false.
Proof.
  intros Hl Hnin T E. unfold vi_sweep in E. rewrite Hl in E.
  apply foldM_split in E as ([V1 d1] & [V2 d2] & E1 & Es & E2).
  pose proof Es as Es'.
  apply vi_state_nonterminal in Es' as (v & old & Ev & Eold & -> & ->); auto.
  exists V1, d1, old, v. repeat split; auto.
  - apply (foldM_invariant (vi_state self)
             (fun st => dict_get s (fst st) = Some v)) in E2; auto.
    + intros [Va da] b [Vb db] Hb Ia Eb. simpl in *. rewrite <- Ia.
      eapply vi_state_other; eauto. intros ->. contradiction.
    + simpl. apply dict_get_set_same.
  - apply (foldM_invariant (vi_state self)
             (fun st => num_lt (snd st) (num_abs (num_sub old v)) = false))
      in E2; auto.
    + intros [Va da] b [Vb db] _ Ia Eb. simpl in *.
      eapply vi_state_bound; eauto.
    + simpl. apply max2_spec.
Qed.

End ValueIteration.

(* ================================================================== *)
(** * The comparisons of binary64 *)
(* ================================================================== *)

Section SpecFloatOrder.
Import SpecFloat.

Ltac cmp_cases :=
  repeat match goal with
  | |- context [Z.compare ?x ?y] => destruct (Z.compare_spec x y); subst
  | |- context [Pos.compare_cont Eq ?x ?y] =>
      change (Pos.compare_cont Eq x y) with (Pos.compare x y);
      destruct (Pos.compare_spec x y); subst
  | H : context [Z.compare ?x ?y] |- _ => destruct (Z.compare_spec x y); subst
  | H : context [Pos.compare_cont Eq ?x ?y] |- _ =>
      change (Pos.compare_cont Eq x y) with (Pos.compare x y) in H;
      destruct (Pos.compare_spec x y); subst
  end.

Lemma SFltb_irrefl a : SFltb a a = false.
Proof.
  unfold SFltb, SFcompare. destruct a as [[]|[]| |[] m e]; try reflexivity;
    rewrite Z.compare_refl;
    change (Pos.compare_cont Eq m m) with (Pos.compare m m);
    rewrite Pos.compare_refl; reflexivity.
Qed.

Lemma SFltb_trans a b c :
  SFltb a b = true -> SFltb b c = true -> SFltb a c = true.
Proof.
  unfold SFltb, SFcompare.
  destruct a as [[]|[]| |[] ma ea], b as [[]|[]| |[] mb eb],
    c as [[]|[]| |[] mc ec]; try discriminate; try reflexivity;
    intros H1 H2; cmp_cases; cbn in *; try discriminate; try reflexivity;
    try lia.
Qed.

Lemma SFltb_compares a b :
  SFltb a b = true -> a <> S754_nan /\ b <> S754_nan.
Proof.
  unfold SFltb, SFcompare.
  destruct a as [[]|[]| |[] ma ea], b as [[]|[]| |[] mb eb];
    try discriminate; intros _; split; discriminate.
Qed.

Lemma SFltb_cotrans a b c :
  b <> S754_nan ->
  SFltb a c = true -> SFltb a b = true \/ SFltb b c = true.
Proof.
  unfold SFltb, SFcompare.
  destruct a as [[]|[]| |[] ma ea], b as [[]|[]| |[] mb eb],
    c as [[]|[]| |[] mc ec]; try discriminate; try congruence;
    intros Hb H1; cmp_cases; cbn in *; try discriminate; auto; try lia.
Qed.

Lemma SFleb_ltb a b :
  a <> S754_nan -> b <> S754_nan -> SFleb b a = negb (SFltb a b).
Proof.
  unfold SFleb, SFltb, SFcompare.
  destruct a as [[]|[]| |[] ma ea], b as [[]|[]| |[] mb eb];
    try congruence; try reflexivity;
    intros Ha Hb; cmp_cases; cbn in *; try reflexivity; try lia.
Qed.

(** A float compares with itself unless it is NaN. *)
Lemma SFleb_refl a : SFleb a a = true <-> a <> S754_nan.
Proof.
  unfold SFleb, SFcompare. destruct a as [[]|[]| |[] m e];
    try rewrite Z.compare_refl;
    try (change (Pos.compare_cont Eq m m) with (Pos.compare m m);
         rewrite Pos.compare_refl);
    cbn; split; intros Hx; try congruence; try reflexivity.
Qed.

End SpecFloatOrder.

Lemma float_leb_refl (x : PrimFloat.float) :
  PrimFloat.leb x x = true <-> FloatOps.Prim2SF x <> SpecFloat.S754_nan.
Proof. rewrite FloatAxioms.leb_spec. apply SFleb_refl. Qed.

(** Binary64 compares as [NumberCompare] asks, NaN included. *)
#[export] Instance float_NumberCompare : NumberCompare PrimFloat.float.
Proof.
  constructor.
  - reflexivity.
  - intros a. cbn [num_lt float_Number].
    rewrite FloatAxioms.ltb_spec. apply SFltb_irrefl.
  - intros a b c. cbn [num_lt float_Number].
    rewrite !FloatAxioms.ltb_spec. apply SFltb_trans.
  - intros a b. cbn [num_lt num_le float_Number].
    rewrite !float_leb_refl, FloatAxioms.ltb_spec. apply SFltb_compares.
  - intros a b c. cbn [num_lt num_le float_Number].
    rewrite float_leb_refl, !FloatAxioms.ltb_spec. apply SFltb_cotrans.
  - intros a b. cbn [num_lt num_le float_Number].
    rewrite !float_leb_refl, FloatAxioms.leb_spec, FloatAxioms.ltb_spec.
    apply SFleb_ltb.
Qed.

(** So do exact rationals, all of which compare. *)
#[export] Instance Q_NumberCompare : NumberCompare Q.
Proof.
  constructor.
  - reflexivity.
  - intros a. apply Q_num_lt_false_iff. apply Qle_refl.
  - intros a b c Hab Hbc. apply Q_num_lt_iff in Hab, Hbc.
    apply Q_num_lt_iff. eapply Qlt_trans; eauto.
  - intros a b _. cbn [num_le Q_Number].
    split; apply Qle_bool_iff, Qle_refl.
  - intros a b c _ Hac. apply Q_num_lt_iff in Hac.
    destruct (Qlt_le_dec a b) as [Hab|Hba].
    + left. apply Q_num_lt_iff. exact Hab.
    + right. apply Q_num_lt_iff. eapply Qle_lt_trans; eauto.
  - intros a b _ _. cbn [num_lt num_le Q_Number]. rewrite negb_involutive.
    reflexivity.
Qed.

(* ================================================================== *)
(** * The builtin [max] when some numbers do not compare *)
(* ================================================================== *)

Section CompareLemmas.
Context {N : Type} `{NumberCompare N}.

Lemma cmp_lt_asym (a b : N) : num_lt a b = true -> num_lt b a = false.
Proof.
  intros Hab. destruct (num_lt b a) eqn:Hba; [|reflexivity].
  rewrite <- (cmp_lt_irrefl a). symmetry. eapply cmp_lt_trans; eauto.
Qed.

(** Among numbers that compare, [<=] is "not greater". *)
Lemma cmp_le_of_not_lt (a b : N) :
  num_le a a = true -> num_le b b = true ->
  num_lt a b = false -> num_le b a = true.
Proof. intros Ha Hb Hab. rewrite (cmp_le_lt a b Ha Hb), Hab. reflexivity. Qed.

(** The scan returns one of the items, the first one or an item greater
    than it, and no item is greater than what it returns. *)
Lemma max_scan_upper {A : Type} (key : A -> N) (l : list A) :
  forall best,
    In (max_scan key best l) (best :: l)
    /\ (max_scan key best l = best
        \/ num_lt (key best) (key (max_scan key best l)) = true)
    /\ forall x, In x (best :: l) ->
         num_lt (key (max_scan key best l)) (key x) = false.
Proof.
  induction l as [|x l IH]; intros best; cbn [max_scan].
  - split; [left; reflexivity|]. split; [left; reflexivity|].
    intros y [<-|[]]. apply cmp_lt_irrefl.
  - destruct (num_lt (key best) (key x)) eqn:Hlt.
    + destruct (IH x) as (Hin & Hfrom & Hup).
      assert (Hbm : num_lt (key best) (key (max_scan key x l)) = true).
      { destruct Hfrom as [->|Hxm]; [exact Hlt|].
        eapply cmp_lt_trans; eauto. }
      split; [right; exact Hin|]. split; [right; exact Hbm|].
      intros y [<-|Hy]; [apply cmp_lt_asym; exact Hbm | apply Hup; exact Hy].
    + destruct (IH best) as (Hin & Hfrom & Hup).
      split; [destruct Hin as [Hb|Hl]; [left; exact Hb | right; right; exact Hl]|].
      split; [exact Hfrom|].
      intros y [<-|[<-|Hy]].
      * apply Hup. left; reflexivity.
      * destruct Hfrom as [->|Hbm]; [exact Hlt|].
        destruct (num_lt (key (max_scan key best l)) (key x)) eqn:Hmy;
          [|reflexivity].
        rewrite <- Hlt. symmetry. eapply cmp_lt_trans; eauto.
      * apply Hup. right; exact Hy.
Qed.

Lemma max_by_upper {A : Type} (key : A -> N) (l : list A) (m : A) :
  max_by key l = Ok m ->
  In m l /\ forall x, In x l -> num_lt (key m) (key x) = false.
Proof.
  unfold max_by. destruct l as [|x l]; [discriminate|].
  intros E. inv_Ok E. destruct (max_scan_upper key l x) as (Hin & _ & Hup).
  split; assumption.
Qed.

(** When the items compare, the scan stops on the first greatest one:
    everything before it is strictly smaller. *)
Lemma max_scan_first {A : Type} (key : A -> N) (l : list A) :
  forall best,
    (forall x, In x l -> num_le (key x) (key x) = true) ->
    exists pre post,
      best :: l = pre ++ max_scan key best l :: post
      /\ forall x, In x pre ->
           num_lt (key x) (key (max_scan key best l)) = true.
Proof.
  induction l as [|x l IH]; intros best Hord; cbn [max_scan].
  - exists [], []. split; [reflexivity | intros y []].
  - assert (Hord' : forall y, In y l -> num_le (key y) (key y) = true)
      by (intros y Hy; apply Hord; right; exact Hy).
    destruct (num_lt (key best) (key x)) eqn:Hlt.
    + destruct (IH x Hord') as (pre & post & Heq & Hpre).
      exists (best :: pre), post. split; [simpl; f_equal; exact Heq|].
      intros y [<-|Hy]; [|apply Hpre; exact Hy].
      destruct (max_scan_upper key l x) as (_ & [->|Hxm] & _); [exact Hlt|].
      eapply cmp_lt_trans; eauto.
    + destruct (IH best Hord') as (pre & post & Heq & Hpre).
      destruct pre as [|p pre]; simpl in Heq.
      * injection Heq as Hb Hl.
        exists [], (x :: post).
        split; [simpl; f_equal; [exact Hb | f_equal; exact Hl]|].
        intros y [].
      * injection Heq as Hb Hl. subst p.
        exists (best :: x :: pre), post.
        split; [simpl; do 2 f_equal; exact Hl|].
        assert (Hbm : num_lt (key best) (key (max_scan key best l)) = true)
          by (apply Hpre; left; reflexivity).
        intros y [<-|[<-|Hy]]; [exact Hbm | | apply Hpre; right; exact Hy].
        destruct (cmp_lt_cotrans (key best) (key x) _
                    (Hord x (or_introl eq_refl)) Hbm) as [Hc|Hc];
          [congruence | exact Hc].
Qed.

Lemma max_by_first {A : Type} (key : A -> N) (l : list A) (m : A) :
  (forall x, In x l -> num_le (key x) (key x) = true) ->
  max_by key l = Ok m ->
  exists pre post,
    l = pre ++ m :: post
    /\ forall x, In x pre -> num_lt (key x) (key m) = true.
Proof.
  unfold max_by. destruct l as [|x l]; [discriminate|].
  intros Hord E. inv_Ok E. apply max_scan_first.
  intros y Hy. apply Hord. right; exact Hy.
Qed.

(** [max(a, b)] is one of the two, and neither is greater. *)
Lemma max2_upper (a b : N) :
  (max2 a b = a \/ max2 a b = b)
  /\ num_lt (max2 a b) a = false /\ num_lt (max2 a b) b = false.
Proof.
  unfold max2. cbn [max_scan]. destruct (num_lt a b) eqn:Hlt.
  - split; [right; reflexivity|]. split.
    + apply cmp_lt_asym; exact Hlt.
    + apply cmp_lt_irrefl.
  - split; [left; reflexivity|]. split; [apply cmp_lt_irrefl | exact Hlt].
Qed.

(** The running maximum compares as long as it starts from a number that
    does. *)
Lemma max2_compares (a b : N) :
  num_le a a = true -> num_le (max2 a b) (max2 a b) = true.
Proof.
  intros Ha. unfold max2. cbn [max_scan].
  destruct (num_lt a b) eqn:Hlt; [|exact Ha].
  apply (cmp_lt_compares a b Hlt).
Qed.

(** What the running maximum does not fall below, it never will. *)
Lemma max2_keeps_upper (a b x : N) :
  num_lt a x = false -> num_lt (max2 a b) x = false.
Proof.
  intros Hax. unfold max2. cbn [max_scan].
  destruct (num_lt a b) eqn:Hlt; [|exact Hax].
  destruct (num_lt b x) eqn:Hbx; [|reflexivity].
  rewrite <- Hax. symmetry. eapply cmp_lt_trans; eauto.
Qed.

End CompareLemmas.

Section LookaheadCompare.
Context {State Action N : Type}.
Context `{Hashable State} `{Hashable Action} `{Number N} `{!NumberCompare N}.
Variable self : MDP State Action N.

(** [max(sum(...) for a in self.actions)] is the lookahead of some
    action, and no action's lookahead is greater. *)
Lemma best_value_upper V s v :
  best_value self V s = Ok v ->
  (exists a, In a (actions self) /\ lookahead self V s a = Ok v)
  /\ (forall a, In a (actions self) ->
        exists q, lookahead self V s a = Ok q /\ num_lt v q = false).
Proof.
  unfold best_value. intros E. apply bind_Ok in E as (qs & Eqs & E).
  apply mapM_Forall2 in Eqs. unfold max_of in E.
  apply max_by_upper in E as [Hv Hmax].
  split.
  - clear - Eqs Hv. induction Eqs as [|a q l r Hq _ IH]; [contradiction|].
    destruct Hv as [<-|Hv].
    + exists a. split; [left; reflexivity | exact Hq].
    + destruct (IH Hv) as (a' & Ha' & E'). exists a'. split; [right|]; auto.
  - clear - Eqs Hmax. induction Eqs as [|a q l r Hq _ IH]; intros a' [].
    + subst a'. exists q. split; [exact Hq | apply Hmax; left; reflexivity].
    + apply IH; [|assumption]. intros x Hx. apply Hmax. right; exact Hx.
Qed.

(** When the lookaheads of the state compare, it is their maximum. *)
Lemma best_value_greatest V s v :
  best_value self V s = Ok v ->
  (forall a q, In a (actions self) -> lookahead self V s a = Ok q ->
               num_le q q = true) ->
  forall a, In a (actions self) ->
    exists q, lookahead self V s a = Ok q /\ num_le q v = true.
Proof.
  intros E Hord a Ha.
  destruct (best_value_upper V s E) as [(a0 & Ha0 & Ev) Hup].
  destruct (Hup a Ha) as (q & Eq & Hvq). exists q. split; [exact Eq|].
  apply cmp_le_of_not_lt; [exact (Hord a0 v Ha0 Ev) | exact (Hord a q Ha Eq)|].
  exact Hvq.
Qed.

(** [max(self.actions, key=...)] is an action whose lookahead no action's
    lookahead is greater than; when the lookaheads compare it is the first
    such action, and its lookahead is their maximum. *)
Lemma best_action_upper V s best :
  best_action self V s = Ok best ->
  exists q,
    In best (actions self)
    /\ lookahead self V s best = Ok q
    /\ (forall a, In a (actions self) ->
          exists qa, lookahead self V s a = Ok qa /\ num_lt q qa = false).
Proof.
  unfold best_action. intros E. apply bind_Ok in E as (keyed & Ek & E).
  apply bind_Ok in E as ([b qb] & Em & E). inv_Ok E. cbn [fst].
  apply mapM_keyed in Ek as [Hfst Hin].
  apply max_by_upper in Em as [Hm Hmax]. cbn [snd] in Hmax.
  exists qb. split; [|split].
  - rewrite <- Hfst. change best with (fst (best, qb)). apply in_map.
    exact Hm.
  - apply Hin. exact Hm.
  - intros a Ha. rewrite <- Hfst in Ha.
    apply in_map_iff in Ha as ([a' qa] & <- & Ha).
    exists qa. split; [apply Hin; exact Ha | apply (Hmax _ Ha)].
Qed.

Lemma best_action_first V s best :
  best_action self V s = Ok best ->
  (forall a q, In a (actions self) -> lookahead self V s a = Ok q ->
               num_le q q = true) ->
  exists pre post q,
    actions self = pre ++ best :: post
    /\ lookahead self V s best = Ok q
    /\ (forall a, In a pre ->
          exists qa, lookahead self V s a = Ok qa /\ num_lt qa q = true)
    /\ (forall a, In a (actions self) ->
          exists qa, lookahead self V s a = Ok qa /\ num_le qa q = true).
Proof.
  intros E Hord.
  destruct (best_action_upper V s E) as (q0 & Hb0 & Eq0 & Hup).
  unfold best_action in E. apply bind_Ok in E as (keyed & Ek & E).
  apply bind_Ok in E as ([b qb] & Em & E). inv_Ok E. cbn [fst] in *.
  apply mapM_keyed in Ek as [Hfst Hin].
  assert (Hk : forall e, In e keyed -> num_le (snd e) (snd e) = true).
  { intros [a qa] He. cbn [snd]. apply (Hord a qa); [|apply Hin; exact He].
    rewrite <- Hfst. change a with (fst (a, qa)). apply in_map. exact He. }
  destruct (max_by_first snd keyed Hk Em) as (pre & post & Hsplit & Hpre).
  cbn [snd] in Hpre.
  assert (Eqb : lookahead self V s best = Ok qb)
    by (apply Hin; rewrite Hsplit; apply in_elt).
  assert (q0 = qb) by congruence. subst q0.
  exists (map fst pre), (map fst post), qb. split; [|split; [|split]].
  - rewrite <- Hfst, Hsplit, map_app. reflexivity.
  - exact Eqb.
  - intros a Ha. apply in_map_iff in Ha as ([a' qa] & <- & Ha).
    exists qa. split; [|apply (Hpre _ Ha)].
    apply Hin. rewrite Hsplit. apply in_or_app. left; exact Ha.
  - intros a Ha. destruct (Hup a Ha) as (qa & Eqa & Hle).
    exists qa. split; [exact Eqa|].
    apply cmp_le_of_not_lt;
      [exact (Hord best qb Hb0 Eqb) | exact (Hord a qa Ha Eqa) | exact Hle].
Qed.

Lemma vi_state_upper V delta s' V' delta' x :
  vi_state self (V, delta) s' = Ok (V', delta') ->
  num_lt delta x = false -> num_lt delta' x = false.
Proof.
  intros E Hx. destruct (is_terminal self s') eqn:T.
  - unfold vi_state in E. rewrite T in E. inv_Ok E. exact Hx.
  - apply vi_state_nonterminal in E as (v & old & _ & _ & _ & ->); auto.
    apply max2_keeps_upper; exact Hx.
Qed.

(** The [delta] of a sweep is never NaN. *)
Lemma vi_sweep_delta_compares V V' delta :
  vi_sweep self V = Ok (V', delta) -> num_le delta delta = true.
Proof.
  unfold vi_sweep. intros E.
  apply (foldM_invariant (vi_state self)
           (fun st => num_le (snd st) (snd st) = true)) in E;
    [exact E | | exact cmp_zero].
  intros [V1 d1] s [V2 d2] _ I1 Es. cbn [snd] in *.
  destruct (is_terminal self s) eqn:T.
  - unfold vi_state in Es. rewrite T in Es. inv_Ok Es. exact I1.
  - apply vi_state_nonterminal in Es as (v & old & _ & _ & _ & ->); auto.
    apply max2_compares; exact I1.
Qed.

(** What a sweep leaves at a non-terminal state, and in [delta]. *)
Lemma vi_sweep_visit V V' delta l1 s l2 :
  states self = l1 ++ s :: l2 ->
  ~ In s l2 ->
  is_terminal self s = false ->
  vi_sweep self V = Ok (V', delta) ->
  exists V1 d1 old v,
    foldM (vi_state self) l1 (V, num_zero) = Ok (V1, d1)
    /\ dict_get s V1 = Some old
    /\ best_value self V1 s = Ok v
    /\ dict_get s V' = Some v
    /\ num_lt delta (num_abs (num_sub old v)) = false.
Proof.
  intros Hl Hnin T E. unfold vi_sweep in E. rewrite Hl in E.
  apply foldM_split in E as ([V1 d1] & [V2 d2] & E1 & Es & E2).
  pose proof Es as Es'.
  apply vi_state_nonterminal in Es' as (v & old & Ev & Eold & -> & ->); auto.
  exists V1, d1, old, v. repeat split; auto.
  - apply (foldM_invariant (vi_state self)
             (fun st => dict_get s (fst st) = Some v)) in E2; auto.
    + intros [Va da] b [Vb db] Hb Ia Eb. simpl in *. rewrite <- Ia.
      eapply vi_state_other; eauto. intros ->. contradiction.
    + simpl. apply dict_get_set_same.
  - apply (foldM_invariant (vi_state self)
             (fun st => num_lt (snd st) (num_abs (num_sub old v)) = false))
      in E2; auto.
    + intros [Va da] b [Vb db] _ Ia Eb. simpl in *.
      eapply vi_state_upper; eauto.
    + simpl. apply max2_upper.
Qed.

End LookaheadCompare.

(** C3, as the code has it.  In a sweep of [value_iteration] a terminal
    state is skipped; a non-terminal state [s] gets what [max] returns on
    the lookaheads [sum of p * (R(s,a) + gamma * V(s'))] of the actions,
    computed on the table as the sweep has left it so far: the lookahead
    of some action, than which no action's lookahead is greater, and, when
    the lookaheads of [s] compare (none is NaN), their maximum.  [delta]
    is [0] or the absolute change of a visited state and is never NaN; no
    state's absolute change is greater, and it is at least every change
    that is not NaN.  The loop returns exactly at the first sweep whose
    [delta] is below [theta]. *)
Theorem value_iteration_sweep_and_exit
    {State Action N : Type}
    `{Hashable State} `{Hashable Action} `{Number N} `{!NumberCompare N}
    (self : MDP State Action N) :
  (forall V delta s,
      is_terminal self s = true ->
      vi_state self (V, delta) s = Ok (V, delta))
  /\ (forall V V' delta l1 s l2,
      states self = l1 ++ s :: l2 -> ~ In s l2 ->
      is_terminal self s = false ->
      vi_sweep self V = Ok (V', delta) ->
      exists V1 d1 old v,
        foldM (vi_state self) l1 (V, num_zero) = Ok (V1, d1)
        /\ dict_get s V1 = Some old
        /\ (exists a, In a (actions self) /\ lookahead self V1 s a = Ok v)
        /\ (forall a, In a (actions self) ->
              exists q, lookahead self V1 s a = Ok q /\ num_lt v q = false)
        /\ ((forall a q, In a (actions self) ->
               lookahead self V1 s a = Ok q -> num_le q q = true) ->
            forall a, In a (actions self) ->
              exists q, lookahead self V1 s a = Ok q /\ num_le q v = true)
        /\ dict_get s V' = Some v
        /\ num_lt delta (num_abs (num_sub old v)) = false
        /\ num_le delta delta = true
        /\ (num_le (num_abs (num_sub old v)) (num_abs (num_sub old v)) = true ->
            num_le (num_abs (num_sub old v)) delta = true))
  /\ (forall V s a q,
      lookahead self V s a = Ok q ->
      exists Ps transitions,
        dict_get s (P self) = Some Ps
        /\ dict_get a Ps = Some transitions
        /\ (forall t, In t transitions -> dict_get (snd t) V <> None)
        /\ q = expected_return (gamma self) (reward_at self s a)
                 (value_at V) transitions)
  /\ (forall V V' delta,
      vi_sweep self V = Ok (V', delta) ->
      delta = num_zero
      \/ exists l1 s l2 V1 d1 old v,
          states self = l1 ++ s :: l2 /\ is_terminal self s = false
          /\ foldM (vi_state self) l1 (V, num_zero) = Ok (V1, d1)
          /\ dict_get s V1 = Some old /\ best_value self V1 s = Ok v
          /\ delta = num_abs (num_sub old v))
  /\ (forall theta fuel V V',
      vi_loop self theta fuel V = Ok V' <->
      exists k delta,
        k < fuel /\ vi_sweeps self k V = Ok (V', delta)
        /\ num_lt delta theta = true
        /\ forall j, j < k ->
             exists Vj dj,
               vi_sweeps self j V = Ok (Vj, dj) /\ num_lt dj theta = false)
  /\ (forall sweeps theta V policy,
      value_iteration self sweeps theta = Ok (V, policy) ->
      vi_loop self theta sweeps (dict_fromkeys (states self) num_zero) = Ok V).
Proof.
  split; [|split; [|split; [|split; [|split]]]].
  - intros V delta s T. unfold vi_state. rewrite T. reflexivity.
  - intros V V' delta l1 s l2 Hl Hnin T E.
    destruct (vi_sweep_visit self V l1 s l2 Hl Hnin T E)
      as (V1 & d1 & old & v & E1 & Eold & Ev & Hv & Hd).
    destruct (best_value_upper self V1 s Ev) as [Hsome Hall].
    exists V1, d1, old, v.
    split; [exact E1|]. split; [exact Eold|]. split; [exact Hsome|].
    split; [exact Hall|].
    split; [intros Hord; exact (best_value_greatest self V1 s Ev Hord)|].
    pose proof (vi_sweep_delta_compares self V E) as Hdd.
    split; [exact Hv|]. split; [exact Hd|]. split; [exact Hdd|].
    intros Hcc. apply cmp_le_of_not_lt; assumption.
  - intros V s a q E. exact (lookahead_expected self V s a E).
  - intros V V' delta E. exact (vi_delta_attained self _ V E).
  - intros theta fuel V V'. apply vi_loop_exit.
  - intros sweeps theta V policy E. unfold value_iteration in E.
    apply bind_Ok in E as (V0 & EV & E). apply bind_Ok in E as (p & Ep & E).
    inv_Ok E. exact EV.
Qed.

(** The statement above in binary64, on [dither64]: the first sweep at
    ["s0"], whose lookaheads are [2] and [1.0000001], and the exit of the
    loop. *)
Lemma value_iteration_sweep_and_exit_witness :
  (exists V' delta v,
      vi_sweep Examples.dither64
        (dict_fromkeys (states Examples.dither64) PrimFloat.zero)
      = Ok (V', delta)
      /\ dict_get "s0"%string V' = Some v
      /\ forall a, In a (actions Examples.dither64) ->
           exists q,
             lookahead Examples.dither64
               (dict_fromkeys (states Examples.dither64) PrimFloat.zero)
               "s0"%string a = Ok q
             /\ num_le q v = true)
  /\ (exists V policy k delta,
      value_iteration Examples.dither64 10 Examples.theta_default64
      = Ok (V, policy)
      /\ vi_sweeps Examples.dither64 k
           (dict_fromkeys (states Examples.dither64) PrimFloat.zero)
         = Ok (V, delta)
      /\ num_lt delta Examples.theta_default64 = true).
Proof.
  destruct (value_iteration_sweep_and_exit Examples.dither64)
    as (_ & Wsweep & _ & _ & Wexit & Wrun).
  split.
  - run_of (vi_sweep Examples.dither64
              (dict_fromkeys (states Examples.dither64) PrimFloat.zero))
      ipattern:([[V' delta]| |]) E.
    assert (Hnin : ~ In "s0"%string ["s1"%string])
      by (intros [Hc|[]]; discriminate Hc).
    destruct (Wsweep _ V' delta [] "s0"%string ["s1"%string]
                eq_refl Hnin eq_refl E)
      as (V1 & d1 & old & v & E1 & _ & _ & _ & Hmax & Hv & _).
    cbn [foldM] in E1. injection E1 as <- _.
    exists V', delta, v. split; [reflexivity|]. split; [exact Hv|].
    apply Hmax. intros a q Ha Hq. cbn [actions Examples.dither64] in Ha.
    destruct Ha as [<-|[<-|[]]]; vm_compute in Hq; injection Hq as <-;
      reflexivity.
  - run_of (value_iteration Examples.dither64 10 Examples.theta_default64)
      ipattern:([[V policy]| |]) E.
    pose proof (Wrun _ _ _ _ E) as El.
    apply Wexit in El as (k & delta & _ & Ek & Hlt & _).
    exists V, policy, k, delta. split; [reflexivity|]. split; assumption.
Defined.

Section OverflowInBinary64.
Import PrimFloat.

(** C3 as stated fails in binary64.  [overflow64] has probabilities that
    sum to [1], finite rewards and discount [0.9].  Its third sweep takes
    the value of ["s1"] beyond the largest float, to [inf].  In the fourth
    sweep the lookahead of ["a0"] at ["s0"] is [0.0 * inf + 5], which is
    NaN, and that of ["a1"] is [5]; [max] keeps the NaN it met first, so
    the value of ["s0"] goes from [5] to NaN, which is not the maximum of
    the lookaheads ([5 <= nan] is false); and [max(delta, nan)] keeps
    [delta], so the sweep ends with [delta = 0] and the loop returns,
    although a value has changed. *)
Lemma value_iteration_stores_nan :
  vi_sweeps Examples.overflow64 2
    (dict_fromkeys (states Examples.overflow64) PrimFloat.zero)
  = Ok (Examples.overflow_before, PrimFloat.infinity)
  /\ lookahead Examples.overflow64 Examples.overflow_before
       "s0"%string "a0"%string = Ok PrimFloat.nan
  /\ lookahead Examples.overflow64 Examples.overflow_before
       "s0"%string "a1"%string = Ok 5%float
  /\ best_value Examples.overflow64 Examples.overflow_before "s0"%string
     = Ok PrimFloat.nan
  /\ num_le 5%float PrimFloat.nan = false
  /\ vi_sweep Examples.overflow64 Examples.overflow_before
     = Ok (Examples.overflow_after, PrimFloat.zero)
  /\ dict_get "s0"%string Examples.overflow_before = Some 5%float
  /\ dict_get "s0"%string Examples.overflow_after = Some PrimFloat.nan
  /\ num_le (num_abs (num_sub 5%float PrimFloat.nan)) PrimFloat.zero = false
  /\ exists policy,
      value_iteration Examples.overflow64 4 Examples.theta_default64
      = Ok (Examples.overflow_after, policy).
Proof.
  repeat (split; [vm_compute; reflexivity|]).
  eexists. vm_compute. reflexivity.
Qed.

End OverflowInBinary64.

(* ================================================================== *)
(** * The greedy policy of the two planners *)
(* ================================================================== *)

Section GreedyPolicy.
Context {State Action N : Type}.
Context `{Hashable State} `{Hashable Action} `{Number N}.
Variable self : MDP State Action N.
Variable s : State.
Hypothesis s_in : In s (states self).
Hypothesis s_live : is_terminal self s = false.

Lemma live_neq (s' : State) : is_terminal self s' = true -> s' <> s.
Proof. intros E ->. rewrite s_live in E. discriminate. Qed.

(** The derivation pass of [value_iteration] stores the greedy action. *)
Lemma derive_policy_greedy V policy :
  derive_policy self V = Ok policy ->
  exists best,
    best_action self V s = Ok best /\ dict_get s policy = Some (Some best).
Proof.
  unfold derive_policy. intros E.
  apply (foldM_establish (derive_state self V)
           (fun p => exists best, best_action self V s = Ok best
                                  /\ dict_get s p = Some (Some best)) s)
    in E; auto.
  - intros p p'. unfold derive_state. rewrite s_live. intros E1.
    apply bind_Ok in E1 as (best & Eb & E1). inv_Ok E1.
    exists best. split; [exact Eb | apply dict_get_set_same].
  - intros p s' p' (best & Eb & Hp). unfold derive_state.
    destruct (is_terminal self s') eqn:T; intros E1.
    + inv_Ok E1. exists best. split; [exact Eb|].
      rewrite dict_get_set_other; [exact Hp | apply live_neq, T].
    + apply bind_Ok in E1 as (best' & Eb' & E1). inv_Ok E1.
      exists best. split; [exact Eb|]. rewrite dict_get_set.
      destruct (key_eq_dec s' s) as [->|]; [congruence | exact Hp].
Qed.

(** So does the improvement step of [policy_iteration]. *)
Lemma improve_greedy V policy policy' stable :
  improve self V policy = Ok (policy', stable) ->
  exists best,
    best_action self V s = Ok best /\ dict_get s policy' = Some (Some best).
Proof.
  unfold improve. intros E.
  apply (foldM_establish (improve_state self V)
           (fun st => exists best, best_action self V s = Ok best
                        /\ dict_get s (fst st) = Some (Some best)) s)
    in E; auto.
  - intros [p b] [p' b']. unfold improve_state. rewrite s_live. intros E1.
    apply bind_Ok in E1 as (old & Eo & E1).
    apply bind_Ok in E1 as (best & Eb & E1). inv_Ok E1.
    exists best. split; [exact Eb | apply dict_get_set_same].
  - intros [p b] s' [p' b'] (best & Eb & Hp). unfold improve_state.
    simpl in Hp. destruct (is_terminal self s') eqn:T; intros E1.
    + inv_Ok E1. exists best. split; assumption.
    + apply bind_Ok in E1 as (old & Eo & E1).
      apply bind_Ok in E1 as (best' & Eb' & E1). inv_Ok E1.
      exists best. split; [exact Eb|]. simpl. rewrite dict_get_set.
      destruct (key_eq_dec s' s) as [->|]; [congruence | exact Hp].
Qed.

End GreedyPolicy.

(** C4, as the code has it.  The action that [max(self.actions, key=...)]
    selects is an action of the model with a lookahead
    [sum of p * (R(s,a) + gamma * V(s'))] than which no action's lookahead
    is greater.  When the lookaheads of the state compare (none is NaN),
    its lookahead is their maximum and every action listed before it has a
    strictly smaller one (the first maximum wins).  This action is what
    the derivation pass of [value_iteration] stores for a non-terminal
    state, on the table the loop returned, and what the improvement step
    of [policy_iteration] stores, on the table just evaluated. *)
Theorem greedy_action_first_maximum
    {State Action N : Type}
    `{Hashable State} `{Hashable Action} `{Number N} `{!NumberCompare N}
    (self : MDP State Action N) :
  (forall V s best,
      best_action self V s = Ok best ->
      exists q,
        In best (actions self)
        /\ lookahead self V s best = Ok q
        /\ q = expected_return (gamma self) (reward_at self s best) (value_at V)
                 (match dict_get2 s best (P self) with
                  | Some transitions => transitions
                  | None => []
                  end)
        /\ (forall a, In a (actions self) ->
              exists qa, lookahead self V s a = Ok qa /\ num_lt q qa = false)
        /\ ((forall a qa, In a (actions self) ->
               lookahead self V s a = Ok qa -> num_le qa qa = true) ->
            exists pre post,
              actions self = pre ++ best :: post
              /\ (forall a, In a pre ->
                    exists qa,
                      lookahead self V s a = Ok qa /\ num_lt qa q = true)
              /\ (forall a, In a (actions self) ->
                    exists qa,
                      lookahead self V s a = Ok qa /\ num_le qa q = true)))
  /\ (forall sweeps theta V policy s,
      value_iteration self sweeps theta = Ok (V, policy) ->
      In s (states self) -> is_terminal self s = false ->
      exists best,
        best_action self V s = Ok best /\ dict_get s policy = Some (Some best))
  /\ (forall sweeps theta policy V policy' stable s,
      pi_round self sweeps theta policy = Ok (V, policy', stable) ->
      In s (states self) -> is_terminal self s = false ->
      policy_evaluation self sweeps policy theta = Ok V
      /\ exists best,
          best_action self V s = Ok best
          /\ dict_get s policy' = Some (Some best)).
Proof.
  split; [|split].
  - intros V s best E.
    destruct (best_action_upper self V s E) as (q & Hb & Hq & Hup).
    exists q. split; [exact Hb|]. split; [exact Hq|].
    split; [|split; [exact Hup|]].
    + destruct (lookahead_expected self V s best Hq)
        as (Ps & tr & EPs & Etr & _ & Hval).
      unfold dict_get2. rewrite EPs, Etr. exact Hval.
    + intros Hord.
      destruct (best_action_first self V s E Hord)
        as (pre & post & q' & Hsplit & Hq' & Hpre & Hmax).
      assert (q' = q) by congruence. subst q'.
      exists pre, post. split; [exact Hsplit|]. split; assumption.
  - intros sweeps theta V policy s E Hin T. unfold value_iteration in E.
    apply bind_Ok in E as (V0 & EV & E). apply bind_Ok in E as (p & Ep & E).
    inv_Ok E. exact (derive_policy_greedy self s Hin T V Ep).
  - intros sweeps theta policy V policy' stable s E Hin T.
    unfold pi_round in E. apply bind_Ok in E as (V0 & EV & E).
    apply bind_Ok in E as ([p b] & Ei & E). inv_Ok E.
    split; [exact EV|]. exact (improve_greedy self s Hin T V policy Ei).
Qed.

(** The statement above in binary64, on [dither64] and its state ["s0"]:
    the greedy action on the table of zeros, where the lookaheads are [2]
    and [1.0000001], and the policy [value_iteration] returns. *)
Lemma greedy_action_first_maximum_witness :
  (exists best q pre post,
      best_action Examples.dither64
        (dict_fromkeys (states Examples.dither64) PrimFloat.zero) "s0"%string
      = Ok best
      /\ lookahead Examples.dither64
           (dict_fromkeys (states Examples.dither64) PrimFloat.zero)
           "s0"%string best = Ok q
      /\ actions Examples.dither64 = pre ++ best :: post
      /\ (forall a, In a pre ->
            exists qa,
              lookahead Examples.dither64
                (dict_fromkeys (states Examples.dither64) PrimFloat.zero)
                "s0"%string a = Ok qa
              /\ num_lt qa q = true)
      /\ (forall a, In a (actions Examples.dither64) ->
            exists qa,
              lookahead Examples.dither64
                (dict_fromkeys (states Examples.dither64) PrimFloat.zero)
                "s0"%string a = Ok qa
              /\ num_le qa q = true))
  /\ (exists V policy best,
      value_iteration Examples.dither64 10 Examples.theta_default64
      = Ok (V, policy)
      /\ best_action Examples.dither64 V "s0"%string = Ok best
      /\ dict_get "s0"%string policy = Some (Some best)).
Proof.
  destruct (greedy_action_first_maximum Examples.dither64)
    as (Wmax & Wvi & _).
  split.
  - run_of (best_action Examples.dither64
              (dict_fromkeys (states Examples.dither64) PrimFloat.zero)
              "s0"%string) ipattern:([best| |]) E.
    destruct (Wmax _ _ best E) as (q & _ & Hq & _ & _ & Hfirst).
    destruct Hfirst as (pre & post & Hsplit & Hpre & Hmax).
    { intros a qa Ha Hqa. cbn [actions Examples.dither64] in Ha.
      destruct Ha as [<-|[<-|[]]]; vm_compute in Hqa; injection Hqa as <-;
        reflexivity. }
    exists best, q, pre, post. split; [reflexivity|].
    split; [exact Hq|]. split; [exact Hsplit|]. split; assumption.
  - run_of (value_iteration Examples.dither64 10 Examples.theta_default64)
      ipattern:([[V policy]| |]) E.
    destruct (Wvi _ _ V policy "s0"%string E) as (best & Eb & Hp);
      [simpl; auto | reflexivity |].
    exists V, policy, best. split; [reflexivity|]. split; assumption.
Defined.

Section GreedyInBinary64.
Import PrimFloat.

(** C4 as stated fails in binary64.  On [overflow64], a model with
    probabilities that sum to [1], finite rewards and discount [0.9],
    [value_iteration] returns a table in which ["s1"] is worth [inf]; at
    ["s0"] the lookahead of ["a0"] is then NaN and that of ["a1"] is [5].
    [max] keeps the first action, since [nan < 5] is false: the policy
    stores ["a0"], whose lookahead is not the maximum ([5 <= nan] is
    false), and the same happens in the improvement step of
    [policy_iteration]. *)
Lemma greedy_action_prefers_nan :
  (exists policy,
      value_iteration Examples.overflow64 4 Examples.theta_default64
      = Ok (Examples.overflow_after, policy)
      /\ dict_get "s0"%string policy = Some (Some "a0"%string))
  /\ best_action Examples.overflow64 Examples.overflow_after "s0"%string
     = Ok "a0"%string
  /\ lookahead Examples.overflow64 Examples.overflow_after
       "s0"%string "a0"%string = Ok nan
  /\ lookahead Examples.overflow64 Examples.overflow_after
       "s0"%string "a1"%string = Ok 5%float
  /\ num_le 5%float nan = false
  /\ (exists V policy' stable,
      pi_round Examples.overflow64 4 Examples.theta_default64
        [("s0"%string, Some "a1"%string); ("s1"%string, Some "a0"%string);
         ("s2"%string, None)]
      = Ok (V, policy', stable)
      /\ dict_get "s0"%string policy' = Some (Some "a0"%string)
      /\ lookahead Examples.overflow64 V "s0"%string "a0"%string = Ok nan
      /\ lookahead Examples.overflow64 V "s0"%string "a1"%string
         = Ok 5%float).
Proof.
  split; [eexists; split; vm_compute; reflexivity|].
  repeat (split; [vm_compute; reflexivity|]).
  do 3 eexists. split; [vm_compute; reflexivity|].
  repeat split; vm_compute; reflexivity.
Qed.

End GreedyInBinary64.

(* ================================================================== *)
(** * Construction *)
(* ================================================================== *)

Section Construction.
Context {State Action N : Type}.
Context `{Hashable State} `{Hashable Action} `{Number N}.
Variable self : MDP State Action N.

(** A transition to a state that is not a key of the table makes the
    lookahead raise [KeyError]. *)
Lemma sum_terms_missing V s a acc (transitions : list (N * State)) t :
  In t transitions -> dict_get (snd t) V = None ->
  sum_terms self V s a acc transitions = Raise KeyError.
Proof.
  revert acc. induction transitions as [|[prob next_state] rest IH];
    intros acc Hin Hnone; [contradiction|]. simpl.
  unfold getitem at 1. destruct (dict_get s (R self)) as [Rs|]; [|reflexivity].
  simpl. unfold getitem at 1. destruct (dict_get a Rs) as [r|]; [|reflexivity].
  simpl. unfold getitem at 1.
  destruct (dict_get next_state V) as [v|] eqn:Ev; simpl.
  - destruct Hin as [<-|Hin]; [simpl in Hnone; congruence|].
    apply IH; assumption.
  - reflexivity.
Qed.

Lemma lookahead_missing V s a transitions t :
  dict_get2 s a (P self) = Some transitions ->
  In t transitions -> dict_get (snd t) V = None ->
  lookahead self V s a = Raise KeyError.
Proof.
  unfold dict_get2, lookahead. intros EP Hin Hnone.
  unfold getitem at 1. destruct (dict_get s (P self)) as [Ps|]; [|discriminate].
  simpl. unfold getitem at 1. rewrite EP. simpl.
  eapply sum_terms_missing; eauto.
Qed.

End Construction.

(** C1, as the code has it.  The constructor checks nothing: whatever the
    arguments, it returns the object that holds them as they are (an absent
    terminal set read as the empty one); in particular it never fails.  A
    kernel that names an unknown successor is met only later, when a
    lookahead reads that transition and raises [KeyError]. *)
Theorem MDP_init_accepts_everything
    {State Action N : Type}
    `{Hashable State} `{Hashable Action} `{Number N} :
  (forall (states0 : list State) (actions0 : list Action)
          (P0 : dict State (dict Action (list (N * State))))
          (R0 : dict State (dict Action N)) (gamma0 : N)
          (terminal0 : option (list State)),
      exists self,
        MDP_init states0 actions0 P0 R0 gamma0 terminal0 = Ok self
        /\ states self = states0 /\ actions self = actions0
        /\ P self = P0 /\ R self = R0 /\ gamma self = gamma0
        /\ terminal_states self
           = match terminal0 with Some ts => ts | None => [] end)
  /\ (forall (self : MDP State Action N) V s a transitions t,
      dict_get2 s a (P self) = Some transitions ->
      In t transitions -> dict_get (snd t) V = None ->
      lookahead self V s a = Raise KeyError).
Proof.
  split.
  - intros states0 actions0 P0 R0 gamma0 terminal0.
    eexists. split; [reflexivity|]. simpl. repeat split.
    destruct terminal0 as [[|t ts]|]; reflexivity.
  - intros self V s a transitions t EP Hin Hnone.
    eapply lookahead_missing; eauto.
Qed.

(** The statement above on the kernel that names the unknown state
    ["s9"]. *)
Lemma MDP_init_accepts_everything_witness :
  exists self,
    MDP_init ["s0"; "s1"; "s2"]%string ["a0"; "a1"]%string Examples.stray_P
             (R Examples.chain) (9 # 10)%Q (Some ["s2"%string]) = Ok self
    /\ lookahead self (dict_fromkeys (states self) 0%Q) "s0"%string "a0"%string
       = Raise KeyError.
Proof.
  destruct (@MDP_init_accepts_everything string string Q _ _ _) as [W1 W2].
  destruct (W1 ["s0"; "s1"; "s2"]%string ["a0"; "a1"]%string Examples.stray_P
               (R Examples.chain) (9 # 10)%Q (Some ["s2"%string]))
    as (self & E & Hs & _ & HP & _).
  exists self. split; [exact E|].
  apply (W2 self _ "s0"%string "a0"%string
            [((8 # 10)%Q, "s0"%string); ((2 # 10)%Q, "s9"%string)]
            ((2 # 10)%Q, "s9"%string)).
  - rewrite HP. reflexivity.
  - right; left; reflexivity.
  - rewrite Hs. reflexivity.
Defined.

(** C1 as stated fails.  A kernel whose probabilities at [("s0", "a0")] sum
    to [0.9] is constructed, and [value_iteration] returns a value function
    and a policy for it; a kernel that names the unknown state ["s9"] is
    constructed too, and the defect shows in the first sweep of
    [value_iteration], as a [KeyError]. *)
Lemma malformed_model_is_constructed :
  (spec_kernel_ok ["s0"; "s1"; "s2"]%string ["a0"; "a1"]%string
                  Examples.leaky_P = false
   /\ exists self V policy,
       MDP_init ["s0"; "s1"; "s2"]%string ["a0"; "a1"]%string Examples.leaky_P
                (R Examples.chain) (9 # 10)%Q (Some ["s2"%string]) = Ok self
       /\ value_iteration self 200 Examples.theta_default = Ok (V, policy))
  /\ (spec_kernel_ok ["s0"; "s1"; "s2"]%string ["a0"; "a1"]%string
                     Examples.stray_P = false
      /\ exists self,
          MDP_init ["s0"; "s1"; "s2"]%string ["a0"; "a1"]%string
                   Examples.stray_P (R Examples.chain) (9 # 10)%Q
                   (Some ["s2"%string]) = Ok self
          /\ vi_sweep self (dict_fromkeys (states self) 0%Q) = Raise KeyError
          /\ value_iteration self 200 Examples.theta_default = Raise KeyError).
Proof.
  split; (split; [vm_compute; reflexivity|]).
  - eexists. 
    run_of (value_iteration
              {| states := ["s0"; "s1"; "s2"]%string;
                 actions := ["a0"; "a1"]%string;
                 P := Examples.leaky_P; R := R Examples.chain;
                 gamma := (9 # 10)%Q; terminal_states := ["s2"%string] |}
              200 Examples.theta_default) ipattern:([[V policy]| |]) E.
    exists V, policy. split; [reflexivity | exact E].
  - eexists. split; [reflexivity|].
    split; vm_compute; reflexivity.
Qed.

(* ================================================================== *)
(** * Policy iteration: rounds and exit *)
(* ================================================================== *)

Section PolicyIteration.
Context {State Action N : Type}.
Context `{Hashable State} `{Hashable Action} `{Number N}.
Variable self : MDP State Action N.

(** The loop returns at the first round that finds the policy stable. *)
Lemma pi_loop_exit sweeps theta rounds policy V policy' :
  pi_loop self sweeps theta rounds policy = Ok (V, policy') <->
  exists k,
    k < rounds /\ pi_rounds self sweeps theta k policy = Ok (V, policy', true)
    /\ forall j, j < k ->
         exists Vj pj, pi_rounds self sweeps theta j policy = Ok (Vj, pj, false).
Proof.
  revert policy. induction rounds as [|rounds IH]; intros policy; simpl.
  - split; [discriminate | intros (k & Hk & _); lia].
  - split.
    + intros E. apply bind_Ok in E as ([[V1 p1] b1] & E1 & E).
      destruct b1.
      * inv_Ok E. exists 0. split; [lia|]. split; [exact E1|].
        intros j Hj; lia.
      * apply IH in E as (k & Hk & Ek & Hbefore).
        exists (S k). split; [lia|]. split; [simpl; rewrite E1; exact Ek|].
        intros [|j] Hj.
        -- exists V1, p1. exact E1.
        -- simpl. rewrite E1. simpl. apply Hbefore. lia.
    + intros (k & Hk & Ek & Hbefore). destruct k as [|k].
      * simpl in Ek. rewrite Ek. reflexivity.
      * simpl in Ek. apply bind_Ok in Ek as ([[V1 p1] b1] & E1 & Ek).
        rewrite E1. simpl.
        destruct (Hbefore 0) as (V0 & p0 & E0); [lia|].
        simpl in E0. rewrite E1 in E0. inv_Ok E0.
        apply IH. exists k. split; [lia|]. split; [exact Ek|].
        intros j Hj. destruct (Hbefore (S j)) as (Vj & pj & Ej); [lia|].
        simpl in Ej. rewrite E1 in Ej. simpl in Ej. eauto.
Qed.

(** During an improvement step every entry of the policy is the one the
    step started with or the greedy one, and the flag is lowered only at a
    state whose starting entry is not the greedy one. *)
Lemma improve_invariant V policy policy' stable :
  improve self V policy = Ok (policy', stable) ->
  (forall s, dict_get s policy' = dict_get s policy
             \/ exists best, best_action self V s = Ok best
                             /\ dict_get s policy' = Some (Some best))
  /\ (stable = true ->
      forall s, In s (states self) -> is_terminal self s = false ->
                dict_get s policy' = dict_get s policy)
  /\ (stable = false ->
      exists s best,
        In s (states self) /\ is_terminal self s = false
        /\ best_action self V s = Ok best
        /\ dict_get s policy <> Some (Some best)).
Proof.
  unfold improve. intros E.
  assert (Hinv :
    (fun st : dict State (option Action) * bool =>
       (forall s, dict_get s (fst st) = dict_get s policy
                  \/ exists best, best_action self V s = Ok best
                                  /\ dict_get s (fst st) = Some (Some best))
       /\ (snd st = true -> forall s, dict_get s (fst st) = dict_get s policy)
       /\ (snd st = false ->
           exists s best,
             In s (states self) /\ is_terminal self s = false
             /\ best_action self V s = Ok best
             /\ dict_get s policy <> Some (Some best))) (policy', stable)).
  { apply (foldM_invariant (improve_state self V)) with (3 := E).
    - intros [p b] s [p' b'] Hin (J & Kt & Kf) Es. simpl in *.
      unfold improve_state in Es. destruct (is_terminal self s) eqn:T.
      + inv_Ok Es. auto.
      + apply bind_Ok in Es as (old & Eo & Es).
        apply bind_Ok in Es as (best & Eb & Es). inv_Ok Es.
        apply getitem_Ok in Eo.
        assert (Hold : old = Some best \/
                       (old <> Some best
                        /\ dict_get s policy <> Some (Some best))).
        { destruct old as [old|].
          - destruct (key_eq_dec old best) as [->|Hne]; [left; reflexivity|].
            right. split; [congruence|].
            destruct (J s) as [Hs|(best' & Eb' & Hs)]; congruence.
          - right. split; [congruence|].
            destruct (J s) as [Hs|(best' & Eb' & Hs)]; congruence. }
        split; [|split].
        * intros s'. rewrite dict_get_set.
          destruct (key_eq_dec s s') as [<-|Hne]; [|apply J].
          right. exists best. split; [exact Eb | reflexivity].
        * intros Hb s'. rewrite dict_get_set.
          destruct (key_eq_dec s s') as [<-|Hne].
          -- destruct old as [old|]; [|discriminate].
             destruct (key_eq_dec old best) as [->|]; [|discriminate].
             rewrite <- (Kt Hb s). symmetry; exact Eo.
          -- destruct old as [old|]; [|discriminate].
             destruct (key_eq_dec old best); [|discriminate].
             apply Kt; exact Hb.
        * intros Hb. destruct Hold as [->|[Hne Hpol]].
          -- destruct (key_eq_dec best best); [|congruence].
             apply Kf; exact Hb.
          -- exists s, best. repeat split; assumption.
    - simpl. split; [|split]; auto. discriminate. }
  simpl in Hinv. destruct Hinv as (J & Kt & Kf).
  split; [exact J|]. split; [|exact Kf].
  intros Hb s _ _. apply Kt; exact Hb.
Qed.

(** Sweeps beyond the one at which an evaluation returns change nothing. *)
Lemma eval_loop_more_fuel policy theta fuel fuel' V r :
  eval_loop self policy theta fuel V = r -> r <> Timeout -> fuel <= fuel' ->
  eval_loop self policy theta fuel' V = r.
Proof.
  revert fuel' V. induction fuel as [|fuel IH]; intros fuel' V E Hr Hle;
    simpl in E; [congruence|].
  destruct fuel' as [|fuel']; [lia|]. simpl.
  destruct (eval_sweep self policy V) as [[V1 d1]| |]; simpl in *; auto.
  destruct (num_lt d1 theta); auto.
  apply IH; auto. lia.
Qed.

Lemma policy_evaluation_settled policy theta sweeps0 V0 sweeps :
  policy_evaluation self sweeps0 policy theta = Ok V0 ->
  policy_evaluation self sweeps policy theta = Ok V0
  \/ policy_evaluation self sweeps policy theta = Timeout.
Proof.
  unfold policy_evaluation. intros E0.
  destruct (le_lt_dec sweeps0 sweeps) as [Hle|Hlt].
  - left. eapply eval_loop_more_fuel; eauto. discriminate.
  - destruct (eval_loop self policy theta sweeps
                (dict_fromkeys (states self) num_zero)) as [V| |] eqn:E.
    + left. rewrite <- E0. symmetry.
      eapply eval_loop_more_fuel; eauto; [discriminate | lia].
    + exfalso.
      assert (E' : eval_loop self policy theta sweeps0
                     (dict_fromkeys (states self) num_zero) = Raise e).
      { eapply eval_loop_more_fuel; eauto; [discriminate | lia]. }
      congruence.
    + right; reflexivity.
Qed.

(** Two policies that the improvement step sends to each other keep the
    loop going for ever. *)
Lemma pi_loop_two_cycle theta p1 p2 n1 V1 n2 V2 :
  policy_evaluation self n1 p1 theta = Ok V1 ->
  improve self V1 p1 = Ok (p2, false) ->
  policy_evaluation self n2 p2 theta = Ok V2 ->
  improve self V2 p2 = Ok (p1, false) ->
  forall sweeps rounds,
    pi_loop self sweeps theta rounds p1 = Timeout
    /\ pi_loop self sweeps theta rounds p2 = Timeout.
Proof.
  intros E1 I1 E2 I2 sweeps rounds.
  induction rounds as [|rounds [IH1 IH2]]; simpl; [split; reflexivity|].
  unfold pi_round. split.
  - destruct (policy_evaluation_settled p1 theta n1 sweeps E1) as [->| ->];
      simpl; [|reflexivity].
    rewrite I1. simpl. exact IH2.
  - destruct (policy_evaluation_settled p2 theta n2 sweeps E2) as [->| ->];
      simpl; [|reflexivity].
    rewrite I2. simpl. exact IH1.
Qed.

End PolicyIteration.

(** On [dither] the improvement step sends each of the two policies to the
    other: evaluated exactly, stopping is worth [2] and staying then looks
    better ([2.0000001]); evaluated to within the threshold, staying is
    worth a little under [2] and stopping then looks better. *)
Lemma dither_two_cycle (sweeps rounds : nat) :
  pi_loop Examples.dither sweeps Examples.theta_default rounds
          Examples.stop_policy = Timeout
  /\ pi_loop Examples.dither sweeps Examples.theta_default rounds
             Examples.stay_policy = Timeout.
Proof.
  apply (pi_loop_two_cycle Examples.dither Examples.theta_default
           (p1 := Examples.stop_policy) (p2 := Examples.stay_policy)
           2 (V1 := Examples.stop_values) 21 (V2 := Examples.stay_values));
    vm_compute; reflexivity.
Qed.

(** The same in binary64 arithmetic. *)
Lemma dither64_two_cycle (sweeps rounds : nat) :
  pi_loop Examples.dither64 sweeps Examples.theta_default64 rounds
          Examples.stop_policy = Timeout
  /\ pi_loop Examples.dither64 sweeps Examples.theta_default64 rounds
             Examples.stay_policy = Timeout.
Proof.
  apply (pi_loop_two_cycle Examples.dither64 Examples.theta_default64
           (p1 := Examples.stop_policy) (p2 := Examples.stay_policy)
           2 (V1 := Examples.stop_values64) 21 (V2 := Examples.stay_values64));
    vm_compute; reflexivity.
Qed.

Lemma dither_init_policy {N G : Type} `{Number N} `{RandomSource G N}
    (m : MDP string string N) (g : G) :
  states m = states Examples.dither ->
  actions m = actions Examples.dither ->
  terminal_states m = terminal_states Examples.dither ->
  exists g',
    init_policy m g = Ok (Examples.stop_policy, g')
    \/ init_policy m g = Ok (Examples.stay_policy, g').
Proof.
  intros Hs Ha Ht.
  unfold init_policy, init_state, is_terminal. rewrite Hs, Ha, Ht.
  cbn -[Nat.modulo rng_randbelow]. unfold choice.
  cbn -[Nat.modulo rng_randbelow].
  destruct (rng_randbelow 2 g) as [i g']. cbn -[Nat.modulo].
  exists g'.
  assert (Hi : i mod 2 = 0 \/ i mod 2 = 1)
    by (pose proof (Nat.mod_upper_bound i 2); lia).
  destruct Hi as [-> | ->]; [left | right]; reflexivity.
Qed.

(** C7 as stated fails.  [dither] is a valid model (probabilities sum to
    [1], successors are known states) with discount [1/2], and on it
    [policy_iteration] with the default threshold returns for no random
    source and no number of rounds and sweeps: the loop is still running
    whatever fuel it is given. *)
Lemma policy_iteration_never_returns :
  spec_kernel_ok (states Examples.dither) (actions Examples.dither)
                 (P Examples.dither) = true
  /\ (0 <= gamma Examples.dither < 1)%Q
  /\ forall (G : Type) (RS : RandomSource G Q) (g : G) (sweeps rounds : nat),
      policy_iteration Examples.dither sweeps rounds Examples.theta_default g
      = Timeout.
Proof.
  split; [vm_compute; reflexivity|].
  split; [split; [discriminate | reflexivity]|].
  intros G RS g sweeps rounds. unfold policy_iteration.
  destruct (dither_init_policy Examples.dither g eq_refl eq_refl eq_refl)
    as (g' & [-> | ->]); simpl.
  - rewrite (proj1 (dither_two_cycle sweeps rounds)). reflexivity.
  - rewrite (proj2 (dither_two_cycle sweeps rounds)). reflexivity.
Qed.

(** The same run in binary64 arithmetic never returns either. *)
Lemma policy_iteration_never_returns_binary64 :
  forall (G : Type) (RS : RandomSource G PrimFloat.float) (g : G)
         (sweeps rounds : nat),
    policy_iteration Examples.dither64 sweeps rounds Examples.theta_default64 g
    = Timeout.
Proof.
  intros G RS g sweeps rounds. unfold policy_iteration.
  destruct (dither_init_policy Examples.dither64 g eq_refl eq_refl eq_refl)
    as (g' & [-> | ->]); simpl.
  - rewrite (proj1 (dither64_two_cycle sweeps rounds)). reflexivity.
  - rewrite (proj2 (dither64_two_cycle sweeps rounds)). reflexivity.
Qed.

(** C7, as the code has it.  [policy_iteration] draws an initial policy
    and returns exactly at the first round whose improvement step finds
    the policy stable, with the value function and the policy of that
    round; the step finds the policy stable exactly when it changes the
    action of no non-terminal state.  Such a round need not come. *)
Theorem policy_iteration_exits_when_stable
    {State Action N G : Type}
    `{Hashable State} `{Hashable Action} `{Number N} `{RandomSource G N}
    (self : MDP State Action N) :
  (forall sweeps theta rounds policy V policy',
      pi_loop self sweeps theta rounds policy = Ok (V, policy') <->
      exists k,
        k < rounds
        /\ pi_rounds self sweeps theta k policy = Ok (V, policy', true)
        /\ forall j, j < k ->
             exists Vj pj,
               pi_rounds self sweeps theta j policy = Ok (Vj, pj, false))
  /\ (forall V policy policy' stable,
      improve self V policy = Ok (policy', stable) ->
      (stable = true ->
       forall s, In s (states self) -> is_terminal self s = false ->
                 dict_get s policy' = dict_get s policy)
      /\ (stable = false ->
          exists s, In s (states self) /\ is_terminal self s = false
                    /\ dict_get s policy' <> dict_get s policy))
  /\ (forall sweeps rounds theta (g g' : G) V policy,
      policy_iteration self sweeps rounds theta g = Ok (V, policy, g') ->
      exists policy0,
        init_policy self g = Ok (policy0, g')
        /\ pi_loop self sweeps theta rounds policy0 = Ok (V, policy)).
Proof.
  split; [|split].
  - intros. apply pi_loop_exit.
  - intros V policy policy' stable E.
    destruct (improve_invariant self V policy E) as (_ & Kt & Kf).
    split; [exact Kt|].
    intros Hb. destruct (Kf Hb) as (s & best & Hin & T & Eb & Hne).
    exists s. split; [exact Hin|]. split; [exact T|].
    destruct (improve_greedy self s Hin T V policy E) as (best' & Eb' & Hp).
    rewrite Hp. congruence.
  - intros sweeps rounds theta g g' V policy E. unfold policy_iteration in E.
    apply bind_Ok in E as ([p0 g0] & E0 & E).
    apply bind_Ok in E as ([V1 p1] & E1 & E). inv_Ok E.
    exists p0. split; assumption.
Qed.

(** The statement above on the chain of [main()], where a stable round
    comes. *)
Lemma policy_iteration_exits_when_stable_witness :
  exists V policy g' k,
    policy_iteration Examples.chain 200 10 Examples.theta_default
      (Examples.silent (N := Q)) = Ok (V, policy, g')
    /\ k < 10
    /\ exists policy0,
        pi_rounds Examples.chain 200 Examples.theta_default k policy0
        = Ok (V, policy, true).
Proof.
  destruct (policy_iteration_exits_when_stable (G := tape Q) Examples.chain)
    as (Wexit & _ & Wrun).
  run_of (policy_iteration Examples.chain 200 10 Examples.theta_default
            (Examples.silent (N := Q))) ipattern:([[[V policy] g']| |]) E.
  destruct (Wrun _ _ _ _ _ _ _ E) as (policy0 & _ & Eloop).
  apply Wexit in Eloop as (k & Hk & Ek & _).
  exists V, policy, g', k. split; [reflexivity|]. split; [exact Hk|].
  exists policy0. exact Ek.
Defined.

(* ================================================================== *)
(** * Policy iteration on exact numbers: how far a round can fall back *)
(* ================================================================== *)

Section RationalSums.
Open Scope Q_scope.

Lemma Q_add_eq (a b : Q) : num_add a b == a + b.
Proof. exact (Qred_correct (a + b)). Qed.

Lemma Q_sub_eq (a b : Q) : num_sub a b == a - b.
Proof. exact (Qred_correct (a - b)). Qed.

Lemma Q_mul_eq (a b : Q) : num_mul a b == a * b.
Proof. exact (Qred_correct (a * b)). Qed.

Lemma Q_max2_bounds (a b : Q) : a <= max2 a b /\ b <= max2 a b.
Proof.
  destruct (max2_spec a b) as (_ & Ha & Hb).
  apply Q_num_lt_false_iff in Ha, Hb. split; assumption.
Qed.

Lemma Q_mul_le_l (c a b : Q) : 0 <= c -> a <= b -> c * a <= c * b.
Proof.
  intros Hc Hab. rewrite (Qmult_comm c a), (Qmult_comm c b).
  apply Qmult_le_compat_r; assumption.
Qed.

Lemma fold_left_add_qsum (l : list Q) (acc : Q) :
  fold_left num_add l acc == acc + qsum l.
Proof.
  revert acc. induction l as [|x l IH]; intros acc; simpl fold_left.
  - simpl. ring.
  - rewrite IH. change (qsum (x :: l)) with (x + qsum l).
    transitivity ((acc + x) + qsum l); [|ring].
    apply Qplus_comp; [exact (Qred_correct (acc + x)) | reflexivity].
Qed.

Lemma sum_of_qsum (l : list Q) : sum_of l == qsum l.
Proof. unfold sum_of. rewrite fold_left_add_qsum. simpl. ring. Qed.

Context {State : Type}.

Lemma expected_return_backup gamma0 r (V : State -> Q) tr :
  expected_return gamma0 r V tr == backup gamma0 r V tr.
Proof.
  unfold expected_return, backup. rewrite sum_of_qsum.
  induction tr as [|[p s'] tr IH]; [reflexivity|].
  cbn [map qsum fold_right fst snd]. rewrite IH.
  apply Qplus_comp; [|reflexivity].
  rewrite Q_mul_eq, Q_add_eq, Q_mul_eq. reflexivity.
Qed.

(** The backup is affine in the value function. *)
Lemma backup_diff gamma0 r (A B : State -> Q) tr :
  backup gamma0 r A tr
  == backup gamma0 r B tr
     + gamma0 * qsum (map (fun t => fst t * (A (snd t) - B (snd t))) tr).
Proof.
  unfold backup. induction tr as [|[p s'] tr IH]; simpl; [ring|].
  rewrite IH. ring.
Qed.

(** A weighted sum of terms below [M], with non-negative weights. *)
Lemma weighted_sum_le (D : State -> Q) (M : Q) tr :
  (forall t, In t tr -> 0 <= fst t /\ D (snd t) <= M) ->
  qsum (map (fun t => fst t * D (snd t)) tr) <= M * qsum (map fst tr).
Proof.
  induction tr as [|[p s'] tr IH]; intros Hall; simpl.
  - lra.
  - destruct (Hall (p, s')) as [Hp HD]; [left; reflexivity|]. simpl in Hp, HD.
    assert (IH' : qsum (map (fun t => fst t * D (snd t)) tr)
                  <= M * qsum (map fst tr))
      by (apply IH; intros t Ht; apply Hall; right; exact Ht).
    assert (Hmul : D s' * p <= M * p)
      by (apply Qmult_le_compat_r; assumption).
    lra.
Qed.

End RationalSums.

Section EvaluationSweep.
Context {State Action : Type} `{Hashable State} `{Hashable Action}.
Variable self : MDP State Action Q.
Variable policy : dict State (option Action).
Open Scope Q_scope.

Lemma value_at_set (V : dict State Q) (y x : State) (v : Q) :
  value_at (dict_set y v V) x = if key_eq_dec y x then v else value_at V x.
Proof.
  unfold value_at. rewrite dict_get_set. destruct (key_eq_dec y x); reflexivity.
Qed.

Lemma eval_state_nonterminal V delta s V' delta' :
  is_terminal self s = false ->
  eval_state self policy (V, delta) s = Ok (V', delta') ->
  exists a v old,
    dict_get s policy = Some (Some a) /\ lookahead self V s a = Ok v
    /\ dict_get s V = Some old /\ V' = dict_set s v V
    /\ delta' = max2 delta (Qabs (num_sub old v)).
Proof.
  unfold eval_state. intros -> E.
  apply bind_Ok in E as (a & Ea & E). apply bind_Ok in E as (v & Ev & E).
  apply bind_Ok in E as (old & Eold & E). inv_Ok E.
  apply getitem_Ok in Ea, Eold. destruct a as [a|].
  - exists a, v, old. repeat split; auto.
  - apply bind_Ok in Ev as (? & _ & Ev). discriminate.
Qed.

(** The evaluation loop returns the table of a sweep whose [delta] is
    below the threshold. *)
Lemma eval_loop_last_sweep theta fuel V0 V :
  eval_loop self policy theta fuel V0 = Ok V ->
  exists V1 delta,
    eval_sweep self policy V1 = Ok (V, delta) /\ num_lt delta theta = true.
Proof.
  revert V0. induction fuel as [|fuel IH]; intros V0; cbn [eval_loop];
    [discriminate|].
  intros E. apply bind_Ok in E as ([Va da] & Es & E).
  destruct (num_lt da theta) eqn:Hd.
  - inv_Ok E. exists V0, da. split; assumption.
  - eapply IH; exact E.
Qed.

(** A sweep in place over distinct states: [delta] only grows; a state
    outside the sweep keeps its value; every value moves by at most the
    final [delta]; and the value left at a visited non-terminal state is the
    lookahead, for the action of the policy, on a table [W] that agrees at
    each state with the table before or with the table after the sweep. *)
Lemma eval_fold_inv (l : list State) :
  forall Vc dc V delta,
    NoDup l ->
    foldM (eval_state self policy) l (Vc, dc) = Ok (V, delta) ->
    dc <= delta
    /\ (forall x, ~ In x l -> value_at V x = value_at Vc x)
    /\ (forall x, value_at V x = value_at Vc x
                  \/ Qabs (value_at V x - value_at Vc x) <= delta)
    /\ (forall x, In x l -> is_terminal self x = false ->
          exists a W,
            dict_get x policy = Some (Some a)
            /\ lookahead self W x a = Ok (value_at V x)
            /\ forall s', value_at W s' = value_at V s'
                          \/ value_at W s' = value_at Vc s').
Proof.
  induction l as [|y l IH]; intros Vc dc V delta Hnd E.
  - cbn [foldM] in E. inv_Ok E. split; [apply Qle_refl|].
    split; [reflexivity|]. split; [left; reflexivity|]. intros x [].
  - cbn [foldM] in E. apply bind_Ok in E as ([V1 d1] & Ey & E).
    inversion Hnd as [|? ? Hy Hnd']; subst.
    destruct (IH V1 d1 V delta Hnd' E) as (Hd & Hout & Hmove & Hres).
    destruct (is_terminal self y) eqn:T.
    + unfold eval_state in Ey. rewrite T in Ey. inv_Ok Ey.
      split; [exact Hd|]. split; [|split; [exact Hmove|]].
      * intros x Hx. apply Hout. intros Hc. apply Hx. right; exact Hc.
      * intros x [<-|Hx] Tx; [congruence|]. apply Hres; assumption.
    + destruct (eval_state_nonterminal Vc dc y T Ey)
        as (a & v & old & Ea & Ev & Eold & -> & ->).
      destruct (Q_max2_bounds dc (Qabs (num_sub old v))) as [Hdc Hchg].
      assert (HVy : value_at V y = v).
      { rewrite (Hout y Hy), value_at_set.
        destruct (key_eq_dec y y); congruence. }
      assert (Hother : forall x, x <> y ->
                value_at (dict_set y v Vc) x = value_at Vc x).
      { intros x Hx. rewrite value_at_set.
        destruct (key_eq_dec y x); congruence. }
      split; [eapply Qle_trans; eauto|]. split; [|split].
      * intros x Hx. rewrite Hout by (intros Hc; apply Hx; right; exact Hc).
        apply Hother. intros ->. apply Hx. left; reflexivity.
      * intros x. destruct (key_eq_dec x y) as [->|Hx].
        -- right. rewrite HVy. unfold value_at. rewrite Eold.
           eapply Qle_trans; [|exact Hd]. eapply Qle_trans; [|exact Hchg].
           rewrite Qabs_Qminus.
           rewrite (Qabs_wd _ _ (Q_sub_eq old v)). apply Qle_refl.
        -- rewrite <- (Hother x Hx). apply Hmove.
      * intros x [<-|Hx] Tx.
        -- exists a, Vc. split; [exact Ea|]. split; [congruence|].
           intros s'. right; reflexivity.
        -- destruct (Hres x Hx Tx) as (a' & W & Ea' & Ew & Hw).
           exists a', W. split; [exact Ea'|]. split; [exact Ew|].
           intros s'. destruct (key_eq_dec s' y) as [->|Hs'].
           ++ destruct (Hw y) as [Hl|Hr]; [left; exact Hl|].
              left. rewrite Hr, HVy, value_at_set.
              destruct (key_eq_dec y y); congruence.
           ++ destruct (Hw s') as [Hl|Hr]; [left; exact Hl|].
              right. rewrite Hr. apply Hother; exact Hs'.
Qed.

End EvaluationSweep.

Section NearMonotone.
Context {State Action : Type} `{Hashable State} `{Hashable Action}.
Variable self : MDP State Action Q.
Open Scope Q_scope.

Lemma list_argmax (f : State -> Q) (l : list State) :
  l <> [] -> exists m, In m l /\ forall x, In x l -> f x <= f m.
Proof.
  induction l as [|y l IH]; [congruence|]. intros _.
  destruct l as [|z l].
  - exists y. split; [left; reflexivity|].
    intros x [<-|[]]. apply Qle_refl.
  - destruct IH as (m & Hm & Hmax); [discriminate|].
    destruct (Qlt_le_dec (f m) (f y)) as [Hlt|Hle].
    + exists y. split; [left; reflexivity|].
      intros x [<-|Hx]; [apply Qle_refl|].
      apply Qle_trans with (f m); [apply Hmax; exact Hx | apply Qlt_le_weak, Hlt].
    + exists m. split; [right; exact Hm|].
      intros x [<-|Hx]; [exact Hle | apply Hmax; exact Hx].
Qed.

Lemma lookahead_backup V s a q :
  lookahead self V s a = Ok q ->
  exists tr,
    dict_get2 s a (P self) = Some tr
    /\ q == backup (gamma self) (reward_at self s a) (value_at V) tr.
Proof.
  intros E. destruct (lookahead_expected self V s a E)
    as (Ps & tr & EPs & Etr & _ & ->).
  exists tr. split; [unfold dict_get2; rewrite EPs; exact Etr|].
  apply expected_return_backup.
Qed.

(** What [policy_evaluation] returns satisfies the Bellman equation of the
    policy to within [gamma * theta], and [theta] is positive. *)
Lemma policy_evaluation_residual sweeps policy theta V :
  NoDup (states self) -> 0 <= gamma self -> kernel_valid self ->
  policy_evaluation self sweeps policy theta = Ok V ->
  0 < theta
  /\ forall x, In x (states self) -> is_terminal self x = false ->
       exists a tr,
         dict_get x policy = Some (Some a)
         /\ dict_get2 x a (P self) = Some tr
         /\ (In a (actions self) ->
             backup (gamma self) (reward_at self x a) (value_at V) tr
               - gamma self * theta <= value_at V x
             /\ value_at V x
                <= backup (gamma self) (reward_at self x a) (value_at V) tr
                   + gamma self * theta).
Proof.
  intros Hnd Hg Hk E. unfold policy_evaluation in E.
  apply eval_loop_last_sweep in E as (V1 & delta & Es & Hlt).
  apply Q_num_lt_iff in Hlt. unfold eval_sweep in Es.
  destruct (@eval_fold_inv State Action _ _ self policy (states self)
              V1 0 V delta Hnd Es) as (Hd & _ & Hmove & Hres).
  split; [eapply Qle_lt_trans; eauto|].
  intros x Hx Tx. destruct (Hres x Hx Tx) as (a & W & Ea & Ew & Hw).
  destruct (lookahead_backup W x a Ew) as (tr & Etr & Hq).
  exists a, tr. split; [exact Ea|]. split; [exact Etr|]. intros Ha.
  destruct (Hk x a tr Hx Tx Ha Etr) as [Htr Hsum].
  assert (Hnear : forall s', value_at W s' - value_at V s' <= delta
                             /\ value_at V s' - value_at W s' <= delta).
  { intros s'. destruct (Hw s') as [-> | ->]; [split; lra|].
    destruct (Hmove s') as [-> | Habs]; [split; lra|].
    apply Qabs_Qle_condition in Habs. split; lra. }
  pose proof (backup_diff (gamma self) (reward_at self x a)
                (value_at W) (value_at V) tr) as HWV.
  pose proof (backup_diff (gamma self) (reward_at self x a)
                (value_at V) (value_at W) tr) as HVW.
  assert (S1 : qsum (map (fun t => fst t * (value_at W (snd t)
                                            - value_at V (snd t))) tr)
               <= delta * qsum (map fst tr)).
  { apply (weighted_sum_le (fun s' => value_at W s' - value_at V s')).
    intros t Ht. split; [apply Htr; exact Ht | apply Hnear]. }
  assert (S2 : qsum (map (fun t => fst t * (value_at V (snd t)
                                            - value_at W (snd t))) tr)
               <= delta * qsum (map fst tr)).
  { apply (weighted_sum_le (fun s' => value_at V s' - value_at W s')).
    intros t Ht. split; [apply Htr; exact Ht | apply Hnear]. }
  rewrite Hsum in S1, S2.
  set (B := backup (gamma self) (reward_at self x a) (value_at V) tr) in *.
  set (BW := backup (gamma self) (reward_at self x a) (value_at W) tr) in *.
  set (s1 := qsum (map (fun t => fst t * (value_at W (snd t)
                                          - value_at V (snd t))) tr)) in *.
  set (s2 := qsum (map (fun t => fst t * (value_at V (snd t)
                                          - value_at W (snd t))) tr)) in *.
  assert (G1 : gamma self * s1 <= gamma self * delta)
    by (apply Q_mul_le_l; lra).
  assert (G2 : gamma self * s2 <= gamma self * delta)
    by (apply Q_mul_le_l; lra).
  assert (G3 : gamma self * delta <= gamma self * theta)
    by (apply Q_mul_le_l; lra).
  split; lra.
Qed.

End NearMonotone.

(** C8, as the code has it.  On exact numbers, for a model with distinct
    states, a valid kernel and a discount in [[0, 1)], and a policy whose
    actions are actions of the model: if one round of [policy_iteration]
    evaluates the policy to [V] and improves it, and the next round
    evaluates the improved policy to [V'], then at every state of the model
    [V'] is at least [V - 2 * gamma * theta / (1 - gamma)].  The margin is
    the price of evaluating each policy only to within [theta]. *)
Theorem policy_iteration_near_monotone
    {State Action : Type} `{Hashable State} `{Hashable Action}
    (self : MDP State Action Q) (theta : Q) (sweeps sweeps' : nat)
    (policy policy' policy'' : dict State (option Action))
    (V V' : dict State Q) (stable stable' : bool) :
  NoDup (states self) ->
  kernel_valid self ->
  (0 <= gamma self < 1)%Q ->
  policy_valid self policy ->
  pi_round self sweeps theta policy = Ok (V, policy', stable) ->
  pi_round self sweeps' theta policy' = Ok (V', policy'', stable') ->
  forall s, In s (states self) ->
    ((1 - gamma self) * (value_at V s - value_at V' s)
     <= 2 * gamma self * theta)%Q.
Proof.
  intros Hnd Hk [Hg0 Hg1] Hpol E1 E2 s Hs.
  unfold pi_round in E1, E2.
  apply bind_Ok in E1 as (V0 & EV & E1).
  apply bind_Ok in E1 as ([p1 b1] & Eimp & E1). inv_Ok E1.
  apply bind_Ok in E2 as (V0 & EV' & E2).
  apply bind_Ok in E2 as ([p2 b2] & _ & E2). inv_Ok E2.
  destruct (policy_evaluation_residual sweeps policy theta Hnd Hg0 Hk EV)
    as [Hth HresV].
  destruct (policy_evaluation_residual sweeps' policy' theta Hnd Hg0 Hk EV')
    as [_ HresV'].
  set (D := fun x => (value_at V x - value_at V' x)%Q).
  destruct (@list_argmax State D (states self)) as (m & Hm & Hmax);
    [intros Hnil; rewrite Hnil in Hs; exact Hs|].
  assert (Hgth : (0 <= gamma self * theta)%Q)
    by (apply Qmult_le_0_compat; lra).
  assert (HM : ((1 - gamma self) * D m <= 2 * gamma self * theta)%Q).
  { destruct (is_terminal self m) eqn:Tm.
    - assert (Dm : D m = (0 - 0)%Q).
      { unfold D, value_at.
        rewrite (policy_evaluation_terminal self m Tm sweeps policy theta Hm EV).
        rewrite (policy_evaluation_terminal self m Tm sweeps' policy' theta
                   Hm EV').
        reflexivity. }
      rewrite Dm. lra.
    - destruct (HresV m Hm Tm) as (a & tra & Ea & Etra & Hra).
      destruct (Hra (Hpol m a Ea)) as [_ HupV].
      destruct (improve_greedy self m Hm Tm V policy Eimp) as (b & Eb & Epb).
      destruct (best_action_spec self V m Eb)
        as (pre & post & q & Hsplit & Hq & _ & Hall).
      assert (Hb : In b (actions self)) by (rewrite Hsplit; apply in_elt).
      destruct (Hall a (Hpol m a Ea)) as (qa & Hqa & Hle).
      apply Q_num_lt_false_iff in Hle.
      destruct (lookahead_backup self V m a Hqa) as (tra' & Etra' & Hqa').
      assert (tra' = tra) by congruence. subst tra'.
      destruct (lookahead_backup self V m b Hq) as (trb & Etrb & Hq').
      destruct (HresV' m Hm Tm) as (b' & trb' & Eb' & Etrb' & Hrb).
      assert (b' = b) by congruence. subst b'.
      assert (trb' = trb) by congruence. subst trb'.
      destruct (Hrb Hb) as [HloV' _].
      destruct (Hk m b trb Hm Tm Hb Etrb) as [Htrb Hsum].
      pose proof (backup_diff (gamma self) (reward_at self m b)
                    (value_at V) (value_at V') trb) as Hdiff.
      assert (Hws : (qsum (map (fun t => (fst t * D (snd t))%Q) trb)
                     <= D m * qsum (map fst trb))%Q).
      { apply (weighted_sum_le D). intros t Ht.
        destruct (Htrb t Ht) as [Hp Hin]. split; [exact Hp | apply Hmax, Hin]. }
      rewrite Hsum in Hws.
      assert (Hgs : (gamma self
                     * qsum (map (fun t => (fst t * D (snd t))%Q) trb)
                     <= gamma self * (D m * 1))%Q)
        by (apply Q_mul_le_l; assumption).
      unfold D in *. lra. }
  assert (HDs : ((1 - gamma self) * D s <= (1 - gamma self) * D m)%Q)
    by (apply Q_mul_le_l; [lra | apply Hmax, Hs]).
  unfold D in *. lra.
Qed.

(** [dither] meets the hypotheses of the statement above. *)
Lemma dither_states_distinct : NoDup (states Examples.dither).
Proof.
  simpl. repeat constructor; simpl; intuition discriminate.
Qed.

Lemma dither_kernel_valid : kernel_valid Examples.dither.
Proof.
  intros s a tr Hs _ Ha E. simpl in Hs, Ha.
  destruct Hs as [<-|[<-|[]]]; destruct Ha as [<-|[<-|[]]];
    cbv in E; inv_Ok E; (split; [|reflexivity]);
    intros t [<-|[]]; (split; [discriminate | simpl; auto]).
Qed.

Lemma dither_stop_policy_valid : policy_valid Examples.dither Examples.stop_policy.
Proof.
  intros s a E. unfold Examples.stop_policy in E. simpl in E.
  repeat match type of E with
         | context [if ?c then _ else _] => destruct c
         end; inv_Ok E. simpl; auto.
Qed.

(** The statement above on [dither]: from the round that evaluates
    stopping to the round that evaluates staying, the value of ["s0"]
    falls, by less than the margin. *)
Lemma policy_iteration_near_monotone_witness :
  ((1 - gamma Examples.dither)
   * (value_at Examples.stop_values "s0"%string
      - value_at Examples.stay_values "s0"%string)
   <= 2 * gamma Examples.dither * Examples.theta_default)%Q.
Proof.
  apply (@policy_iteration_near_monotone string string _ _ Examples.dither
           Examples.theta_default 30 30
           Examples.stop_policy Examples.stay_policy Examples.stop_policy
           Examples.stop_values Examples.stay_values false false
           dither_states_distinct dither_kernel_valid).
  - split; [discriminate | reflexivity].
  - exact dither_stop_policy_valid.
  - vm_compute; reflexivity.
  - vm_compute; reflexivity.
  - simpl; auto.
Defined.

(** C8 as stated fails.  On the valid model [dither] (discount [1/2]) a
    run of [policy_iteration] with the default threshold can start from
    the stopping policy; its first round evaluates ["s0"] to [2] and
    switches to staying, and its second round evaluates ["s0"] to
    [2.0000002 * (1 - 2^-21)], which is smaller. *)
Lemma policy_iteration_value_falls_back :
  spec_kernel_ok (states Examples.dither) (actions Examples.dither)
                 (P Examples.dither) = true
  /\ (0 <= gamma Examples.dither < 1)%Q
  /\ init_policy Examples.dither (Examples.silent (N := Q))
     = Ok (Examples.stop_policy, Examples.silent)
  /\ pi_rounds Examples.dither 30 Examples.theta_default 0 Examples.stop_policy
     = Ok (Examples.stop_values, Examples.stay_policy, false)
  /\ pi_rounds Examples.dither 30 Examples.theta_default 1 Examples.stop_policy
     = Ok (Examples.stay_values, Examples.stop_policy, false)
  /\ (value_at Examples.stay_values "s0"%string
      < value_at Examples.stop_values "s0"%string)%Q.
Proof.
  split; [vm_compute; reflexivity|].
  split; [split; [discriminate | reflexivity]|].
  split; [vm_compute; reflexivity|].
  split; [vm_compute; reflexivity|].
  split; [vm_compute; reflexivity|].
  reflexivity.
Qed.

(** The same two rounds in binary64 arithmetic. *)
Lemma policy_iteration_value_falls_back_binary64 :
  pi_rounds Examples.dither64 30 Examples.theta_default64 0 Examples.stop_policy
  = Ok (Examples.stop_values64, Examples.stay_policy, false)
  /\ pi_rounds Examples.dither64 30 Examples.theta_default64 1
               Examples.stop_policy
     = Ok (Examples.stay_values64, Examples.stop_policy, false)
  /\ num_lt (value_at Examples.stay_values64 "s0"%string)
            (value_at Examples.stop_values64 "s0"%string) = true.
Proof.
  split; [vm_compute; reflexivity|].
  split; vm_compute; reflexivity.
Qed.

(* ================================================================== *)
(** * Further properties: errors and edge cases of the planners *)
(* ================================================================== *)

Section PlannerErrors.
Context {State Action N G : Type}.
Context `{Hashable State} `{Hashable Action} `{Number N} `{RandomSource G N}.
Variable self : MDP State Action N.

Lemma getitem_key_errors_only {K V : Type} `{Hashable K} (k : K) (d : dict K V) :
  key_errors_only (getitem k d).
Proof. unfold getitem. destruct (dict_get k d); simpl; auto. Qed.

Lemma bind_key_errors_only {A B : Type} (r : result A) (k : A -> result B) :
  key_errors_only r -> (forall a, key_errors_only (k a)) ->
  key_errors_only (bind r k).
Proof. destruct r; simpl; intros Hr Hk; auto. Qed.

Lemma foldM_key_errors_only {A B : Type} (f : A -> B -> result A) l a :
  (forall a b, key_errors_only (f a b)) -> key_errors_only (foldM f l a).
Proof.
  intros Hf. revert a. induction l as [|b l IH]; intros a; simpl; auto.
  apply bind_key_errors_only; auto.
Qed.

Lemma sum_terms_key_errors_only V s a acc transitions :
  key_errors_only (sum_terms self V s a acc transitions).
Proof.
  revert acc. induction transitions as [|[p s'] rest IH]; intros acc; simpl; auto.
  repeat (apply bind_key_errors_only;
          [apply getitem_key_errors_only | intros ?]).
  apply IH.
Qed.

Lemma lookahead_key_errors_only V s a :
  key_errors_only (lookahead self V s a).
Proof.
  unfold lookahead.
  repeat (apply bind_key_errors_only;
          [apply getitem_key_errors_only | intros ?]).
  apply sum_terms_key_errors_only.
Qed.

Lemma eval_state_key_errors_only policy st s :
  key_errors_only (eval_state self policy st s).
Proof.
  unfold eval_state. destruct st as [V delta].
  destruct (is_terminal self s); simpl; auto.
  apply bind_key_errors_only; [apply getitem_key_errors_only | intros a].
  apply bind_key_errors_only.
  - destruct a as [a|]; [apply lookahead_key_errors_only|].
    apply bind_key_errors_only; [apply getitem_key_errors_only | intros ?].
    simpl; auto.
  - intros v.
    apply bind_key_errors_only; [apply getitem_key_errors_only | intros ?].
    simpl; auto.
Qed.

(** A loop body that leaves its state alone on every item of [l]. *)
Lemma foldM_skip {A B : Type} (f : A -> B -> result A) (l : list B) (a : A) :
  (forall b, In b l -> f a b = Ok a) -> foldM f l a = Ok a.
Proof.
  induction l as [|b l IH]; intros Hskip; simpl; [reflexivity|].
  rewrite Hskip by (left; reflexivity). simpl.
  apply IH. intros b' Hb'. apply Hskip. right; exact Hb'.
Qed.

(** The first non-terminal state of a list that has one. *)
Lemma first_nonterminal (l : list State) :
  (exists s, In s l /\ is_terminal self s = false) ->
  exists l1 s l2,
    l = l1 ++ s :: l2 /\ is_terminal self s = false
    /\ forall x, In x l1 -> is_terminal self x = true.
Proof.
  induction l as [|y l IH]; intros (s & Hin & T); [contradiction|].
  destruct (is_terminal self y) eqn:Ty.
  - destruct IH as (l1 & s1 & l2 & -> & T1 & Hl1).
    + destruct Hin as [->|Hin]; [congruence|]. exists s. split; assumption.
    + exists (y :: l1), s1, l2. split; [reflexivity|]. split; [exact T1|].
      intros x [<-|Hx]; [exact Ty | apply Hl1; exact Hx].
  - exists [], y, l. split; [reflexivity|]. split; [exact Ty|]. intros x [].
Qed.

End PlannerErrors.

(** X1.  On operands whose arithmetic does not raise ([float],
    [Fraction]), [policy_evaluation] raises [KeyError] in its first sweep
    when, at some non-terminal state of the model, the policy has no
    entry, has the entry [None], or names an action for which the state
    has no transition list: whatever the states visited before it did, the
    sweep does not get past that state. *)
Theorem policy_evaluation_incomplete_policy
    {State Action N : Type} `{Hashable State} `{Hashable Action} `{Number N}
    (self : MDP State Action N) (policy : dict State (option Action))
    (theta : N) (sweeps : nat) (s : State) :
  In s (states self) -> is_terminal self s = false ->
  match dict_get s policy with
  | Some (Some a) => dict_get2 s a (P self) = None
  | _ => True
  end ->
  1 <= sweeps ->
  policy_evaluation self sweeps policy theta = Raise KeyError.
Proof.
  intros Hin T Hbad Hsweeps.
  destruct sweeps as [|n]; [lia|].
  unfold policy_evaluation. cbn [eval_loop]. unfold eval_sweep.
  apply in_split in Hin as (l1 & l2 & ->). rewrite foldM_app.
  pose proof (foldM_key_errors_only (eval_state self policy) l1
                (dict_fromkeys (l1 ++ s :: l2) num_zero, num_zero)
                (eval_state_key_errors_only self policy)) as Hs.
  destruct (foldM _ l1 _) as [[V1 d1]|e1|]; simpl in Hs;
    [|subst e1; reflexivity | contradiction].
  cbn [bind foldM]. unfold eval_state at 1. rewrite T.
  unfold getitem at 1. destruct (dict_get s policy) as [[a|]|];
    cbn [bind]; [| |reflexivity].
  - unfold lookahead, dict_get2 in *. unfold getitem at 1.
    destruct (dict_get s (P self)) as [Ps|]; cbn [bind]; [|reflexivity].
    unfold getitem at 1. rewrite Hbad. reflexivity.
  - unfold getitem at 1. destruct (dict_get s (P self)); reflexivity.
Qed.

(** The statement above on the chain of [main()], with a policy that has
    no entry for ["s1"]. *)
Lemma policy_evaluation_incomplete_policy_witness :
  policy_evaluation Examples.chain 5 [("s0", Some "a1")]%string
                    Examples.theta_default = Raise KeyError.
Proof.
  apply (@policy_evaluation_incomplete_policy string string Q _ _ _
           Examples.chain [("s0", Some "a1")]%string Examples.theta_default
           5 "s1"%string).
  - simpl; auto.
  - reflexivity.
  - exact I.
  - lia.
Defined.

(** X2.  On a model with an empty action list and a non-terminal state,
    nothing is rejected at construction; [value_iteration] raises the
    [ValueError] of [max] on an empty sequence in its first sweep,
    [policy_iteration] raises the [IndexError] of [random.choice] while it
    draws the initial policy, and [q_learning] raises one or the other in
    the first step of the first episode. *)
Theorem planners_without_actions
    {State Action N G : Type}
    `{Hashable State} `{Hashable Action} `{Number N} `{RandomSource G N}
    (self : MDP State Action N) :
  actions self = [] ->
  (exists s, In s (states self) /\ is_terminal self s = false) ->
  (forall sweeps theta,
      1 <= sweeps -> value_iteration self sweeps theta = Raise ValueError)
  /\ (forall sweeps rounds theta (g : G),
      policy_iteration self sweeps rounds theta g = Raise IndexError)
  /\ (forall fuel episodes alpha epsilon (g : G),
      1 <= fuel -> 1 <= episodes ->
      q_learning self fuel episodes alpha epsilon g = Raise IndexError
      \/ q_learning self fuel episodes alpha epsilon g = Raise ValueError).
Proof.
  intros Hact Hlive.
  destruct (first_nonterminal self (states self) Hlive)
    as (l1 & s & l2 & Hl & T & Hl1).
  split; [|split].
  - intros sweeps theta Hs. destruct sweeps as [|n]; [lia|].
    unfold value_iteration. cbn [vi_loop]. unfold vi_sweep.
    rewrite Hl. rewrite foldM_app.
    rewrite foldM_skip.
    + cbn [bind foldM]. unfold vi_state at 1. rewrite T.
      unfold best_value. rewrite Hact. reflexivity.
    + intros x Hx. unfold vi_state. rewrite (Hl1 x Hx). reflexivity.
  - intros sweeps rounds theta g. unfold policy_iteration, init_policy.
    rewrite Hl. rewrite foldM_app. rewrite foldM_skip.
    + cbn [bind foldM]. unfold init_state at 1. rewrite T.
      rewrite Hact. reflexivity.
    + intros x Hx. unfold init_state. rewrite (Hl1 x Hx). reflexivity.
  - intros fuel episodes alpha epsilon g Hf He.
    destruct fuel as [|fuel]; [lia|]. destruct episodes as [|n]; [lia|].
    unfold q_learning. cbn [q_episodes]. unfold q_episode.
    assert (Hne : filter (fun x => negb (is_terminal self x)) (states self)
                  <> []).
    { destruct Hlive as (x & Hx & Tx). intros Hnil.
      assert (Hf' : In x (filter (fun x => negb (is_terminal self x))
                                 (states self)))
        by (apply filter_In; split; [exact Hx | rewrite Tx; reflexivity]).
      rewrite Hnil in Hf'. exact Hf'. }
    destruct (choice_nonempty g Hne) as (st & g1 & Est).
    change (choice (filter (fun x => negb (is_terminal self x)) (states self)) g)
      with (sample_start self g) in Est.
    rewrite Est. cbn [bind].
    destruct (sample_start_nonterminal self g Est) as [Hst Tst].
    cbn [q_walk]. rewrite Tst. unfold q_step, select_action.
    destruct (rng_random g1) as [u g2].
    destruct (num_lt u epsilon).
    + left. rewrite Hact. reflexivity.
    + right. unfold getitem at 1. rewrite (q_init_row self st Hst).
      rewrite Hact. reflexivity.
Qed.

(** The statement above on the chain of [main()] with its actions
    removed. *)
Lemma planners_without_actions_witness :
  value_iteration Examples.no_actions 3 Examples.theta_default
  = Raise ValueError
  /\ policy_iteration Examples.no_actions 3 3 Examples.theta_default
       Examples.one_episode = Raise IndexError
  /\ (q_learning Examples.no_actions 3 1 (1 # 10)%Q (1 # 10)%Q
        Examples.one_episode = Raise IndexError
      \/ q_learning Examples.no_actions 3 1 (1 # 10)%Q (1 # 10)%Q
           Examples.one_episode = Raise ValueError).
Proof.
  destruct (planners_without_actions (G := tape Q) Examples.no_actions eq_refl)
    as (W1 & W2 & W3).
  - exists "s0"%string. split; [simpl; auto | reflexivity].
  - split; [apply W1; lia|]. split; [apply W2|]. apply W3; lia.
Defined.

Section Thresholds.
Context {State Action N G : Type}.
Context `{Hashable State} `{Hashable Action} `{Number N} `{RandomSource G N}.
Context `{!NumberCompare N}.
Variable self : MDP State Action N.

(** [delta] never goes below the [0] it starts from. *)
Lemma eval_sweep_delta_nonneg policy V V' delta :
  eval_sweep self policy V = Ok (V', delta) -> num_lt delta num_zero = false.
Proof.
  unfold eval_sweep. intros E.
  apply (foldM_invariant (eval_state self policy)
           (fun st => num_lt (snd st) num_zero = false)) in E;
    [exact E | | apply cmp_lt_irrefl].
  intros [V1 d1] s [V2 d2] _ I1 Es. simpl in *.
  unfold eval_state in Es. destruct (is_terminal self s).
  - inv_Ok Es. exact I1.
  - do 3 inv_bind Es. inv_Ok Es. apply max2_keeps_upper; exact I1.
Qed.

Lemma vi_sweep_delta_nonneg V V' delta :
  vi_sweep self V = Ok (V', delta) -> num_lt delta num_zero = false.
Proof.
  unfold vi_sweep. intros E.
  apply (foldM_invariant (vi_state self)
           (fun st => num_lt (snd st) num_zero = false)) in E;
    [exact E | | apply cmp_lt_irrefl].
  intros [V1 d1] s [V2 d2] _ I1 Es. simpl in *.
  exact (vi_state_upper self V1 d1 s num_zero Es I1).
Qed.

Lemma below_nonpositive_threshold (delta theta : N) :
  num_lt delta num_zero = false -> num_lt num_zero theta = false ->
  num_lt delta theta = false.
Proof.
  intros Hd Ht. destruct (num_lt delta theta) eqn:E; [|reflexivity].
  destruct (cmp_lt_cotrans delta num_zero theta cmp_zero E); congruence.
Qed.

Lemma eval_loop_nonpositive_threshold policy theta fuel V V' :
  num_lt num_zero theta = false ->
  eval_loop self policy theta fuel V <> Ok V'.
Proof.
  intros Ht. revert V. induction fuel as [|fuel IH]; intros V;
    cbn [eval_loop]; [discriminate|].
  destruct (eval_sweep self policy V) as [[V1 d1]| |] eqn:Es;
    cbn [bind]; try discriminate.
  rewrite (below_nonpositive_threshold d1 theta
             (eval_sweep_delta_nonneg policy V Es) Ht).
  apply IH.
Qed.

Lemma vi_loop_nonpositive_threshold theta fuel V V' :
  num_lt num_zero theta = false -> vi_loop self theta fuel V <> Ok V'.
Proof.
  intros Ht. revert V. induction fuel as [|fuel IH]; intros V;
    cbn [vi_loop]; [discriminate|].
  destruct (vi_sweep self V) as [[V1 d1]| |] eqn:Es;
    cbn [bind]; try discriminate.
  rewrite (below_nonpositive_threshold d1 theta
             (vi_sweep_delta_nonneg V Es) Ht).
  apply IH.
Qed.

End Thresholds.

(** X3.  With a threshold that is not positive ([theta = 0] included) the
    test [delta < theta] never succeeds, since [delta] starts at [0] and
    [max] never takes it below: [policy_evaluation], [value_iteration] and
    [policy_iteration] return for no number of sweeps and rounds.  This
    holds on exact numbers and in binary64, NaN included. *)
Theorem nonpositive_threshold_never_returns
    {State Action N G : Type}
    `{Hashable State} `{Hashable Action} `{Number N} `{RandomSource G N}
    `{!NumberCompare N}
    (self : MDP State Action N) (theta : N) :
  num_lt num_zero theta = false ->
  (forall sweeps policy V,
      policy_evaluation self sweeps policy theta <> Ok V)
  /\ (forall sweeps out, value_iteration self sweeps theta <> Ok out)
  /\ (forall sweeps rounds (g : G) out,
      policy_iteration self sweeps rounds theta g <> Ok out).
Proof.
  intros Ht. split; [|split].
  - intros sweeps policy V. apply eval_loop_nonpositive_threshold; exact Ht.
  - intros sweeps out E. unfold value_iteration in E.
    apply bind_Ok in E as (V & EV & _).
    exact (vi_loop_nonpositive_threshold self theta sweeps _ Ht EV).
  - intros sweeps rounds g out E. unfold policy_iteration in E.
    apply bind_Ok in E as ([p0 g0] & _ & E).
    apply bind_Ok in E as ([V p1] & E & _).
    revert p0 E. induction rounds as [|n IH]; intros p0 E;
      cbn [pi_loop] in E; [discriminate|].
    apply bind_Ok in E as ([[V1 p2] b] & Er & E).
    unfold pi_round in Er. apply bind_Ok in Er as (V2 & EV & _).
    exact (eval_loop_nonpositive_threshold self p0 theta sweeps _ Ht EV).
Qed.

(** The statement above in binary64, on [dither64] with [theta = 0.0]:
    the sweeps go through, and the loop goes on. *)
Lemma nonpositive_threshold_never_returns_witness :
  returns (vi_sweeps Examples.dither64 30
             (dict_fromkeys (states Examples.dither64) PrimFloat.zero)) = true
  /\ forall sweeps out,
       value_iteration Examples.dither64 sweeps PrimFloat.zero <> Ok out.
Proof.
  split; [vm_compute; reflexivity|].
  apply (nonpositive_threshold_never_returns (G := tape PrimFloat.float)
           Examples.dither64 PrimFloat.zero).
  reflexivity.
Defined.

(** X4.  On a model in which every listed state is terminal (an empty
    state list included) and with a positive threshold, the planners return
    after one sweep, whatever the actions, kernel and rewards: every value
    is [0], every policy entry is [None], and [policy_iteration] draws
    nothing from the random source. *)
Theorem planners_without_decisions
    {State Action N G : Type}
    `{Hashable State} `{Hashable Action} `{Number N} `{RandomSource G N}
    (self : MDP State Action N) (theta : N) :
  (forall s, In s (states self) -> is_terminal self s = true) ->
  num_lt num_zero theta = true ->
  (forall sweeps policy,
      1 <= sweeps ->
      policy_evaluation self sweeps policy theta
      = Ok (dict_fromkeys (states self) num_zero))
  /\ (forall sweeps,
      1 <= sweeps ->
      value_iteration self sweeps theta
      = Ok (dict_fromkeys (states self) num_zero,
            dict_fromkeys (states self) None))
  /\ (forall sweeps rounds (g : G),
      1 <= sweeps -> 1 <= rounds ->
      policy_iteration self sweeps rounds theta g
      = Ok (dict_fromkeys (states self) num_zero,
            dict_fromkeys (terminal_states self) None, g)).
Proof.
  intros Hall Ht.
  assert (Heval : forall sweeps policy, 1 <= sweeps ->
            policy_evaluation self sweeps policy theta
            = Ok (dict_fromkeys (states self) num_zero)).
  { intros sweeps policy Hs. destruct sweeps as [|n]; [lia|].
    unfold policy_evaluation. cbn [eval_loop]. unfold eval_sweep.
    rewrite foldM_skip.
    - cbn [bind]. rewrite Ht. reflexivity.
    - intros s Hs'. unfold eval_state. rewrite (Hall s Hs'). reflexivity. }
  split; [exact Heval|]. split.
  - intros sweeps Hs. destruct sweeps as [|n]; [lia|].
    unfold value_iteration. cbn [vi_loop]. unfold vi_sweep.
    rewrite foldM_skip.
    + cbn [bind]. rewrite Ht. cbn [bind].
      assert (Hd : forall l p,
                (forall s, In s l -> is_terminal self s = true) ->
                foldM (derive_state self
                         (dict_fromkeys (states self) num_zero)) l p
                = Ok (fold_left (fun p s => dict_set s None p) l p)).
      { induction l as [|s l IH]; intros p Hl; [reflexivity|].
        cbn [foldM fold_left]. unfold derive_state at 1.
        rewrite (Hl s) by (left; reflexivity). cbn [bind].
        apply IH. intros x Hx. apply Hl. right; exact Hx. }
      unfold derive_policy. rewrite (Hd _ _ Hall). reflexivity.
    + intros s Hs'. unfold vi_state. rewrite (Hall s Hs'). reflexivity.
  - intros sweeps rounds g Hs Hr. destruct rounds as [|r]; [lia|].
    unfold policy_iteration, init_policy. rewrite foldM_skip.
    + cbn [bind pi_loop]. unfold pi_round. rewrite (Heval sweeps _ Hs).
      cbn [bind]. unfold improve. rewrite foldM_skip; [reflexivity|].
      intros s Hs'. unfold improve_state. rewrite (Hall s Hs'). reflexivity.
    + intros s Hs'. unfold init_state. rewrite (Hall s Hs'). reflexivity.
Qed.

(** The statement above on the chain of [main()] with every state made
    terminal. *)
Lemma planners_without_decisions_witness :
  value_iteration Examples.all_terminal 1 Examples.theta_default
  = Ok (dict_fromkeys (states Examples.all_terminal) 0%Q,
        dict_fromkeys (states Examples.all_terminal) None)
  /\ policy_iteration Examples.all_terminal 1 1 Examples.theta_default
       Examples.one_episode
     = Ok (dict_fromkeys (states Examples.all_terminal) 0%Q,
           dict_fromkeys (terminal_states Examples.all_terminal) None,
           Examples.one_episode).
Proof.
  destruct (planners_without_decisions (G := tape Q) Examples.all_terminal
              Examples.theta_default) as (_ & W2 & W3).
  - intros s Hs. simpl in Hs. destruct Hs as [<-|[<-|[<-|[]]]]; reflexivity.
  - reflexivity.
  - split; [apply W2; lia | apply W3; lia].
Defined.

(* ================================================================== *)
(** * Further properties: the shape of the outputs *)
(* ================================================================== *)

Section DictKeys.
Context {K V : Type} `{Hashable K}.

Lemma dict_get_None_keys (k : K) (d : dict K V) :
  dict_get k d = None <-> ~ In k (map fst d).
Proof.
  induction d as [|[k' v'] d IH]; simpl; [tauto|].
  destruct (key_eq_dec k k') as [->|Hne].
  - split; [discriminate | intros Hn; exfalso; apply Hn; left; reflexivity].
  - rewrite IH. split; [intros Hn [Hc|Hc]; [congruence | tauto] | tauto].
Qed.

Lemma dict_has_key (k : K) (d : dict K V) :
  dict_get k d <> None <-> In k (map fst d).
Proof.
  rewrite dict_get_None_keys. split; [|tauto].
  intros Hnn. destruct (in_dec key_eq_dec k (map fst d)); tauto.
Qed.

(** Assigning to a key that is present keeps the keys and their order. *)
Lemma dict_set_keys (k : K) (v : V) (d : dict K V) :
  dict_get k d <> None -> map fst (dict_set k v d) = map fst d.
Proof.
  induction d as [|[k' v'] d IH]; simpl; [congruence|].
  destruct (key_eq_dec k k'); simpl; [reflexivity|].
  intros Hk. rewrite IH; auto.
Qed.

(** Assigning the value a key already has changes nothing. *)
Lemma dict_set_same (k : K) (v : V) (d : dict K V) :
  dict_get k d = Some v -> dict_set k v d = d.
Proof.
  induction d as [|[k' v'] d IH]; simpl; [discriminate|].
  destruct (key_eq_dec k k') as [->|Hne].
  - intros E. inv_Ok E. reflexivity.
  - intros E. rewrite IH; auto.
Qed.

Lemma dict_fold_set_has_key (keys : list K) (v : V) (d : dict K V) (k : K) :
  dict_get k (fold_left (fun d0 k0 => dict_set k0 v d0) keys d) <> None
  <-> In k keys \/ dict_get k d <> None.
Proof.
  rewrite dict_get_fold_set. destruct (in_dec key_eq_dec k keys) as [Hin|Hn].
  - split; [left; exact Hin | discriminate].
  - tauto.
Qed.

Lemma dict_fromkeys_has_key (keys : list K) (v : V) (k : K) :
  dict_get k (dict_fromkeys keys v) <> None <-> In k keys.
Proof.
  unfold dict_fromkeys. rewrite dict_fold_set_has_key. simpl. tauto.
Qed.

End DictKeys.

Section MaxMember.
Context {N : Type} `{Number N}.

(** What [max] returns is one of the items. *)
Lemma max_scan_In {A : Type} (key : A -> N) (l : list A) (best : A) :
  In (max_scan key best l) (best :: l).
Proof.
  revert best. induction l as [|x l IH]; intros best; simpl; [auto|].
  destruct (num_lt (key best) (key x)).
  - right. apply IH.
  - destruct (IH best) as [E|Hin]; [left; exact E | right; right; exact Hin].
Qed.

Lemma max_by_In {A : Type} (key : A -> N) (l : list A) (m : A) :
  max_by key l = Ok m -> In m l.
Proof.
  unfold max_by. destruct l as [|x l]; [discriminate|].
  intros E. inv_Ok E. apply max_scan_In.
Qed.

End MaxMember.

Section OutputShape.
Context {State Action N G : Type}.
Context `{Hashable State} `{Hashable Action} `{Number N} `{RandomSource G N}.
Variable self : MDP State Action N.

Lemma best_action_In V s best :
  best_action self V s = Ok best -> In best (actions self).
Proof.
  unfold best_action. intros E. apply bind_Ok in E as (keyed & Ek & E).
  apply bind_Ok in E as (b & Em & E). inv_Ok E.
  apply mapM_keyed in Ek as [Hfst _]. rewrite <- Hfst.
  apply in_map. eapply max_by_In; eauto.
Qed.

Lemma eval_state_keys policy V delta s V' delta' :
  eval_state self policy (V, delta) s = Ok (V', delta') ->
  map fst V' = map fst V.
Proof.
  unfold eval_state. destruct (is_terminal self s); intros E.
  - inv_Ok E. reflexivity.
  - apply bind_Ok in E as (a & _ & E). apply bind_Ok in E as (v & _ & E).
    apply bind_Ok in E as (old & Eold & E). inv_Ok E.
    apply getitem_Ok in Eold. apply dict_set_keys. congruence.
Qed.

Lemma vi_state_keys V delta s V' delta' :
  vi_state self (V, delta) s = Ok (V', delta') -> map fst V' = map fst V.
Proof.
  unfold vi_state. destruct (is_terminal self s); intros E.
  - inv_Ok E. reflexivity.
  - apply bind_Ok in E as (v & _ & E).
    apply bind_Ok in E as (old & Eold & E). inv_Ok E.
    apply getitem_Ok in Eold. apply dict_set_keys. congruence.
Qed.

Lemma eval_loop_keys policy theta fuel V V' :
  eval_loop self policy theta fuel V = Ok V' -> map fst V' = map fst V.
Proof.
  revert V. induction fuel as [|fuel IH]; intros V; cbn [eval_loop];
    [discriminate|].
  intros E. apply bind_Ok in E as ([V1 d1] & Es & E).
  assert (Hk : map fst V1 = map fst V).
  { unfold eval_sweep in Es.
    apply (foldM_invariant (eval_state self policy)
             (fun st => map fst (fst st) = map fst V)) in Es; auto.
    intros [Va da] s [Vb db] _ Ia Eb. simpl in *. rewrite <- Ia.
    eapply eval_state_keys; eauto. }
  destruct (num_lt d1 theta); [inv_Ok E; exact Hk|].
  rewrite <- Hk. apply IH; exact E.
Qed.

Lemma vi_loop_keys theta fuel V V' :
  vi_loop self theta fuel V = Ok V' -> map fst V' = map fst V.
Proof.
  revert V. induction fuel as [|fuel IH]; intros V; cbn [vi_loop];
    [discriminate|].
  intros E. apply bind_Ok in E as ([V1 d1] & Es & E).
  assert (Hk : map fst V1 = map fst V).
  { unfold vi_sweep in Es.
    apply (foldM_invariant (vi_state self)
             (fun st => map fst (fst st) = map fst V)) in Es; auto.
    intros [Va da] s [Vb db] _ Ia Eb. simpl in *. rewrite <- Ia.
    eapply vi_state_keys; eauto. }
  destruct (num_lt d1 theta); [inv_Ok E; exact Hk|].
  rewrite <- Hk. apply IH; exact E.
Qed.

(** The value function of the Evaluator has an entry exactly for the
    listed states. *)
Lemma policy_evaluation_domain sweeps policy theta V s :
  policy_evaluation self sweeps policy theta = Ok V ->
  (dict_get s V <> None <-> In s (states self)).
Proof.
  unfold policy_evaluation. intros E. apply eval_loop_keys in E.
  rewrite dict_has_key, E, <- dict_has_key. apply dict_fromkeys_has_key.
Qed.

(** A pass that assigns an entry to every state it visits. *)
Lemma assigning_pass_domain {V0 : Type}
    (f : dict State V0 -> State -> result (dict State V0)) :
  (forall p s p', f p s = Ok p' -> exists v, p' = dict_set s v p) ->
  forall l p p' x,
    foldM f l p = Ok p' ->
    (dict_get x p' <> None <-> In x l \/ dict_get x p <> None).
Proof.
  intros Hf. induction l as [|s l IH]; intros p p' x E; cbn [foldM] in E.
  - inv_Ok E. simpl. tauto.
  - apply bind_Ok in E as (p1 & E1 & E). rewrite (IH _ _ x E).
    destruct (Hf _ _ _ E1) as (v & ->). rewrite dict_get_set. simpl.
    destruct (key_eq_dec s x) as [->|Hne].
    + split; [intros _; left; left; reflexivity | intros _; right; discriminate].
    + split; [intros [Hl|Hp]; [left; right; exact Hl | right; exact Hp]|].
      intros [[Hc|Hl]|Hp]; [congruence | left; exact Hl | right; exact Hp].
Qed.

Lemma derive_policy_domain V policy x :
  derive_policy self V = Ok policy ->
  (dict_get x policy <> None <-> In x (states self)).
Proof.
  unfold derive_policy. intros E.
  assert (Hf : forall p s p', derive_state self V p s = Ok p' ->
                              exists v, p' = dict_set s v p).
  { intros p s p'. unfold derive_state. destruct (is_terminal self s);
      intros E1.
    - inv_Ok E1. eauto.
    - apply bind_Ok in E1 as (b & _ & E1). inv_Ok E1. eauto. }
  rewrite (assigning_pass_domain _ Hf _ _ x E). simpl. tauto.
Qed.

End OutputShape.

Section TableShape.
Context {State Action N G : Type}.
Context `{Hashable State} `{Hashable Action} `{Number N} `{RandomSource G N}.
Variable self : MDP State Action N.

Lemma q_shape_get (Q : dict State (dict Action N)) (s : State) :
  dict_get s (q_shape Q) = option_map (map fst) (dict_get s Q).
Proof.
  induction Q as [|[s' row] Q IH]; simpl; [reflexivity|].
  destruct (key_eq_dec s s'); [reflexivity | exact IH].
Qed.

Lemma q_shape_set (Q : dict State (dict Action N)) s row row' :
  dict_get s Q = Some row -> map fst row' = map fst row ->
  q_shape (dict_set s row' Q) = q_shape Q.
Proof.
  induction Q as [|[s' r] Q IH]; simpl; [discriminate|].
  destruct (key_eq_dec s s') as [->|Hne]; intros E Hk; simpl.
  - inv_Ok E. rewrite Hk. reflexivity.
  - rewrite IH; auto.
Qed.

Lemma q_value_shape (Q : dict State (dict Action N)) s a :
  q_value Q s a <> None <->
  exists keys, dict_get s (q_shape Q) = Some keys /\ In a keys.
Proof.
  unfold q_value, dict_get2. rewrite q_shape_get.
  destruct (dict_get s Q) as [row|]; simpl.
  - rewrite dict_has_key. split.
    + intros Hin. eauto.
    + intros (keys & E & Hin). inv_Ok E. exact Hin.
  - split; [congruence | intros (keys & E & _); discriminate].
Qed.

(** An update keeps the keys of the table and of its rows. *)
Lemma q_update_shape Q state action next_state reward alpha Q' :
  q_update self Q state action next_state reward alpha = Ok Q' ->
  q_shape Q' = q_shape Q.
Proof.
  unfold q_update. intros E.
  apply bind_Ok in E as (row & Erow & E). apply bind_Ok in E as (old & Eold & E).
  apply bind_Ok in E as (nrow & _ & E). apply bind_Ok in E as (bn & _ & E).
  apply bind_Ok in E as (cur & _ & E). inv_Ok E.
  apply getitem_Ok in Erow, Eold.
  apply q_shape_set with (row := row); [exact Erow|].
  apply dict_set_keys. congruence.
Qed.

Lemma q_step_shape alpha epsilon Q state g Q' next_state g' :
  q_step self alpha epsilon Q state g = Ok (Q', next_state, g') ->
  q_shape Q' = q_shape Q.
Proof.
  unfold q_step. intros E.
  apply bind_Ok in E as ([action g1] & _ & E).
  apply bind_Ok in E as ([[ns reward] g2] & _ & E).
  apply bind_Ok in E as (Q1 & Eu & E). inv_Ok E.
  eapply q_update_shape; eauto.
Qed.

Lemma q_walk_shape alpha epsilon fuel Q state g Q' g' :
  q_walk self alpha epsilon fuel Q state g = Ok (Q', g') ->
  q_shape Q' = q_shape Q.
Proof.
  revert Q state g. induction fuel as [|fuel IH]; intros Q state g;
    cbn [q_walk]; destruct (is_terminal self state); intros E;
    try (inv_Ok E; reflexivity); try discriminate.
  apply bind_Ok in E as ([[Q1 st1] g1] & Es & E).
  apply IH in E. rewrite E. eapply q_step_shape; eauto.
Qed.

Lemma q_episodes_shape alpha epsilon fuel episodes Q g Q' g' :
  q_episodes self alpha epsilon fuel episodes Q g = Ok (Q', g') ->
  q_shape Q' = q_shape Q.
Proof.
  revert Q g. induction episodes as [|n IH]; intros Q g; cbn [q_episodes];
    intros E; [inv_Ok E; reflexivity|].
  apply bind_Ok in E as ([Q1 g1] & Ee & E). apply IH in E. rewrite E.
  unfold q_episode in Ee. apply bind_Ok in Ee as ([st g2] & _ & Ee).
  eapply q_walk_shape; eauto.
Qed.

Lemma q_init_defined s a :
  q_value (q_init self) s a <> None
  <-> In s (states self) /\ In a (actions self).
Proof.
  unfold q_value, dict_get2, q_init.
  change (fold_left
            (fun Q s0 => dict_set s0 (dict_fromkeys (actions self) num_zero) Q)
            (states self) [])
    with (dict_fromkeys (states self)
            (dict_fromkeys (actions self) (@num_zero N _))).
  unfold dict_fromkeys at 1. rewrite dict_get_fold_set.
  destruct (in_dec key_eq_dec s (states self)) as [Hs|Hs].
  - rewrite dict_fromkeys_has_key. tauto.
  - simpl. tauto.
Qed.

(** The table [q_learning] returns has the keys of the initial one. *)
Lemma q_learning_defined fuel episodes alpha epsilon g Q policy g' s a :
  q_learning self fuel episodes alpha epsilon g = Ok (Q, policy, g') ->
  (q_value Q s a <> None <-> In s (states self) /\ In a (actions self)).
Proof.
  unfold q_learning. intros E. apply bind_Ok in E as ([Q1 g1] & Ee & E).
  apply bind_Ok in E as (p & _ & E). inv_Ok E.
  apply q_episodes_shape in Ee.
  rewrite q_value_shape, Ee, <- q_value_shape. apply q_init_defined.
Qed.

Lemma greedy_policy_domain Q policy x :
  greedy_policy self Q = Ok policy ->
  (dict_get x policy <> None <-> In x (states self)).
Proof.
  unfold greedy_policy. intros E.
  assert (Hf : forall p s p', greedy_state self Q p s = Ok p' ->
                              exists v, p' = dict_set s v p).
  { intros p s p'. unfold greedy_state. destruct (is_terminal self s);
      intros E1.
    - inv_Ok E1. eauto.
    - apply bind_Ok in E1 as (row & _ & E1).
      apply bind_Ok in E1 as (b & _ & E1). inv_Ok E1. eauto. }
  rewrite (assigning_pass_domain _ Hf _ _ x E). simpl. tauto.
Qed.

(** The greedy action of a row is one of its keys. *)
Lemma greedy_policy_valid Q policy s :
  In s (states self) -> is_terminal self s = false ->
  greedy_policy self Q = Ok policy ->
  exists row a q,
    dict_get s Q = Some row /\ max_by snd row = Ok (a, q)
    /\ dict_get s policy = Some (Some a).
Proof.
  intros Hin T E. unfold greedy_policy in E.
  apply (foldM_establish (greedy_state self Q)
           (fun p => exists row a q,
                dict_get s Q = Some row /\ max_by snd row = Ok (a, q)
                /\ dict_get s p = Some (Some a)) s) in E; auto.
  - intros p p'. unfold greedy_state. rewrite T. intros E1.
    apply bind_Ok in E1 as (row & Er & E1).
    apply bind_Ok in E1 as ([a q] & Em & E1). inv_Ok E1.
    apply getitem_Ok in Er. exists row, a, q.
    split; [exact Er|]. split; [exact Em | apply dict_get_set_same].
  - intros p s' p' (row & a & q & Er & Em & Hp). unfold greedy_state.
    destruct (is_terminal self s') eqn:T'; intros E1.
    + inv_Ok E1. exists row, a, q. split; [exact Er|]. split; [exact Em|].
      rewrite dict_get_set_other; [exact Hp | congruence].
    + apply bind_Ok in E1 as (row' & Er' & E1).
      apply bind_Ok in E1 as ([a' q'] & Em' & E1). inv_Ok E1.
      apply getitem_Ok in Er'. exists row, a, q.
      split; [exact Er|]. split; [exact Em|]. rewrite dict_get_set.
      destruct (key_eq_dec s' s) as [->|]; [|exact Hp].
      simpl. congruence.
Qed.

Lemma improve_keys V policy policy' stable :
  improve self V policy = Ok (policy', stable) ->
  map fst policy' = map fst policy.
Proof.
  unfold improve. intros E.
  apply (foldM_invariant (improve_state self V)
           (fun st => map fst (fst st) = map fst policy)) in E; auto.
  intros [p b] s [p' b'] _ Ip Es. simpl in *. rewrite <- Ip.
  unfold improve_state in Es. destruct (is_terminal self s).
  - inv_Ok Es. reflexivity.
  - apply bind_Ok in Es as (old & Eo & Es).
    apply bind_Ok in Es as (best & _ & Es). inv_Ok Es.
    apply getitem_Ok in Eo. apply dict_set_keys. congruence.
Qed.

(** A stable improvement step returns the policy it was given. *)
Lemma improve_stable_same V policy policy' :
  improve self V policy = Ok (policy', true) -> policy' = policy.
Proof.
  unfold improve. intros E.
  apply (foldM_invariant (improve_state self V)
           (fun st => snd st = true -> fst st = policy)) in E; auto.
  intros [p b] s [p' b'] _ Ip Es. simpl in *.
  unfold improve_state in Es. destruct (is_terminal self s).
  - inv_Ok Es. exact Ip.
  - apply bind_Ok in Es as (old & Eo & Es).
    apply bind_Ok in Es as (best & _ & Es). inv_Ok Es.
    apply getitem_Ok in Eo. intros Hb.
    destruct old as [old|]; [|discriminate].
    destruct (key_eq_dec old best) as [->|]; [|discriminate].
    rewrite dict_set_same by exact Eo. apply Ip; exact Hb.
Qed.

Lemma init_policy_domain g policy g' x :
  init_policy self g = Ok (policy, g') ->
  (dict_get x policy <> None
   <-> In x (states self) \/ In x (terminal_states self)).
Proof.
  unfold init_policy. intros E. apply bind_Ok in E as ([p0 g0] & E0 & E).
  inv_Ok E. rewrite dict_fold_set_has_key.
  assert (Hd : forall l p g1 p1 g2,
            foldM (init_state self) l (p, g1) = Ok (p1, g2) ->
            (dict_get x p1 <> None
             <-> (In x l /\ is_terminal self x = false)
                 \/ dict_get x p <> None)).
  { induction l as [|s l IH]; intros p g1 p1 g2 E; cbn [foldM] in E.
    - inv_Ok E. simpl. tauto.
    - apply bind_Ok in E as ([pa ga] & Ea & E). rewrite (IH _ _ _ _ E).
      unfold init_state in Ea. destruct (is_terminal self s) eqn:T.
      + inv_Ok Ea. simpl. split; [tauto|].
        intros [[[Hc|Hl] Tx]|Hp]; [subst; congruence | tauto | tauto].
      + apply bind_Ok in Ea as ([a gb] & _ & Ea). inv_Ok Ea.
        rewrite dict_get_set. simpl.
        destruct (key_eq_dec s x) as [->|Hne].
        * split; [intros _; left; split; [left; reflexivity | exact T]|].
          intros _. right. discriminate.
        * split; [tauto|]. intros [[[Hc|Hl] Tx]|Hp]; [congruence | tauto | tauto]. }
  rewrite (Hd _ _ _ _ _ E0). simpl.
  pose proof (contains_In x (terminal_states self)) as Hc.
  unfold is_terminal. destruct (contains x (terminal_states self)).
  - split; [intros _; right; apply Hc; reflexivity|].
    intros _. left. apply Hc. reflexivity.
  - split; [tauto|].
    intros [Hs|Ht]; [tauto | apply Hc in Ht; discriminate].
Qed.

Lemma pi_loop_shape sweeps theta rounds policy V policy' :
  pi_loop self sweeps theta rounds policy = Ok (V, policy') ->
  map fst policy' = map fst policy
  /\ pi_round self sweeps theta policy' = Ok (V, policy', true).
Proof.
  revert policy. induction rounds as [|n IH]; intros policy; cbn [pi_loop];
    [discriminate|].
  intros E. apply bind_Ok in E as ([[V1 p1] b] & Er & E).
  pose proof Er as Er'. unfold pi_round in Er'.
  apply bind_Ok in Er' as (V2 & _ & Er').
  apply bind_Ok in Er' as ([p2 b2] & Ei & Er'). inv_Ok Er'.
  destruct b.
  - inv_Ok E. pose proof (improve_stable_same _ _ Ei) as ->.
    split; [reflexivity | exact Er].
  - destruct (IH _ E) as [Hk Hfix]. split; [|exact Hfix].
    rewrite Hk. eapply improve_keys; eauto.
Qed.

End TableShape.

(** X5.  The dictionaries the algorithms return have entries exactly
    where the model has states: the value functions of
    [policy_evaluation], [value_iteration] and [policy_iteration] and the
    policies of [value_iteration] and [q_learning] for the listed states,
    the policy of [policy_iteration] for the listed and the terminal
    states, and the Q-table for the pairs of a listed state and a listed
    action. *)
Theorem outputs_defined_on_the_model
    {State Action N G : Type}
    `{Hashable State} `{Hashable Action} `{Number N} `{RandomSource G N}
    (self : MDP State Action N) :
  (forall sweeps policy theta V s,
      policy_evaluation self sweeps policy theta = Ok V ->
      (dict_get s V <> None <-> In s (states self)))
  /\ (forall sweeps theta V policy s,
      value_iteration self sweeps theta = Ok (V, policy) ->
      (dict_get s V <> None <-> In s (states self))
      /\ (dict_get s policy <> None <-> In s (states self)))
  /\ (forall sweeps rounds theta (g g' : G) V policy s,
      policy_iteration self sweeps rounds theta g = Ok (V, policy, g') ->
      (dict_get s V <> None <-> In s (states self))
      /\ (dict_get s policy <> None
          <-> In s (states self) \/ In s (terminal_states self)))
  /\ (forall fuel episodes alpha epsilon (g g' : G) Q policy s a,
      q_learning self fuel episodes alpha epsilon g = Ok (Q, policy, g') ->
      (q_value Q s a <> None <-> In s (states self) /\ In a (actions self))
      /\ (dict_get s policy <> None <-> In s (states self))).
Proof.
  split; [|split; [|split]].
  - intros sweeps policy theta V s E.
    eapply policy_evaluation_domain; eauto.
  - intros sweeps theta V policy s E. unfold value_iteration in E.
    apply bind_Ok in E as (V0 & EV & E). apply bind_Ok in E as (p & Ep & E).
    inv_Ok E. split; [|eapply derive_policy_domain; eauto].
    apply vi_loop_keys in EV.
    rewrite dict_has_key, EV, <- dict_has_key. apply dict_fromkeys_has_key.
  - intros sweeps rounds theta g g' V policy s E.
    unfold policy_iteration in E.
    apply bind_Ok in E as ([p0 g0] & E0 & E).
    apply bind_Ok in E as ([V1 p1] & El & E). inv_Ok E.
    destruct (pi_loop_shape self _ _ _ _ El) as [Hk Hfix]. split.
    + unfold pi_round in Hfix. apply bind_Ok in Hfix as (V2 & EV & Hfix).
      apply bind_Ok in Hfix as ([p2 b2] & _ & Hfix). inv_Ok Hfix.
      eapply policy_evaluation_domain; eauto.
    + rewrite dict_has_key, Hk, <- dict_has_key.
      eapply init_policy_domain; eauto.
  - intros fuel episodes alpha epsilon g g' Q policy s a E.
    split; [eapply q_learning_defined; eauto|].
    unfold q_learning in E. apply bind_Ok in E as ([Q1 g1] & _ & E).
    apply bind_Ok in E as (p & Ep & E). inv_Ok E.
    eapply greedy_policy_domain; eauto.
Qed.

(** X6.  In the policy that [value_iteration], [policy_iteration] or
    [q_learning] returns, every non-terminal state of the model has an
    action, and it is an action of the model. *)
Theorem returned_policies_are_complete
    {State Action N G : Type}
    `{Hashable State} `{Hashable Action} `{Number N} `{RandomSource G N}
    (self : MDP State Action N) (s : State) :
  In s (states self) ->
  is_terminal self s = false ->
  (forall sweeps theta V policy,
      value_iteration self sweeps theta = Ok (V, policy) ->
      exists a, dict_get s policy = Some (Some a) /\ In a (actions self))
  /\ (forall sweeps rounds theta (g g' : G) V policy,
      policy_iteration self sweeps rounds theta g = Ok (V, policy, g') ->
      exists a, dict_get s policy = Some (Some a) /\ In a (actions self))
  /\ (forall fuel episodes alpha epsilon (g g' : G) Q policy,
      q_learning self fuel episodes alpha epsilon g = Ok (Q, policy, g') ->
      exists a, dict_get s policy = Some (Some a) /\ In a (actions self)).
Proof.
  intros Hin T. split; [|split].
  - intros sweeps theta V policy E. unfold value_iteration in E.
    apply bind_Ok in E as (V0 & _ & E). apply bind_Ok in E as (p & Ep & E).
    inv_Ok E.
    destruct (derive_policy_greedy self s Hin T V Ep) as (a & Ea & Hp).
    exists a. split; [exact Hp | eapply best_action_In; eauto].
  - intros sweeps rounds theta g g' V policy E.
    unfold policy_iteration in E.
    apply bind_Ok in E as ([p0 g0] & _ & E).
    apply bind_Ok in E as ([V1 p1] & El & E). inv_Ok E.
    destruct (pi_loop_shape self _ _ _ _ El) as [_ Hfix].
    unfold pi_round in Hfix. apply bind_Ok in Hfix as (V2 & _ & Hfix).
    apply bind_Ok in Hfix as ([p2 b2] & Ei & Hfix). inv_Ok Hfix.
    destruct (improve_greedy self s Hin T V policy Ei) as (a & Ea & Hp).
    exists a. split; [exact Hp | eapply best_action_In; eauto].
  - intros fuel episodes alpha epsilon g g' Q policy E.
    pose proof E as E'. unfold q_learning in E'.
    apply bind_Ok in E' as ([Q1 g1] & _ & E').
    apply bind_Ok in E' as (p & Ep & E'). inv_Ok E'.
    destruct (greedy_policy_valid self Q s Hin T Ep)
      as (row & a & q & Er & Em & Hp).
    exists a. split; [exact Hp|].
    apply max_by_In in Em.
    assert (Hq : q_value Q s a <> None).
    { unfold q_value, dict_get2. rewrite Er. apply dict_has_key.
      change a with (fst (a, q)). apply in_map. exact Em. }
    eapply q_learning_defined in Hq; eauto. apply Hq.
Qed.

(** The two statements above on the chain of [main()], after one episode
    of [q_learning]. *)
Lemma outputs_defined_on_the_model_witness :
  exists Q policy g',
    q_learning Examples.chain 10 1 (1 # 10)%Q (1 # 10)%Q Examples.one_episode
    = Ok (Q, policy, g')
    /\ q_value Q "s1"%string "a0"%string <> None
    /\ dict_get "s1"%string policy <> None.
Proof.
  destruct (outputs_defined_on_the_model (G := tape Q) Examples.chain)
    as (_ & _ & _ & W).
  run_of (q_learning Examples.chain 10 1 (1 # 10)%Q (1 # 10)%Q
            Examples.one_episode) ipattern:([[[Q policy] g']| |]) E.
  exists Q, policy, g'. split; [reflexivity|].
  destruct (W _ _ _ _ _ _ Q policy "s1"%string "a0"%string E) as [W1 W2].
  split; [apply W1 | apply W2]; simpl; auto.
Defined.

Lemma returned_policies_are_complete_witness :
  exists Q policy g' a,
    q_learning Examples.chain 10 1 (1 # 10)%Q (1 # 10)%Q Examples.one_episode
    = Ok (Q, policy, g')
    /\ dict_get "s1"%string policy = Some (Some a)
    /\ In a (actions Examples.chain).
Proof.
  destruct (returned_policies_are_complete (G := tape Q) Examples.chain
              "s1"%string) as (_ & _ & W);
    [simpl; auto | reflexivity |].
  run_of (q_learning Examples.chain 10 1 (1 # 10)%Q (1 # 10)%Q
            Examples.one_episode) ipattern:([[[Q policy] g']| |]) E.
  destruct (W _ _ _ _ _ _ Q policy E) as (a & Hp & Ha).
  exists Q, policy, g', a. split; [reflexivity|]. split; assumption.
Defined.



(** X8.  The policy [q_learning] returns is greedy for the table it
    returns: at a non-terminal state of the model it holds the first key of
    the state's row whose value no value of the row exceeds (every key
    before it has a strictly smaller value). *)
Theorem q_learning_policy_is_greedy
    {State Action N G : Type}
    `{Hashable State} `{Hashable Action} `{Number N} `{RandomSource G N}
    `{!NumberOrder N}
    (self : MDP State Action N) fuel episodes alpha epsilon (g g' : G)
    Q policy (s : State) :
  q_learning self fuel episodes alpha epsilon g = Ok (Q, policy, g') ->
  In s (states self) -> is_terminal self s = false ->
  exists pre a q post,
    dict_get s Q = Some (pre ++ (a, q) :: post)
    /\ dict_get s policy = Some (Some a)
    /\ (forall e, In e pre -> num_lt (snd e) q = true)
    /\ (forall e, In e (pre ++ (a, q) :: post) -> num_lt q (snd e) = false).
Proof.
  intros E Hin T. unfold q_learning in E.
  apply bind_Ok in E as ([Q1 g1] & _ & E).
  apply bind_Ok in E as (p & Ep & E). inv_Ok E.
  destruct (greedy_policy_valid self Q s Hin T Ep)
    as (row & a & q & Er & Em & Hp).
  destruct (max_by_spec snd row Em) as (pre & post & Hsplit & Hpre & Hmax).
  exists pre, a, q, post. rewrite <- Hsplit.
  split; [exact Er|]. split; [exact Hp|]. split; [exact Hpre | exact Hmax].
Qed.

(** The statement above on the chain of [main()], after one episode. *)
Lemma q_learning_policy_is_greedy_witness :
  exists Q policy g' pre a q post,
    q_learning Examples.chain 10 1 (1 # 10)%Q (1 # 10)%Q Examples.one_episode
    = Ok (Q, policy, g')
    /\ dict_get "s0"%string Q = Some (pre ++ (a, q) :: post)
    /\ dict_get "s0"%string policy = Some (Some a)
    /\ (forall e, In e pre -> num_lt (snd e) q = true).
Proof.
  run_of (q_learning Examples.chain 10 1 (1 # 10)%Q (1 # 10)%Q
            Examples.one_episode) ipattern:([[[Q policy] g']| |]) E.
  destruct (q_learning_policy_is_greedy Examples.chain _ _ _ _ _
              "s0"%string E)
    as (pre & a & q & post & Hrow & Hp & Hpre & _);
    [simpl; auto | reflexivity |].
  exists Q, policy, g', pre, a, q, post.
  split; [reflexivity|]. split; [exact Hrow|]. split; assumption.
Defined.

(* ================================================================== *)
(** * Further properties: convergence and accuracy on exact numbers *)
(* ================================================================== *)

Section SweepOperator.
Context {State Action : Type} `{Hashable State} `{Hashable Action}.
Variable self : MDP State Action Q.
Variable update : dict State Q -> State -> result Q.
Open Scope Q_scope.

Lemma sweep_state_nonterminal V delta s V' delta' :
  is_terminal self s = false ->
  sweep_state self update (V, delta) s = Ok (V', delta') ->
  exists v old,
    update V s = Ok v /\ dict_get s V = Some old /\ V' = dict_set s v V
    /\ delta' = max2 delta (Qabs (num_sub old v)).
Proof.
  unfold sweep_state. intros -> E.
  apply bind_Ok in E as (v & Ev & E). apply bind_Ok in E as (old & Eold & E).
  inv_Ok E. apply getitem_Ok in Eold. exists v, old. repeat split; auto.
Qed.

(** One sweep over distinct states, from the table [Vc] with [delta] at
    [dc], to the table [V] with [delta] at [delta]. *)
Lemma sweep_fold_inv (l : list State) :
  forall Vc dc V delta,
    NoDup l ->
    foldM (sweep_state self update) l (Vc, dc) = Ok (V, delta) ->
    dc <= delta
    /\ map fst V = map fst Vc
    /\ (forall x, ~ In x l -> value_at V x = value_at Vc x)
    /\ (forall x, In x l -> is_terminal self x = true ->
                  value_at V x = value_at Vc x)
    /\ (forall x, In x l -> is_terminal self x = false ->
                  Qabs (value_at V x - value_at Vc x) <= delta)
    /\ (forall x, In x l -> is_terminal self x = false ->
          exists W,
            update W x = Ok (value_at V x)
            /\ forall s', value_at W s' = value_at V s'
                          \/ value_at W s' = value_at Vc s').
Proof.
  induction l as [|y l IH]; intros Vc dc V delta Hnd E.
  - cbn [foldM] in E. inv_Ok E. split; [apply Qle_refl|].
    repeat split; try reflexivity; intros x [].
  - cbn [foldM] in E. apply bind_Ok in E as ([V1 d1] & Ey & E).
    inversion Hnd as [|? ? Hy Hnd']; subst.
    destruct (IH V1 d1 V delta Hnd' E)
      as (Hd & Hkeys & Hout & Hterm & Hmove & Hres).
    destruct (is_terminal self y) eqn:T.
    + unfold sweep_state in Ey. rewrite T in Ey. inv_Ok Ey.
      split; [exact Hd|]. split; [exact Hkeys|]. split; [|split; [|split]].
      * intros x Hx. apply Hout. intros Hc. apply Hx. right; exact Hc.
      * intros x [<-|Hx] Tx; [apply Hout; exact Hy | apply Hterm; assumption].
      * intros x [<-|Hx] Tx; [congruence | apply Hmove; assumption].
      * intros x [<-|Hx] Tx; [congruence | apply Hres; assumption].
    + destruct (sweep_state_nonterminal Vc dc y T Ey)
        as (v & old & Ev & Eold & -> & ->).
      destruct (Q_max2_bounds dc (Qabs (num_sub old v))) as [Hdc Hchg].
      assert (HVy : value_at V y = v).
      { rewrite (Hout y Hy), value_at_set.
        destruct (key_eq_dec y y); congruence. }
      assert (Hother : forall x, x <> y ->
                value_at (dict_set y v Vc) x = value_at Vc x).
      { intros x Hx. rewrite value_at_set.
        destruct (key_eq_dec y x); congruence. }
      split; [eapply Qle_trans; eauto|]. split; [|split; [|split; [|split]]].
      * rewrite Hkeys. apply dict_set_keys. congruence.
      * intros x Hx. rewrite Hout by (intros Hc; apply Hx; right; exact Hc).
        apply Hother. intros ->. apply Hx. left; reflexivity.
      * intros x [<-|Hx] Tx; [congruence|].
        rewrite (Hterm x Hx Tx). apply Hother. intros ->. contradiction.
      * intros x [<-|Hx] Tx.
        -- rewrite HVy. unfold value_at. rewrite Eold.
           eapply Qle_trans; [|exact Hd]. eapply Qle_trans; [|exact Hchg].
           rewrite Qabs_Qminus.
           rewrite (Qabs_wd _ _ (Q_sub_eq old v)). apply Qle_refl.
        -- rewrite <- (Hother x) by (intros ->; contradiction).
           apply Hmove; assumption.
      * intros x [<-|Hx] Tx.
        -- exists Vc. split; [congruence|]. intros s'. right; reflexivity.
        -- destruct (Hres x Hx Tx) as (W & Ew & Hw).
           exists W. split; [exact Ew|].
           intros s'. destruct (key_eq_dec s' y) as [->|Hs'].
           ++ destruct (Hw y) as [Hl|Hr]; [left; exact Hl|].
              left. rewrite Hr, HVy, value_at_set.
              destruct (key_eq_dec y y); congruence.
           ++ destruct (Hw s') as [Hl|Hr]; [left; exact Hl|].
              right. rewrite Hr. apply Hother; exact Hs'.
Qed.

(** After a sweep from [delta = 0], no value has moved by more than the
    sweep's [delta]. *)
Lemma sweep_moves (Vc V : dict State Q) delta :
  NoDup (states self) ->
  foldM (sweep_state self update) (states self) (Vc, 0) = Ok (V, delta) ->
  0 <= delta
  /\ forall x, Qabs (value_at V x - value_at Vc x) <= delta.
Proof.
  intros Hnd E.
  destruct (sweep_fold_inv Vc 0 Hnd E) as (Hd & _ & Hout & Hterm & Hmove & _).
  split; [exact Hd|]. intros x.
  destruct (in_dec key_eq_dec x (states self)) as [Hin|Hn].
  - destruct (is_terminal self x) eqn:T.
    + rewrite (Hterm x Hin T). setoid_replace (value_at Vc x - value_at Vc x)
        with 0 by ring. exact Hd.
    + apply Hmove; assumption.
  - rewrite (Hout x Hn). setoid_replace (value_at Vc x - value_at Vc x)
      with 0 by ring. exact Hd.
Qed.

End SweepOperator.

Section RationalPowers.
Open Scope Q_scope.

Lemma qpow_nonneg (x : Q) (n : nat) : 0 <= x -> 0 <= qpow x n.
Proof.
  intros Hx. induction n as [|n IH]; simpl; [discriminate|].
  apply Qmult_le_0_compat; assumption.
Qed.

(** Bernoulli's inequality, in the form that needs no division. *)
Lemma qpow_bernoulli (x : Q) (n : nat) :
  0 <= x <= 1 -> qpow x n * (1 + inject_Z (Z.of_nat n) * (1 - x)) <= 1.
Proof.
  intros [H0 H1]. induction n as [|n IH].
  - simpl. change (inject_Z 0) with 0. lra.
  - rewrite Nat2Z.inj_succ. unfold Z.succ. rewrite inject_Z_plus.
    change (inject_Z 1) with 1. cbn [qpow].
    set (k := inject_Z (Z.of_nat n)) in *.
    assert (Hk : 0 <= k).
    { unfold k. change 0 with (inject_Z 0). rewrite <- Zle_Qle. lia. }
    pose proof (qpow_nonneg n H0) as Hp. set (p := qpow x n) in *.
    assert (Hsq : 0 <= (k + 1) * ((1 - x) * (1 - x)))
      by (apply Qmult_le_0_compat;
          [lra | apply Qmult_le_0_compat; lra]).
    assert (Hid : x * (1 + (k + 1) * (1 - x))
                  == 1 + k * (1 - x) - (k + 1) * ((1 - x) * (1 - x)))
      by ring.
    assert (Hstep : x * (1 + (k + 1) * (1 - x)) <= 1 + k * (1 - x)) by lra.
    assert (Hmul : p * (x * (1 + (k + 1) * (1 - x)))
                   <= p * (1 + k * (1 - x)))
      by (apply Q_mul_le_l; assumption).
    lra.
Qed.

(** Powers of a discount below [1] fall under every positive bound. *)
Lemma qpow_small (x d theta : Q) :
  0 <= x < 1 -> 0 <= d -> 0 < theta -> exists n, qpow x n * d < theta.
Proof.
  intros [H0 H1] Hd Ht.
  destruct (Qarchimedean (d / (theta * (1 - x)))) as [p Hp].
  exists (Pos.to_nat p).
  pose proof (qpow_bernoulli (Pos.to_nat p) (conj H0 (Qlt_le_weak _ _ H1)))
    as Hb.
  rewrite positive_nat_Z in Hb.
  change (inject_Z (Z.pos p)) with (Z.pos p # 1) in Hb.
  set (k := Z.pos p # 1) in *.
  pose proof (qpow_nonneg (Pos.to_nat p) H0) as Hq.
  set (q := qpow x (Pos.to_nat p)) in *.
  assert (Hpos : 0 < theta * (1 - x)) by nra.
  assert (Hdk : d < k * (theta * (1 - x))).
  { apply (Qmult_lt_r _ _ _ Hpos) in Hp.
    setoid_replace (d / (theta * (1 - x)) * (theta * (1 - x))) with d in Hp;
      [exact Hp|].
    field. split; intros Hz; lra. }
  assert (Hq1 : q * d <= q * (k * (theta * (1 - x))))
    by (apply Q_mul_le_l; lra).
  assert (Hq2 : 0 <= q * theta) by (apply Qmult_le_0_compat; lra).
  assert (Hx : q * (k * (theta * (1 - x))) == theta * (q * k * (1 - x)))
    by ring.
  assert (Hb' : q * k * (1 - x) <= 1 - q) by lra.
  assert (Hb'' : theta * (q * k * (1 - x)) <= theta * (1 - q))
    by (apply Q_mul_le_l; lra).
  assert (Hq3 : theta * (1 - q) == theta - q * theta) by ring.
  destruct (Qlt_le_dec 0 q) as [Hqpos|Hq0].
  - assert (0 < q * theta) by (apply Qmult_lt_0_compat; assumption).
    lra.
  - assert (Hz : q == 0) by lra. rewrite Hz. lra.
Qed.

Lemma Q_max2_le (a b c : Q) : a <= c -> b <= c -> max2 a b <= c.
Proof.
  intros Ha Hb. destruct (max2_spec a b) as ([-> | ->] & _); assumption.
Qed.

End RationalPowers.

Section SweepConvergence.
Context {State Action : Type} `{Hashable State} `{Hashable Action}.
Variable self : MDP State Action Q.
Variable update : dict State Q -> State -> result Q.
Open Scope Q_scope.

Hypothesis states_distinct : NoDup (states self).
Hypothesis discount : 0 <= gamma self < 1.

(** The update moves by at most [gamma] times what the table moves, and
    succeeds on every table that has the states of the model as keys. *)
Hypothesis update_lipschitz :
  forall X1 X2 y v1 v2 K,
    In y (states self) -> is_terminal self y = false -> 0 <= K ->
    (forall s', Qabs (value_at X2 s' - value_at X1 s') <= K) ->
    update X1 y = Ok v1 -> update X2 y = Ok v2 ->
    Qabs (v2 - v1) <= gamma self * K.
Hypothesis update_total :
  forall W y,
    (forall s, In s (states self) -> dict_get s W <> None) ->
    In y (states self) -> is_terminal self y = false ->
    exists v, update W y = Ok v.

Lemma has_states_keys (W W' : dict State Q) :
  map fst W' = map fst W -> has_states self W -> has_states self W'.
Proof.
  intros Hk Hw s Hs. apply dict_has_key. rewrite Hk. apply dict_has_key.
  apply Hw; exact Hs.
Qed.

Lemma sweep_fold_total (l : list State) :
  incl l (states self) ->
  forall X e, has_states self X ->
    exists X' d, foldM (sweep_state self update) l (X, e) = Ok (X', d).
Proof.
  induction l as [|y l IH]; intros Hl X e HX; cbn [foldM]; [eauto|].
  assert (Hy : In y (states self)) by (apply Hl; left; reflexivity).
  assert (Hl' : incl l (states self))
    by (intros x Hx; apply Hl; right; exact Hx).
  unfold sweep_state at 1. destruct (is_terminal self y) eqn:T; cbn [bind].
  - apply IH; assumption.
  - destruct (update_total X y HX Hy T) as (v & ->). cbn [bind].
    unfold getitem. destruct (dict_get y X) as [old|] eqn:Eold;
      [|exfalso; exact (HX y Hy Eold)].
    cbn [bind]. apply IH; [exact Hl'|].
    apply has_states_keys with (W := X); [|exact HX].
    apply dict_set_keys. congruence.
Qed.

(** Two successive sweeps, side by side. *)
Lemma two_sweeps (l : list State) :
  forall X1 e1 B d1 X2 e2 C d2 K,
    NoDup l -> incl l (states self) ->
    foldM (sweep_state self update) l (X1, e1) = Ok (B, d1) ->
    foldM (sweep_state self update) l (X2, e2) = Ok (C, d2) ->
    0 <= K ->
    (forall s', Qabs (value_at X2 s' - value_at X1 s') <= K) ->
    (forall y, In y l -> value_at X2 y = value_at B y) ->
    e2 <= gamma self * K ->
    d2 <= gamma self * K.
Proof.
  destruct discount as [Hg0 Hg1].
  induction l as [|y l IH]; intros X1 e1 B d1 X2 e2 C d2 K Hnd Hl E1 E2 HK
    Hnear Hsame He.
  - cbn [foldM] in E2. inv_Ok E2. exact He.
  - cbn [foldM] in E1, E2.
    apply bind_Ok in E1 as ([X1' e1'] & Ey1 & E1).
    apply bind_Ok in E2 as ([X2' e2'] & Ey2 & E2).
    inversion Hnd as [|? ? Hy Hnd']; subst.
    assert (Hyin : In y (states self)) by (apply Hl; left; reflexivity).
    assert (Hl' : incl l (states self))
      by (intros x Hx; apply Hl; right; exact Hx).
    destruct (is_terminal self y) eqn:T.
    + unfold sweep_state in Ey1, Ey2. rewrite T in Ey1, Ey2.
      inv_Ok Ey1. inv_Ok Ey2.
      apply (IH _ _ _ _ _ _ _ _ K Hnd' Hl' E1 E2); auto.
      intros y' Hy'. apply Hsame. right; exact Hy'.
    + destruct (sweep_state_nonterminal self update X1 e1 y T Ey1)
        as (v1 & old1 & Ev1 & Eold1 & -> & ->).
      destruct (sweep_state_nonterminal self update X2 e2 y T Ey2)
        as (v2 & old2 & Ev2 & Eold2 & -> & ->).
      destruct (sweep_fold_inv self update _ _ Hnd' E1)
        as (_ & _ & Hout & _).
      assert (HBy : value_at B y = v1).
      { rewrite (Hout y Hy), value_at_set.
        destruct (key_eq_dec y y); congruence. }
      assert (Hold2 : old2 = v1).
      { rewrite <- HBy, <- (Hsame y) by (left; reflexivity).
        unfold value_at. rewrite Eold2. reflexivity. }
      subst old2.
      pose proof (@update_lipschitz X1 X2 y v1 v2 K Hyin T HK Hnear Ev1 Ev2)
        as Hlip.
      assert (HgK : gamma self * K <= K).
      { assert (gamma self * K <= 1 * K)
          by (apply Qmult_le_compat_r; [lra | exact HK]).
        lra. }
      apply (IH _ _ _ _ _ _ _ _ K Hnd' Hl' E1 E2); auto.
      * intros s'. rewrite !value_at_set.
        destruct (key_eq_dec y s'); [lra | apply Hnear].
      * intros y' Hy'. rewrite value_at_set.
        destruct (key_eq_dec y y') as [->|]; [contradiction|].
        apply Hsame. right; exact Hy'.
      * apply Q_max2_le; [exact He|].
        change (@num_abs Q Q_Number) with Qabs.
        rewrite (Qabs_wd _ _ (Q_sub_eq v1 v2)), Qabs_Qminus. exact Hlip.
Qed.

(** [delta] shrinks by the discount from one sweep to the next. *)
Lemma sweep_contracts A B d1 C d2 :
  foldM (sweep_state self update) (states self) (A, 0) = Ok (B, d1) ->
  foldM (sweep_state self update) (states self) (B, 0) = Ok (C, d2) ->
  0 <= d1 /\ d2 <= gamma self * d1.
Proof.
  intros E1 E2.
  destruct (sweep_moves self update A states_distinct E1) as [Hd1 Hmove].
  split; [exact Hd1|].
  apply (@two_sweeps (states self) A 0 B d1 B 0 C d2 d1 states_distinct
           (incl_refl _) E1 E2 Hd1 Hmove).
  - intros y _. reflexivity.
  - apply Qmult_le_0_compat; [apply discount | exact Hd1].
Qed.

Lemma sweep_loop_more_fuel theta fuel fuel' V (r : result (dict State Q)) :
  sweep_loop self update theta fuel V = r -> r <> Timeout ->
  (fuel <= fuel')%nat -> sweep_loop self update theta fuel' V = r.
Proof.
  revert fuel' V. induction fuel as [|fuel IH]; intros fuel' V E Hr Hle;
    cbn [sweep_loop] in E; [congruence|].
  destruct fuel' as [|fuel']; [lia|]. cbn [sweep_loop].
  destruct (foldM (sweep_state self update) (states self) (V, num_zero))
    as [[V1 d1]| |]; cbn [bind] in *; auto.
  destruct (num_lt d1 theta); auto.
  apply IH; auto. lia.
Qed.

(** Once [delta] times a power of the discount is below the threshold,
    that many further sweeps suffice. *)
Lemma sweep_loop_terminates theta (n : nat) :
  forall Xp X d,
    has_states self Xp ->
    foldM (sweep_state self update) (states self) (Xp, 0) = Ok (X, d) ->
    qpow (gamma self) n * d < theta ->
    exists V', sweep_loop self update theta (S n) X = Ok V'.
Proof.
  destruct discount as [Hg0 Hg1].
  induction n as [|n IH]; intros Xp X d HXp E Hsmall.
  - assert (HX : has_states self X).
    { destruct (sweep_fold_inv self update _ _ states_distinct E)
        as (_ & Hk & _). eapply has_states_keys; eauto. }
    destruct (sweep_fold_total (incl_refl _) 0 HX) as (X2 & d2 & E2).
    destruct (sweep_contracts _ E E2) as [Hd Hc].
    cbn [sweep_loop]. change (@num_zero Q Q_Number) with 0. rewrite E2.
    cbn [bind]. cbn [qpow] in Hsmall.
    assert (Hgd : gamma self * d <= 1 * d)
      by (apply Qmult_le_compat_r; [lra | exact Hd]).
    assert (Hlt : num_lt d2 theta = true) by (apply Q_num_lt_iff; lra).
    rewrite Hlt. eauto.
  - assert (HX : has_states self X).
    { destruct (sweep_fold_inv self update _ _ states_distinct E)
        as (_ & Hk & _). eapply has_states_keys; eauto. }
    destruct (sweep_fold_total (incl_refl _) 0 HX) as (X2 & d2 & E2).
    destruct (sweep_contracts _ E E2) as [Hd Hc].
    cbn [sweep_loop]. change (@num_zero Q Q_Number) with 0. rewrite E2.
    cbn [bind]. destruct (num_lt d2 theta) eqn:Hlt; [eauto|].
    apply (IH X X2 d2 HX E2).
    cbn [qpow] in Hsmall.
    assert (Hp : 0 <= qpow (gamma self) n) by (apply qpow_nonneg; exact Hg0).
    assert (Hm : qpow (gamma self) n * d2
                 <= qpow (gamma self) n * (gamma self * d))
      by (apply Q_mul_le_l; assumption).
    assert (Hr : qpow (gamma self) n * (gamma self * d)
                 == gamma self * qpow (gamma self) n * d) by ring.
    lra.
Qed.

(** From a table with the states of the model and with a positive
    threshold, the loop returns, and more sweeps change nothing. *)
Lemma sweep_loop_converges theta X0 :
  has_states self X0 -> 0 < theta ->
  exists sweeps V,
    forall n, (sweeps <= n)%nat -> sweep_loop self update theta n X0 = Ok V.
Proof.
  intros HX0 Ht.
  destruct (sweep_fold_total (incl_refl _) 0 HX0) as (X1 & d1 & E1).
  destruct (sweep_moves self update X0 states_distinct E1) as [Hd1 _].
  destruct (qpow_small discount Hd1 Ht) as (k & Hk).
  destruct (@sweep_loop_terminates theta k X0 X1 d1 HX0 E1 Hk)
    as (V' & EV').
  destruct (num_lt d1 theta) eqn:Hlt.
  - exists 1%nat, X1. intros n Hn.
    apply sweep_loop_more_fuel with (fuel := 1%nat); [|discriminate | exact Hn].
    cbn [sweep_loop]. change (@num_zero Q Q_Number) with 0. rewrite E1.
    cbn [bind]. rewrite Hlt. reflexivity.
  - exists (S (S k)), V'. intros n Hn.
    apply sweep_loop_more_fuel with (fuel := S (S k));
      [|discriminate | exact Hn].
    cbn [sweep_loop] in *. change (@num_zero Q Q_Number) with 0 in *.
    rewrite E1. cbn [bind]. rewrite Hlt. exact EV'.
Qed.

(** What the loop returns solves the fixed-point equation of the update
    to within [gamma * theta]. *)
Lemma sweep_loop_residual theta fuel X0 V :
  has_states self X0 ->
  sweep_loop self update theta fuel X0 = Ok V ->
  0 < theta /\ has_states self V
  /\ forall x, In x (states self) -> is_terminal self x = false ->
       exists v, update V x = Ok v
                 /\ Qabs (v - value_at V x) <= gamma self * theta.
Proof.
  destruct discount as [Hg0 Hg1].
  revert X0. induction fuel as [|fuel IH]; intros X0 HX0 E;
    cbn [sweep_loop] in E; [discriminate|].
  apply bind_Ok in E as ([X1 d1] & E1 & E).
  change (@num_zero Q Q_Number) with 0 in E1.
  destruct (sweep_fold_inv self update _ _ states_distinct E1)
    as (_ & Hkeys & _ & _ & _ & Hres).
  assert (HX1 : has_states self X1) by (eapply has_states_keys; eauto).
  destruct (num_lt d1 theta) eqn:Hlt; [|eapply IH; eauto].
  inv_Ok E. apply Q_num_lt_iff in Hlt.
  destruct (sweep_moves self update X0 states_distinct E1) as [Hd1 Hmove].
  split; [lra|]. split; [exact HX1|].
  intros x Hx T. destruct (Hres x Hx T) as (W & EW & HW).
  destruct (update_total V x HX1 Hx T) as (v & Ev).
  exists v. split; [exact Ev|].
  assert (Hnear : forall s', Qabs (value_at V s' - value_at W s') <= d1).
  { intros s'. destruct (HW s') as [-> | ->].
    - setoid_replace (value_at V s' - value_at V s') with 0 by ring.
      exact Hd1.
    - apply Hmove. }
  pose proof (@update_lipschitz W V x _ v d1 Hx T Hd1 Hnear EW Ev) as Hlip.
  assert (gamma self * d1 <= gamma self * theta)
    by (apply Q_mul_le_l; lra).
  lra.
Qed.

End SweepConvergence.

(* ================================================================== *)
(** * The two sweeps as instances of the sweep operator *)
(* ================================================================== *)

Section TotalLoops.
Context {A B : Type}.

Lemma bind_ext (r : result A) (k k' : A -> result B) :
  (forall x, k x = k' x) -> bind r k = bind r k'.
Proof. intros Hk. destruct r; cbn [bind]; auto. Qed.

Lemma foldM_ext (f g : A -> B -> result A) (l : list B) (a : A) :
  (forall a0 b, f a0 b = g a0 b) -> foldM f l a = foldM g l a.
Proof.
  intros Hfg. revert a. induction l as [|b l IH]; intros a; cbn [foldM];
    [reflexivity|].
  rewrite Hfg. destruct (g a b); cbn [bind]; auto.
Qed.

Lemma foldM_total (f : A -> B -> result A) (l : list B) (a : A) :
  (forall a0 b, In b l -> exists a', f a0 b = Ok a') ->
  exists r, foldM f l a = Ok r.
Proof.
  revert a. induction l as [|b l IH]; intros a Hf; cbn [foldM]; [eauto|].
  destruct (Hf a b) as (a' & ->); [left; reflexivity|]. cbn [bind].
  apply IH. intros a0 b0 Hb0. apply Hf. right; exact Hb0.
Qed.

Lemma mapM_total (f : A -> result B) (l : list A) :
  (forall x, In x l -> exists y, f x = Ok y) ->
  exists r, mapM f l = Ok r /\ List.length r = List.length l.
Proof.
  induction l as [|x l IH]; intros Hf; cbn [mapM]; [exists []; auto|].
  destruct (Hf x) as (y & ->); [left; reflexivity|]. cbn [bind].
  destruct IH as (r & -> & Hlen); [intros x0 Hx0; apply Hf; right; exact Hx0|].
  cbn [bind]. exists (y :: r). split; [reflexivity | simpl; congruence].
Qed.

End TotalLoops.

Section SweepInstances.
Context {State Action : Type} `{Hashable State} `{Hashable Action}.
Variable self : MDP State Action Q.
Open Scope Q_scope.

Lemma eval_state_sweep policy st s :
  eval_state self policy st s
  = sweep_state self (eval_update self policy) st s.
Proof.
  destruct st as [V delta]. unfold eval_state, sweep_state, eval_update.
  destruct (is_terminal self s); [reflexivity|].
  destruct (getitem s policy) as [[a|]| |]; cbn [bind]; reflexivity.
Qed.

Lemma eval_loop_sweep policy theta fuel V :
  eval_loop self policy theta fuel V
  = sweep_loop self (eval_update self policy) theta fuel V.
Proof.
  revert V. induction fuel as [|fuel IH]; intros V;
    cbn [eval_loop sweep_loop]; [reflexivity|].
  unfold eval_sweep.
  rewrite (foldM_ext _ _ (states self) (V, num_zero)
             (eval_state_sweep policy)).
  apply bind_ext. intros [V1 d1].
  destruct (num_lt d1 theta); [reflexivity | apply IH].
Qed.

Lemma vi_loop_sweep theta fuel V :
  vi_loop self theta fuel V = sweep_loop self (best_value self) theta fuel V.
Proof.
  revert V. induction fuel as [|fuel IH]; intros V;
    cbn [vi_loop sweep_loop]; [reflexivity|].
  unfold vi_sweep.
  rewrite (foldM_ext (vi_state self) (sweep_state self (best_value self))
             (states self) (V, num_zero));
    [|intros [V0 d0] s0; reflexivity].
  apply bind_ext. intros [V1 d1].
  destruct (num_lt d1 theta); [reflexivity | apply IH].
Qed.

Hypothesis discount : 0 <= gamma self < 1.
Hypothesis kernel : kernel_valid self.

(** Backups of value functions that differ by at most [K] on the
    successors differ by at most [gamma * K]. *)
Lemma backup_lipschitz r (A B : State -> Q) tr K :
  (forall t, In t tr -> 0 <= fst t /\ Qabs (B (snd t) - A (snd t)) <= K) ->
  qsum (map fst tr) == 1 ->
  Qabs (backup (gamma self) r B tr - backup (gamma self) r A tr)
  <= gamma self * K.
Proof.
  destruct discount as [Hg0 _]. intros Hall Hsum.
  pose proof (backup_diff (gamma self) r B A tr) as HBA.
  pose proof (backup_diff (gamma self) r A B tr) as HAB.
  assert (S1 : qsum (map (fun t => fst t * (B (snd t) - A (snd t))) tr)
               <= K * qsum (map fst tr)).
  { apply (weighted_sum_le (fun s' => B s' - A s')).
    intros t Ht. destruct (Hall t Ht) as [Hp Hab].
    apply Qabs_Qle_condition in Hab. split; [exact Hp | lra]. }
  assert (S2 : qsum (map (fun t => fst t * (A (snd t) - B (snd t))) tr)
               <= K * qsum (map fst tr)).
  { apply (weighted_sum_le (fun s' => A s' - B s')).
    intros t Ht. destruct (Hall t Ht) as [Hp Hab].
    apply Qabs_Qle_condition in Hab. split; [exact Hp | lra]. }
  rewrite Hsum in S1, S2.
  set (bA := backup (gamma self) r A tr) in *.
  set (bB := backup (gamma self) r B tr) in *.
  set (s1 := qsum (map (fun t => fst t * (B (snd t) - A (snd t))) tr)) in *.
  set (s2 := qsum (map (fun t => fst t * (A (snd t) - B (snd t))) tr)) in *.
  assert (G1 : gamma self * s1 <= gamma self * K)
    by (apply Q_mul_le_l; lra).
  assert (G2 : gamma self * s2 <= gamma self * K)
    by (apply Q_mul_le_l; lra).
  apply Qabs_Qle_condition. split; lra.
Qed.

Lemma lookahead_lipschitz X1 X2 y a v1 v2 K :
  In y (states self) -> is_terminal self y = false -> In a (actions self) ->
  (forall s', Qabs (value_at X2 s' - value_at X1 s') <= K) ->
  lookahead self X1 y a = Ok v1 -> lookahead self X2 y a = Ok v2 ->
  Qabs (v2 - v1) <= gamma self * K.
Proof.
  intros Hy T Ha Hnear E1 E2.
  destruct (lookahead_backup self X1 y a E1) as (tr & Etr & H1).
  destruct (lookahead_backup self X2 y a E2) as (tr' & Etr' & H2).
  assert (tr' = tr) by congruence. subst tr'.
  destruct (kernel y a Hy T Ha Etr) as [Htr Hsum].
  rewrite H1, H2. apply backup_lipschitz; [|exact Hsum].
  intros t Ht. split; [apply Htr; exact Ht | apply Hnear].
Qed.

Lemma eval_update_Ok policy W y v :
  eval_update self policy W y = Ok v ->
  exists a, dict_get y policy = Some (Some a) /\ lookahead self W y a = Ok v.
Proof.
  unfold eval_update. intros E. apply bind_Ok in E as (a & Ea & E).
  apply getitem_Ok in Ea. destruct a as [a|]; [eauto|].
  apply bind_Ok in E as (Ps & _ & E). discriminate.
Qed.

Lemma eval_update_lipschitz policy :
  policy_valid self policy ->
  forall X1 X2 y v1 v2 K,
    In y (states self) -> is_terminal self y = false -> 0 <= K ->
    (forall s', Qabs (value_at X2 s' - value_at X1 s') <= K) ->
    eval_update self policy X1 y = Ok v1 ->
    eval_update self policy X2 y = Ok v2 ->
    Qabs (v2 - v1) <= gamma self * K.
Proof.
  intros Hpv X1 X2 y v1 v2 K Hy T HK Hnear E1 E2.
  apply eval_update_Ok in E1 as (a & Ea & E1).
  apply eval_update_Ok in E2 as (a' & Ea' & E2).
  assert (a' = a) by congruence. subst a'.
  apply (@lookahead_lipschitz X1 X2 y a v1 v2 K Hy T (Hpv y a Ea) Hnear E1 E2).
Qed.

Lemma best_value_lipschitz :
  forall X1 X2 y v1 v2 K,
    In y (states self) -> is_terminal self y = false -> 0 <= K ->
    (forall s', Qabs (value_at X2 s' - value_at X1 s') <= K) ->
    best_value self X1 y = Ok v1 -> best_value self X2 y = Ok v2 ->
    Qabs (v2 - v1) <= gamma self * K.
Proof.
  intros X1 X2 y v1 v2 K Hy T HK Hnear E1 E2.
  destruct (best_value_spec self X1 y E1) as [(a1 & Ha1 & L1) M1].
  destruct (best_value_spec self X2 y E2) as [(a2 & Ha2 & L2) M2].
  destruct (M1 a2 Ha2) as (q1 & Lq1 & Hq1).
  destruct (M2 a1 Ha1) as (q2 & Lq2 & Hq2).
  apply Q_num_lt_false_iff in Hq1, Hq2.
  pose proof (@lookahead_lipschitz X1 X2 y a2 q1 v2 K Hy T Ha2 Hnear Lq1 L2)
    as B1.
  pose proof (@lookahead_lipschitz X1 X2 y a1 v1 q2 K Hy T Ha1 Hnear L1 Lq2)
    as B2.
  apply Qabs_Qle_condition in B1, B2. apply Qabs_Qle_condition.
  split; lra.
Qed.

Hypothesis complete : tables_complete self.

Lemma sum_terms_total W s a r acc tr :
  dict_get2 s a (R self) = Some r ->
  (forall t, In t tr -> dict_get (snd t) W <> None) ->
  exists q, sum_terms self W s a acc tr = Ok q.
Proof.
  intros Er. unfold dict_get2 in Er.
  destruct (dict_get s (R self)) as [Rs|] eqn:ERs; [|discriminate].
  revert acc. induction tr as [|[p s'] tr IH]; intros acc Hall;
    cbn [sum_terms]; [eauto|].
  unfold getitem at 1. rewrite ERs. cbn [bind].
  unfold getitem at 1. rewrite Er. cbn [bind].
  destruct (dict_get s' W) as [v|] eqn:Ev;
    [|exfalso; apply (Hall (p, s')); [left; reflexivity | exact Ev]].
  unfold getitem at 1. rewrite Ev. cbn [bind].
  apply IH. intros t Ht. apply Hall. right; exact Ht.
Qed.

Lemma lookahead_total W s a :
  has_states self W ->
  In s (states self) -> is_terminal self s = false -> In a (actions self) ->
  exists q, lookahead self W s a = Ok q.
Proof.
  intros HW Hs T Ha. destruct (complete s a Hs T Ha) as [HP HR].
  destruct (dict_get2 s a (P self)) as [tr|] eqn:Etr; [|congruence].
  destruct (dict_get2 s a (R self)) as [r|] eqn:Er; [|congruence].
  destruct (kernel s a Hs T Ha Etr) as [Htr _].
  unfold lookahead. unfold dict_get2 in Etr.
  destruct (dict_get s (P self)) as [Ps|] eqn:EPs; [|discriminate].
  unfold getitem at 1. rewrite EPs. cbn [bind].
  unfold getitem at 1. rewrite Etr. cbn [bind].
  apply sum_terms_total with (r := r); [exact Er|].
  intros t Ht. apply HW. apply Htr; exact Ht.
Qed.

Lemma eval_update_total policy :
  policy_valid self policy -> policy_complete self policy ->
  forall W y,
    has_states self W -> In y (states self) -> is_terminal self y = false ->
    exists v, eval_update self policy W y = Ok v.
Proof.
  intros Hpv Hpc W y HW Hy T. destruct (Hpc y Hy T) as (a & Ea).
  unfold eval_update, getitem. rewrite Ea. cbn [bind].
  apply lookahead_total; auto. exact (Hpv y a Ea).
Qed.

Hypothesis some_action : actions self <> [].

Lemma best_value_total :
  forall W y,
    has_states self W -> In y (states self) -> is_terminal self y = false ->
    exists v, best_value self W y = Ok v.
Proof.
  intros W y HW Hy T. unfold best_value.
  destruct (mapM_total (lookahead self W y) (actions self))
    as (qs & -> & Hlen).
  { intros a Ha. apply lookahead_total; assumption. }
  cbn [bind]. unfold max_of, max_by. destruct qs as [|q qs]; [|eauto].
  destruct (actions self); [congruence | discriminate].
Qed.

Lemma best_action_total :
  forall W y,
    has_states self W -> In y (states self) -> is_terminal self y = false ->
    exists a, best_action self W y = Ok a.
Proof.
  intros W y HW Hy T. unfold best_action.
  destruct (mapM_total (fun a => q <- lookahead self W y a ;; Ok (a, q))
              (actions self)) as (keyed & -> & Hlen).
  { intros a Ha. destruct (@lookahead_total W y a HW Hy T Ha) as (q & ->).
    cbn [bind]. eauto. }
  cbn [bind]. unfold max_by. destruct keyed as [|k keyed].
  - destruct (actions self); [congruence | discriminate].
  - cbn [bind]. eauto.
Qed.

Lemma derive_policy_total W :
  has_states self W -> exists policy, derive_policy self W = Ok policy.
Proof.
  intros HW. unfold derive_policy. apply foldM_total.
  intros p s Hs. unfold derive_state. destruct (is_terminal self s) eqn:T;
    [eauto|].
  destruct (@best_action_total W s HW Hs T) as (a & ->). cbn [bind]. eauto.
Qed.

End SweepInstances.

(* ================================================================== *)
(** * Convergence and accuracy of the two sweeps, on exact numbers *)
(* ================================================================== *)

Section MaxGap.
Context {State : Type}.
Open Scope Q_scope.

(** A gap that, at every listed state, is at most [c] plus [g] times any
    bound of the gaps of the listed states, is at most [c / (1 - g)]. *)
Lemma max_gap_bound (l : list State) (D : State -> Q) (g c : Q) :
  0 <= g < 1 ->
  (forall x M, In x l -> (forall s, In s l -> D s <= M) -> D x <= c + g * M) ->
  forall s, In s l -> (1 - g) * D s <= c.
Proof.
  intros [Hg0 Hg1] Hstep s Hs.
  destruct (@list_argmax State D l) as (m & Hm & Hmax).
  { intros ->. destruct Hs. }
  pose proof (Hstep m (D m) Hm Hmax) as Hbound.
  assert (Hle : (1 - g) * D s <= (1 - g) * D m)
    by (apply Q_mul_le_l; [lra | apply Hmax; exact Hs]).
  assert (Hring : (1 - g) * D m == D m - g * D m) by ring.
  lra.
Qed.

End MaxGap.

(** [chain] and the cautious policy meet the hypotheses of the statements
    below. *)
Lemma chain_states_distinct : NoDup (states Examples.chain).
Proof.
  simpl. repeat constructor; simpl; intuition discriminate.
Qed.

Lemma chain_discount : (0 <= gamma Examples.chain < 1)%Q.
Proof. split; [discriminate | reflexivity]. Qed.

Lemma chain_kernel_valid : kernel_valid Examples.chain.
Proof.
  intros s a tr Hs _ Ha E. simpl in Hs, Ha.
  destruct Hs as [<-|[<-|[<-|[]]]]; destruct Ha as [<-|[<-|[]]];
    cbv in E; inv_Ok E; (split; [|reflexivity]);
    intros t Ht; simpl in Ht;
    repeat (destruct Ht as [<-|Ht]; [split; [discriminate | simpl; auto 6]|]);
    destruct Ht.
Qed.

Lemma chain_tables_complete : tables_complete Examples.chain.
Proof.
  intros s a Hs _ Ha. simpl in Hs, Ha.
  destruct Hs as [<-|[<-|[<-|[]]]]; destruct Ha as [<-|[<-|[]]];
    split; vm_compute; discriminate.
Qed.

Lemma chain_cautious_policy_valid :
  policy_valid Examples.chain Examples.cautious_policy.
Proof.
  intros s a E. unfold Examples.cautious_policy in E. simpl in E.
  repeat match type of E with
         | context [if ?c then _ else _] => destruct c
         end; inv_Ok E; simpl; auto.
Qed.

Lemma chain_cautious_policy_complete :
  policy_complete Examples.chain Examples.cautious_policy.
Proof.
  intros s Hs T. simpl in Hs. destruct Hs as [<-|[<-|[<-|[]]]].
  - exists "a0"%string. reflexivity.
  - exists "a1"%string. reflexivity.
  - vm_compute in T. discriminate.
Qed.

Lemma chain_cautious_evaluates :
  evaluates Examples.chain Examples.cautious_policy Examples.cautious_values.
Proof.
  intros s Hs. simpl in Hs. destruct Hs as [<-|[<-|[<-|[]]]].
  - replace (is_terminal Examples.chain "s0"%string) with false
      by (vm_compute; reflexivity).
    exists "a0"%string, [((8 # 10)%Q, "s0"%string); ((2 # 10)%Q, "s1"%string)].
    split; [reflexivity|]. split; [reflexivity|]. vm_compute. reflexivity.
  - replace (is_terminal Examples.chain "s1"%string) with false
      by (vm_compute; reflexivity).
    exists "a1"%string, [(1%Q, "s2"%string)].
    split; [reflexivity|]. split; [reflexivity|]. vm_compute. reflexivity.
  - replace (is_terminal Examples.chain "s2"%string) with true
      by (vm_compute; reflexivity).
    vm_compute. reflexivity.
Qed.

Lemma chain_optimal_values_optimal :
  optimal Examples.chain Examples.chain_optimal_values.
Proof.
  intros s Hs. simpl in Hs. destruct Hs as [<-|[<-|[<-|[]]]].
  - replace (is_terminal Examples.chain "s0"%string) with false
      by (vm_compute; reflexivity).
    split.
    + exists "a1"%string,
        [((5 # 10)%Q, "s1"%string); ((5 # 10)%Q, "s2"%string)].
      split; [simpl; auto|]. split; [reflexivity|]. vm_compute. reflexivity.
    + intros a tr Ha E. simpl in Ha. destruct Ha as [<-|[<-|[]]];
        cbv in E; inv_Ok E; apply Qle_bool_iff; vm_compute; reflexivity.
  - replace (is_terminal Examples.chain "s1"%string) with false
      by (vm_compute; reflexivity).
    split.
    + exists "a1"%string, [(1%Q, "s2"%string)].
      split; [simpl; auto|]. split; [reflexivity|]. vm_compute. reflexivity.
    + intros a tr Ha E. simpl in Ha. destruct Ha as [<-|[<-|[]]];
        cbv in E; inv_Ok E; apply Qle_bool_iff; vm_compute; reflexivity.
  - replace (is_terminal Examples.chain "s2"%string) with true
      by (vm_compute; reflexivity).
    vm_compute. reflexivity.
Qed.

(** X9.  On exact numbers, [policy_evaluation] returns for every positive
    threshold: for a model with distinct states, a discount in [[0, 1)],
    a valid kernel and complete tables, and a policy that gives every
    non-terminal state an action of the model, there are a number of
    sweeps and a value function such that the [while True] loop exits
    with that value function once it is allowed that many sweeps. *)
Theorem policy_evaluation_converges
    {State Action : Type} `{Hashable State} `{Hashable Action}
    (self : MDP State Action Q) (policy : dict State (option Action))
    (theta : Q) :
  NoDup (states self) ->
  (0 <= gamma self < 1)%Q ->
  kernel_valid self -> tables_complete self ->
  policy_valid self policy -> policy_complete self policy ->
  (0 < theta)%Q ->
  exists sweeps V,
    forall n, sweeps <= n -> policy_evaluation self n policy theta = Ok V.
Proof.
  intros Hnd Hg Hk Hc Hpv Hpc Ht.
  destruct (@sweep_loop_converges State Action _ self
              (eval_update self policy) Hnd Hg
              (@eval_update_lipschitz State Action _ _ self Hg Hk policy Hpv)
              (@eval_update_total State Action _ _ self Hk Hc policy Hpv Hpc)
              theta (dict_fromkeys (states self) 0%Q))
    as (sweeps & V & Hn).
  - intros s Hs. apply dict_fromkeys_has_key. exact Hs.
  - exact Ht.
  - exists sweeps, V. intros n Hle. unfold policy_evaluation.
    rewrite eval_loop_sweep. apply Hn. exact Hle.
Qed.

Lemma policy_evaluation_converges_witness :
  exists sweeps V,
    forall n, sweeps <= n ->
      policy_evaluation Examples.chain n Examples.cautious_policy
        Examples.theta_default = Ok V.
Proof.
  apply (@policy_evaluation_converges string string _ _ Examples.chain
           Examples.cautious_policy Examples.theta_default
           chain_states_distinct chain_discount chain_kernel_valid
           chain_tables_complete chain_cautious_policy_valid
           chain_cautious_policy_complete).
  reflexivity.
Defined.

(** X10.  On exact numbers, [value_iteration] returns for every positive
    threshold: for a model with distinct states, at least one action, a
    discount in [[0, 1)], a valid kernel and complete tables, there are a
    number of sweeps, a value function and a policy such that the call
    returns that pair once its loop is allowed that many sweeps. *)
Theorem value_iteration_converges
    {State Action : Type} `{Hashable State} `{Hashable Action}
    (self : MDP State Action Q) (theta : Q) :
  NoDup (states self) -> actions self <> [] ->
  (0 <= gamma self < 1)%Q ->
  kernel_valid self -> tables_complete self ->
  (0 < theta)%Q ->
  exists sweeps V policy,
    forall n, sweeps <= n -> value_iteration self n theta = Ok (V, policy).
Proof.
  intros Hnd Hact Hg Hk Hc Ht.
  assert (H0s : has_states self (dict_fromkeys (states self) 0%Q))
    by (intros s Hs; apply dict_fromkeys_has_key; exact Hs).
  destruct (@sweep_loop_converges State Action _ self (best_value self)
              Hnd Hg
              (@best_value_lipschitz State Action _ _ self Hg Hk)
              (@best_value_total State Action _ _ self Hk Hc Hact)
              theta (dict_fromkeys (states self) 0%Q) H0s Ht)
    as (sweeps & V & Hn).
  destruct (@sweep_loop_residual State Action _ self (best_value self)
              Hnd Hg
              (@best_value_lipschitz State Action _ _ self Hg Hk)
              (@best_value_total State Action _ _ self Hk Hc Hact)
              theta sweeps (dict_fromkeys (states self) 0%Q) V H0s
              (Hn sweeps (le_n sweeps)))
    as (_ & HV & _).
  destruct (@derive_policy_total State Action _ _ self Hk Hc Hact V HV)
    as (policy & Ep).
  exists sweeps, V, policy. intros n Hle. unfold value_iteration.
  rewrite vi_loop_sweep.
  change (@num_zero Q Q_Number) with 0%Q. rewrite (Hn n Hle). cbn [bind].
  rewrite Ep. reflexivity.
Qed.

Lemma value_iteration_converges_witness :
  exists sweeps V policy,
    forall n, sweeps <= n ->
      value_iteration Examples.chain n Examples.theta_default
      = Ok (V, policy).
Proof.
  apply (@value_iteration_converges string string _ _ Examples.chain
           Examples.theta_default chain_states_distinct).
  - discriminate.
  - exact chain_discount.
  - exact chain_kernel_valid.
  - exact chain_tables_complete.
  - reflexivity.
Defined.

(** X11.  On exact numbers, what [policy_evaluation] returns is within
    [gamma * theta / (1 - gamma)] of the exact value of the policy: for
    a model with distinct states, a discount in [[0, 1)] and a valid
    kernel, a policy whose actions are actions of the model, and any
    [U] that solves the Bellman equation of the policy, every state of
    the model has [(1 - gamma) * |V[s] - U(s)| <= gamma * theta]. *)
Theorem policy_evaluation_accuracy
    {State Action : Type} `{Hashable State} `{Hashable Action}
    (self : MDP State Action Q) (sweeps : nat)
    (policy : dict State (option Action)) (theta : Q)
    (V : dict State Q) (U : State -> Q) :
  NoDup (states self) ->
  (0 <= gamma self < 1)%Q ->
  kernel_valid self -> policy_valid self policy ->
  policy_evaluation self sweeps policy theta = Ok V ->
  evaluates self policy U ->
  forall s, In s (states self) ->
    ((1 - gamma self) * Qabs (value_at V s - U s) <= gamma self * theta)%Q.
Proof.
  intros Hnd Hg Hk Hpv E HU.
  destruct (@policy_evaluation_residual State Action _ _ self sweeps policy
              theta V Hnd (proj1 Hg) Hk E) as [Ht Hres].
  apply (@max_gap_bound State (states self)
           (fun s => Qabs (value_at V s - U s)) (gamma self)
           (gamma self * theta)%Q Hg).
  intros x M Hx HM. cbv beta.
  assert (HM0 : (0 <= M)%Q)
    by (eapply Qle_trans; [apply Qabs_nonneg | apply (HM x Hx)]).
  assert (HgM : (0 <= gamma self * M)%Q)
    by (apply Qmult_le_0_compat; [exact (proj1 Hg) | exact HM0]).
  assert (Hgt : (0 <= gamma self * theta)%Q)
    by (apply Qmult_le_0_compat; [exact (proj1 Hg) | lra]).
  specialize (HU x Hx). destruct (is_terminal self x) eqn:T.
  - unfold value_at.
    rewrite (@policy_evaluation_terminal State Action Q _ _ _ self x T
               sweeps policy theta V Hx E).
    change (@num_zero Q Q_Number) with 0%Q.
    apply Qabs_Qle_condition. split; lra.
  - destruct HU as (a & tr & Ea & Etr & HUx).
    destruct (Hres x Hx T) as (a' & tr' & Ea' & Etr' & Hb).
    assert (a' = a) by congruence. subst a'.
    assert (tr' = tr) by congruence. subst tr'.
    pose proof (Hpv x a Ea) as Ha.
    destruct (Hb Ha) as [Hlo Hhi].
    destruct (Hk x a tr Hx T Ha Etr) as [Htr Hsum].
    pose proof (@backup_lipschitz State Action self Hg (reward_at self x a)
                  U (value_at V) tr M) as HL.
    assert (HLip : (Qabs (backup (gamma self) (reward_at self x a)
                            (value_at V) tr
                          - backup (gamma self) (reward_at self x a) U tr)
                    <= gamma self * M)%Q).
    { apply HL; [|exact Hsum]. intros t Ht'.
      split; [apply Htr; exact Ht'|]. apply HM. apply Htr. exact Ht'. }
    apply Qabs_Qle_condition in HLip. apply Qabs_Qle_condition.
    split; lra.
Qed.

Lemma policy_evaluation_accuracy_witness :
  exists V,
    policy_evaluation Examples.chain 40 Examples.cautious_policy
      Examples.theta_coarse = Ok V
    /\ ((1 - gamma Examples.chain)
        * Qabs (value_at V "s0"%string - (9 # 7))
        <= gamma Examples.chain * Examples.theta_coarse)%Q.
Proof.
  run_of (policy_evaluation Examples.chain 40 Examples.cautious_policy
            Examples.theta_coarse) ipattern:([V| |]) E.
  exists V. split; [reflexivity|].
  apply (@policy_evaluation_accuracy string string _ _ Examples.chain 40
           Examples.cautious_policy Examples.theta_coarse V
           Examples.cautious_values chain_states_distinct chain_discount
           chain_kernel_valid chain_cautious_policy_valid E
           chain_cautious_evaluates "s0"%string).
  simpl; auto.
Defined.

(** X12.  On exact numbers, the value function [value_iteration] returns
    is within [gamma * theta / (1 - gamma)] of the optimal one: for a
    model with distinct states, at least one action, a discount in
    [[0, 1)], a valid kernel and complete tables, and any [U] that solves
    the Bellman optimality equation, every state of the model has
    [(1 - gamma) * |V[s] - U(s)| <= gamma * theta]. *)
Theorem value_iteration_accuracy
    {State Action : Type} `{Hashable State} `{Hashable Action}
    (self : MDP State Action Q) (sweeps : nat) (theta : Q)
    (V : dict State Q) (policy : dict State (option Action))
    (U : State -> Q) :
  NoDup (states self) -> actions self <> [] ->
  (0 <= gamma self < 1)%Q ->
  kernel_valid self -> tables_complete self ->
  value_iteration self sweeps theta = Ok (V, policy) ->
  optimal self U ->
  forall s, In s (states self) ->
    ((1 - gamma self) * Qabs (value_at V s - U s) <= gamma self * theta)%Q.
Proof.
  intros Hnd Hact Hg Hk Hc E HU.
  unfold value_iteration in E. apply bind_Ok in E as (V0 & EV & E).
  apply bind_Ok in E as (p0 & _ & E). inv_Ok E.
  assert (H0s : has_states self (dict_fromkeys (states self) 0%Q))
    by (intros s Hs; apply dict_fromkeys_has_key; exact Hs).
  pose proof EV as EV'. rewrite vi_loop_sweep in EV'.
  destruct (@sweep_loop_residual State Action _ self (best_value self)
              Hnd Hg
              (@best_value_lipschitz State Action _ _ self Hg Hk)
              (@best_value_total State Action _ _ self Hk Hc Hact)
              theta sweeps (dict_fromkeys (states self) 0%Q) V H0s EV')
    as (Ht & _ & Hres).
  apply (@max_gap_bound State (states self)
           (fun s => Qabs (value_at V s - U s)) (gamma self)
           (gamma self * theta)%Q Hg).
  intros x M Hx HM. cbv beta.
  assert (HM0 : (0 <= M)%Q)
    by (eapply Qle_trans; [apply Qabs_nonneg | apply (HM x Hx)]).
  assert (HgM : (0 <= gamma self * M)%Q)
    by (apply Qmult_le_0_compat; [exact (proj1 Hg) | exact HM0]).
  assert (Hgt : (0 <= gamma self * theta)%Q)
    by (apply Qmult_le_0_compat; [exact (proj1 Hg) | lra]).
  assert (Hnear : forall a tr,
             In a (actions self) -> dict_get2 x a (P self) = Some tr ->
             is_terminal self x = false ->
             (Qabs (backup (gamma self) (reward_at self x a) (value_at V) tr
                    - backup (gamma self) (reward_at self x a) U tr)
              <= gamma self * M)%Q).
  { intros a tr Ha Etr T.
    destruct (Hk x a tr Hx T Ha Etr) as [Htr Hsum].
    apply (@backup_lipschitz State Action self Hg (reward_at self x a)
             U (value_at V) tr M); [|exact Hsum].
    intros t Ht'. split; [apply Htr; exact Ht'|].
    apply HM. apply Htr. exact Ht'. }
  specialize (HU x Hx). destruct (is_terminal self x) eqn:T.
  - unfold value_at.
    rewrite (@vi_loop_terminal State Action Q _ _ _ self x T theta sweeps
               _ V EV).
    rewrite (dict_get_fromkeys (states self) num_zero x Hx).
    change (@num_zero Q Q_Number) with 0%Q.
    apply Qabs_Qle_condition. split; lra.
  - destruct HU as [(a2 & tr2 & Ha2 & Etr2 & HUx) HUmax].
    destruct (Hres x Hx T) as (v & Ev & Hv).
    destruct (@best_value_spec State Action Q _ _ _ self _ V x v Ev)
      as [(a1 & Ha1 & L1) Mx].
    destruct (@lookahead_backup State Action _ _ self V x a1 v L1)
      as (tr1 & Etr1 & Hv1).
    destruct (Mx a2 Ha2) as (q2 & L2 & Hq2).
    apply Q_num_lt_false_iff in Hq2.
    destruct (@lookahead_backup State Action _ _ self V x a2 q2 L2)
      as (tr2' & Etr2' & Hq2').
    assert (tr2' = tr2) by congruence. subst tr2'.
    pose proof (HUmax a1 tr1 Ha1 Etr1) as Hup.
    pose proof (Hnear a1 tr1 Ha1 Etr1 eq_refl) as N1.
    pose proof (Hnear a2 tr2 Ha2 Etr2 eq_refl) as N2.
    apply Qabs_Qle_condition in Hv, N1, N2. apply Qabs_Qle_condition.
    split; lra.
Qed.

Lemma value_iteration_accuracy_witness :
  exists V policy,
    value_iteration Examples.chain 60 Examples.theta_coarse = Ok (V, policy)
    /\ ((1 - gamma Examples.chain)
        * Qabs (value_at V "s0"%string - (19 # 10))
        <= gamma Examples.chain * Examples.theta_coarse)%Q.
Proof.
  run_of (value_iteration Examples.chain 60 Examples.theta_coarse)
    ipattern:([[V policy]| |]) E.
  exists V, policy. split; [reflexivity|].
  assert (Hact : actions Examples.chain <> []) by discriminate.
  apply (@value_iteration_accuracy string string _ _ Examples.chain 60
           Examples.theta_coarse V policy Examples.chain_optimal_values
           chain_states_distinct Hact chain_discount chain_kernel_valid
           chain_tables_complete E chain_optimal_values_optimal "s0"%string).
  simpl; auto.
Defined.

(* ================================================================== *)
(** * The Simulator away from terminal states *)
(* ================================================================== *)

Section BisectBounds.
Context {N : Type} `{Number N}.

(** The binary search stays within the bounds it is given. *)
Lemma bisect_right_bounds (a : list N) (x : N) (fuel : nat) :
  forall lo hi, lo <= hi -> lo <= bisect_right fuel a x lo hi <= hi.
Proof.
  induction fuel as [|fuel IH]; intros lo hi Hle; cbn [bisect_right]; [lia|].
  destruct (lo <? hi) eqn:Hlt; [|lia].
  apply Nat.ltb_lt in Hlt.
  assert (Hmid : lo <= (lo + hi) / 2 < hi).
  { pose proof (Nat.div_mod_eq (lo + hi) 2) as Hdm.
    pose proof (Nat.mod_upper_bound (lo + hi) 2) as Hmu. lia. }
  destruct (num_lt x (nth ((lo + hi) / 2) a num_zero)).
  - destruct (IH lo ((lo + hi) / 2)); lia.
  - destruct (IH ((lo + hi) / 2 + 1) hi); lia.
Qed.

End BisectBounds.

Section WeightedChoice.
Context {G N : Type} `{Number N} `{RandomSource G N}.

(** What a weighted choice that returns has checked and drawn. *)
Lemma choices1_Ok {A : Type} (population : list A) (weights : list N)
    (g g' : G) (x : A) :
  choices1 population weights g = Ok (x, g') ->
  let total := num_add (last (accumulate weights) num_zero) num_zero in
  let i := bisect_right (List.length population) (accumulate weights)
             (num_mul (fst (rng_random g)) total) 0
             (List.length population - 1) in
  List.length (accumulate weights) = List.length population
  /\ num_le total num_zero = false
  /\ i < List.length population
  /\ nth_error population i = Some x
  /\ g' = snd (rng_random g).
Proof.
  unfold choices1. destruct population as [|x0 pop]; [discriminate|].
  set (population := x0 :: pop).
  destruct (List.length (accumulate weights) =? List.length population)
    eqn:Hlen; cbn [negb]; [|discriminate].
  apply Nat.eqb_eq in Hlen.
  set (total := num_add (last (accumulate weights) num_zero) num_zero).
  destruct (num_le total num_zero) eqn:Hle; [discriminate|].
  destruct (num_isfinite total); cbn [negb]; [|discriminate].
  destruct (rng_random g) as [u g1] eqn:Eg. cbn [fst snd].
  set (i := bisect_right (List.length population) (accumulate weights)
              (num_mul u total) 0 (List.length population - 1)).
  intros E.
  assert (Hi : i < List.length population).
  { pose proof (@bisect_right_bounds N _ (accumulate weights)
                  (num_mul u total) (List.length population) 0
                  (List.length population - 1) (Nat.le_0_l _)) as Hb.
    fold i in Hb. unfold population in *. cbn [List.length] in *. lia. }
  split; [exact Hlen|]. split; [reflexivity|]. split; [exact Hi|].
  split; [|congruence].
  rewrite (nth_error_nth' population x0 Hi). congruence.
Qed.

(** A weighted choice from a non-empty population fails only with
    [ValueError], when the weights do not match the population or their
    total is not a positive finite number. *)
Lemma choices1_raises {A : Type} (population : list A) (weights : list N)
    (g : G) :
  population <> [] ->
  let total := num_add (last (accumulate weights) num_zero) num_zero in
  match choices1 population weights g with
  | Ok _ => True
  | Raise e =>
      e = ValueError
      /\ (List.length (accumulate weights) <> List.length population
          \/ num_le total num_zero = true \/ num_isfinite total = false)
  | Timeout => False
  end.
Proof.
  unfold choices1. destruct population as [|x0 pop]; [congruence|].
  intros _. set (population := x0 :: pop).
  destruct (List.length (accumulate weights) =? List.length population)
    eqn:Hlen; cbn [negb].
  - set (total := num_add (last (accumulate weights) num_zero) num_zero).
    destruct (num_le total num_zero) eqn:Hle; [auto|].
    destruct (num_isfinite total) eqn:Hfin; cbn [negb]; [|auto].
    destruct (rng_random g). exact I.
  - apply Nat.eqb_neq in Hlen. auto.
Qed.

Lemma accumulate_from_length (acc : N) (l : list N) :
  List.length (accumulate_from acc l) = List.length l.
Proof.
  revert acc. induction l as [|x l IH]; intros acc; simpl; [reflexivity|].
  rewrite IH. reflexivity.
Qed.

Lemma accumulate_length (l : list N) :
  List.length (accumulate l) = List.length l.
Proof.
  destruct l as [|x l]; simpl; [reflexivity|].
  rewrite accumulate_from_length. reflexivity.
Qed.

End WeightedChoice.

Section SimulatorOutcome.
Context {State Action N G : Type}.
Context `{Hashable State} `{Hashable Action} `{Number N} `{RandomSource G N}.
Variable self : MDP State Action N.

(** What a step that returns from a non-terminal state has read and
    drawn. *)
Lemma step_nonterminal_Ok state action g next_state reward g' :
  is_terminal self state = false ->
  step self state action g = Ok (next_state, reward, g') ->
  exists tr,
    let total := num_add (last (accumulate (map fst tr)) num_zero) num_zero in
    let i := bisect_right (List.length tr) (accumulate (map fst tr))
               (num_mul (fst (rng_random g)) total) 0 (List.length tr - 1) in
    dict_get2 state action (P self) = Some tr
    /\ dict_get2 state action (R self) = Some reward
    /\ num_le total num_zero = false
    /\ i < List.length tr
    /\ nth_error (map snd tr) i = Some next_state
    /\ g' = snd (rng_random g).
Proof.
  unfold step. intros -> E.
  apply bind_Ok in E as (Ps & EPs & E). apply bind_Ok in E as (tr & Etr & E).
  apply getitem_Ok in EPs, Etr.
  destruct tr as [|t0 tr0]; [discriminate|].
  apply bind_Ok in E as ([ns g1] & Ec & E). set (tr := t0 :: tr0) in *.
  apply bind_Ok in E as (Rs & ERs & E). apply bind_Ok in E as (r & Er & E).
  apply getitem_Ok in ERs, Er. inv_Ok E.
  apply choices1_Ok in Ec. cbv zeta in Ec.
  rewrite length_map in Ec.
  destruct Ec as (_ & Hle & Hi & Hnth & Hg).
  exists tr. cbv zeta. unfold dict_get2. rewrite EPs, ERs.
  repeat (split; [assumption|]). assumption.
Qed.

End SimulatorOutcome.

(** X13.  A call of [step] that returns from a non-terminal state has
    taken one of the transitions listed in [P[state][action]]: the next
    state is the successor at some index of that list, the reward is
    [R[state][action]], and the generator has advanced by one draw of
    [random()]. *)
Theorem step_takes_a_listed_transition
    {State Action N G : Type}
    `{Hashable State} `{Hashable Action} `{Number N} `{RandomSource G N}
    (self : MDP State Action N) (state : State) (action : Action) (g : G)
    (next_state : State) (reward : N) (g' : G) :
  is_terminal self state = false ->
  step self state action g = Ok (next_state, reward, g') ->
  exists tr i,
    dict_get2 state action (P self) = Some tr
    /\ nth_error (map snd tr) i = Some next_state
    /\ dict_get2 state action (R self) = Some reward
    /\ g' = snd (rng_random g).
Proof.
  intros T E.
  destruct (step_nonterminal_Ok self state action g T E) as (tr & Htr).
  cbv zeta in Htr. destruct Htr as (HP & HR & _ & _ & Hnth & Hg).
  exists tr. eexists. repeat (split; [eassumption|]). exact Hg.
Qed.

Lemma step_takes_a_listed_transition_witness :
  exists tr i,
    dict_get2 "s0"%string "a0"%string (P Examples.chain) = Some tr
    /\ nth_error (map snd tr) i = Some "s1"%string
    /\ dict_get2 "s0"%string "a0"%string (R Examples.chain) = Some 0%Q
    /\ {| unit_draws := []; index_draws := [] |}
       = snd (rng_random {| unit_draws := [(9 # 10)%Q]; index_draws := [] |}).
Proof.
  apply (@step_takes_a_listed_transition string string Q (tape Q) _ _ _ _
           Examples.chain "s0"%string "a0"%string
           {| unit_draws := [(9 # 10)%Q]; index_draws := [] |}
           "s1"%string 0%Q {| unit_draws := []; index_draws := [] |}).
  - reflexivity.
  - vm_compute. reflexivity.
Defined.

Section SimulatorFailures.
Context {State Action N G : Type}.
Context `{Hashable State} `{Hashable Action} `{Number N} `{RandomSource G N}.
Variable self : MDP State Action N.

(** How a step from a non-terminal state can end. *)
Lemma step_nonterminal_cases state action g :
  is_terminal self state = false ->
  match step self state action g with
  | Ok _ => True
  | Raise e =>
      (e = KeyError
       /\ (dict_get2 state action (P self) = None
           \/ dict_get2 state action (R self) = None))
      \/ (e = ValueError
          /\ exists tr,
               dict_get2 state action (P self) = Some tr
               /\ (tr = []
                   \/ num_le (num_add (last (accumulate (map fst tr)) num_zero)
                                num_zero) num_zero = true
                   \/ num_isfinite (num_add (last (accumulate (map fst tr))
                                               num_zero) num_zero) = false))
  | Timeout => False
  end.
Proof.
  unfold step, dict_get2. intros ->.
  destruct (dict_get state (P self)) as [Ps|] eqn:EPs;
    unfold getitem at 1; rewrite EPs; cbn [bind]; [|left; auto].
  destruct (dict_get action Ps) as [tr|] eqn:Etr;
    unfold getitem at 1; rewrite Etr; cbn [bind]; [|left; auto].
  destruct tr as [|t0 tr0].
  { right. split; [reflexivity|]. exists []. auto. }
  cbv zeta. set (tr := t0 :: tr0) in *.
  assert (Hne : map snd tr <> []) by discriminate.
  pose proof (@choices1_raises G N _ _ State (map snd tr) (map fst tr) g Hne)
    as Hc.
  cbv zeta in Hc.
  destruct (choices1 (map snd tr) (map fst tr) g) as [[ns g1]|e1|] eqn:Ec;
    cbn [bind].
  - destruct (dict_get state (R self)) as [Rs|] eqn:ERs;
      unfold getitem at 1; rewrite ERs; cbn [bind]; [|left; auto].
    destruct (dict_get action Rs) as [r|] eqn:Er;
      unfold getitem at 1; rewrite Er; cbn [bind]; [exact I | left; auto].
  - destruct Hc as [-> Hwhy]. right. split; [reflexivity|].
    exists tr. split; [reflexivity|]. right.
    destruct Hwhy as [Hlen|Hr]; [|exact Hr].
    exfalso. apply Hlen. rewrite accumulate_length, !length_map. reflexivity.
  - destruct Hc.
Qed.

End SimulatorFailures.

(** X14.  In binary64, from a non-terminal state [step] raises nothing
    but [KeyError] and [ValueError]: [KeyError] when [P[state][action]] or
    [R[state][action]] is missing, [ValueError] when the transition list
    is empty or the total of its probabilities is not a positive finite
    number. *)
Theorem step_failures
    {State Action G : Type}
    `{Hashable State} `{Hashable Action} `{RandomSource G PrimFloat.float}
    (self : MDP State Action PrimFloat.float) (state : State)
    (action : Action) (g : G) (e : exn) :
  is_terminal self state = false ->
  step self state action g = Raise e ->
  (e = KeyError
   /\ (dict_get2 state action (P self) = None
       \/ dict_get2 state action (R self) = None))
  \/ (e = ValueError
      /\ exists tr,
           dict_get2 state action (P self) = Some tr
           /\ (tr = []
               \/ PrimFloat.leb
                    (PrimFloat.add
                       (last (accumulate (map fst tr)) PrimFloat.zero)
                       PrimFloat.zero) PrimFloat.zero = true
               \/ PrimFloat.is_finite
                    (PrimFloat.add
                       (last (accumulate (map fst tr)) PrimFloat.zero)
                       PrimFloat.zero) = false)).
Proof.
  intros T E. pose proof (step_nonterminal_cases self state action g T) as Hc.
  rewrite E in Hc. exact Hc.
Qed.

(** The statement above on a model whose only transition from ["s0"] has
    probability [0.0]: the total is not positive. *)
Lemma step_failures_witness :
  (ValueError = KeyError
   /\ (dict_get2 "s0"%string "a0"%string
         [("s0"%string, [("a0"%string, [(PrimFloat.zero, "s1"%string)])])]
       = None
       \/ dict_get2 "s0"%string "a0"%string (R Examples.dither64) = None))
  \/ (ValueError = ValueError
      /\ exists tr,
           dict_get2 "s0"%string "a0"%string
             [("s0"%string, [("a0"%string, [(PrimFloat.zero, "s1"%string)])])]
           = Some tr
           /\ (tr = []
               \/ PrimFloat.leb
                    (PrimFloat.add
                       (last (accumulate (map fst tr)) PrimFloat.zero)
                       PrimFloat.zero) PrimFloat.zero = true
               \/ PrimFloat.is_finite
                    (PrimFloat.add
                       (last (accumulate (map fst tr)) PrimFloat.zero)
                       PrimFloat.zero) = false)).
Proof.
  apply (@step_failures string string (tape PrimFloat.float) _ _ _
           {| states := states Examples.dither64;
              actions := actions Examples.dither64;
              P := [("s0"%string,
                     [("a0"%string, [(PrimFloat.zero, "s1"%string)])])];
              R := R Examples.dither64;
              gamma := gamma Examples.dither64;
              terminal_states := terminal_states Examples.dither64 |}
           "s0"%string "a0"%string Examples.silent ValueError).
  - reflexivity.
  - vm_compute. reflexivity.
Defined.

(* ================================================================== *)
(** * The Simulator samples by cumulative weight, on exact numbers *)
(* ================================================================== *)

Section CumulativeWeights.
Open Scope Q_scope.

Lemma accumulate_from_nth (l : list Q) :
  forall acc j, (j < List.length l)%nat ->
    nth j (accumulate_from acc l) 0 == acc + qsum (firstn (S j) l).
Proof.
  induction l as [|x l IH]; intros acc j Hj; cbn [List.length] in Hj; [lia|].
  cbn [accumulate_from]. destruct j as [|j].
  - cbn [nth firstn]. unfold qsum. cbn [fold_right].
    rewrite Q_add_eq. ring.
  - cbn [nth]. rewrite IH by lia.
    change (firstn (S (S j)) (x :: l)) with (x :: firstn (S j) l).
    unfold qsum. cbn [fold_right]. rewrite Q_add_eq. ring.
Qed.

Lemma accumulate_nth (l : list Q) (j : nat) :
  (j < List.length l)%nat ->
  nth j (accumulate l) 0 == qsum (firstn (S j) l).
Proof.
  destruct l as [|x l]; cbn [List.length]; intros Hj; [lia|].
  cbn [accumulate]. destruct j as [|j].
  - cbn [nth firstn]. unfold qsum. cbn [fold_right]. ring.
  - cbn [nth]. rewrite accumulate_from_nth by lia.
    change (firstn (S (S j)) (x :: l)) with (x :: firstn (S j) l).
    unfold qsum. cbn [fold_right]. ring.
Qed.

Lemma accumulate_from_last (l : list Q) :
  forall acc, last (acc :: accumulate_from acc l) 0 == acc + qsum l.
Proof.
  induction l as [|x l IH]; intros acc.
  - cbn [accumulate_from last]. unfold qsum. cbn [fold_right]. ring.
  - cbn [accumulate_from].
    change (last (acc :: num_add acc x :: accumulate_from (num_add acc x) l) 0)
      with (last (num_add acc x :: accumulate_from (num_add acc x) l) 0).
    rewrite IH. unfold qsum. cbn [fold_right]. rewrite Q_add_eq. ring.
Qed.

Lemma accumulate_last (l : list Q) : last (accumulate l) 0 == qsum l.
Proof.
  destruct l as [|x l]; [reflexivity|].
  cbn [accumulate]. rewrite accumulate_from_last.
  unfold qsum. cbn [fold_right]. ring.
Qed.

Lemma qsum_firstn_S (l : list Q) :
  forall j, (j < List.length l)%nat ->
    qsum (firstn (S j) l) == qsum (firstn j l) + nth j l 0.
Proof.
  induction l as [|x l IH]; intros j Hj; cbn [List.length] in Hj; [lia|].
  destruct j as [|j].
  - cbn [firstn nth]. unfold qsum. cbn [fold_right]. ring.
  - change (firstn (S (S j)) (x :: l)) with (x :: firstn (S j) l).
    change (firstn (S j) (x :: l)) with (x :: firstn j l).
    cbn [nth]. unfold qsum in *. cbn [fold_right]. rewrite IH by lia. ring.
Qed.

Lemma qsum_firstn_mono (l : list Q) :
  (forall p, In p l -> 0 <= p) ->
  forall i j, (i <= j)%nat -> qsum (firstn i l) <= qsum (firstn j l).
Proof.
  induction l as [|x l IH]; intros Hpos i j Hij.
  - rewrite !firstn_nil. apply Qle_refl.
  - assert (Hx : 0 <= x) by (apply Hpos; left; reflexivity).
    assert (Hl : forall p, In p l -> 0 <= p)
      by (intros p Hp; apply Hpos; right; exact Hp).
    destruct i as [|i], j as [|j]; try lia.
    + apply Qle_refl.
    + cbn [firstn]. unfold qsum. cbn [fold_right].
      pose proof (IH Hl 0%nat j (Nat.le_0_l j)) as H0.
      cbn [firstn] in H0. unfold qsum in H0. cbn [fold_right] in H0. lra.
    + cbn [firstn]. unfold qsum. cbn [fold_right].
      pose proof (IH Hl i j ltac:(lia)) as H0. unfold qsum in H0. lra.
Qed.

(** The binary search on a non-decreasing list: everything before the
    index found is at most [x], everything from it on, below [top], is
    greater. *)
Lemma bisect_right_spec (a : list Q) (x : Q) (top : nat) :
  (forall i j, (i <= j < top)%nat -> nth i a 0 <= nth j a 0) ->
  forall fuel lo hi,
    (lo <= hi <= top)%nat -> (hi - lo <= fuel)%nat ->
    (forall j, (j < lo)%nat -> nth j a 0 <= x) ->
    (forall j, (hi <= j < top)%nat -> x < nth j a 0) ->
    (forall j, (j < bisect_right fuel a x lo hi)%nat -> nth j a 0 <= x)
    /\ (forall j, (bisect_right fuel a x lo hi <= j < top)%nat ->
                  x < nth j a 0).
Proof.
  intros Hsorted. induction fuel as [|fuel IH]; intros lo hi Hb Hf Hlo Hhi;
    cbn [bisect_right].
  - assert (hi = lo) by lia. subst hi. split; assumption.
  - destruct (lo <? hi) eqn:Hlt.
    + apply Nat.ltb_lt in Hlt.
      assert (Hmid : (lo <= (lo + hi) / 2 < hi)%nat).
      { pose proof (Nat.div_mod_eq (lo + hi) 2) as Hdm.
        pose proof (Nat.mod_upper_bound (lo + hi) 2) as Hmu. lia. }
      set (mid := ((lo + hi) / 2)%nat) in *.
      change (@num_zero Q Q_Number) with 0.
      destruct (num_lt x (nth mid a 0)) eqn:C.
      * apply Q_num_lt_iff in C. apply IH; [lia | lia | exact Hlo |].
        intros j Hj. eapply Qlt_le_trans; [exact C|].
        apply Hsorted. lia.
      * apply Q_num_lt_false_iff in C. apply IH; [lia | lia | | exact Hhi].
        intros j Hj. eapply Qle_trans; [|exact C].
        apply Hsorted. lia.
    + apply Nat.ltb_ge in Hlt. assert (hi = lo) by lia. subst hi.
      split; assumption.
Qed.

End CumulativeWeights.

(** X15.  On exact probabilities that are non-negative and sum to
    exactly [1] (the float that [random.choices] makes of the total is
    then exactly [1.0], and its comparisons of the draw with the
    cumulative weights are exact), [step] samples by cumulative weight:
    from a non-terminal state, with a draw [u] of [random()] in [[0, 1)],
    the transition taken is the one whose interval of cumulative
    probability contains [u]; in particular its probability is
    positive. *)
Theorem step_samples_by_cumulative_weight
    {State Action G : Type}
    `{Hashable State} `{Hashable Action} `{RandomSource G Q}
    (self : MDP State Action Q) (state : State) (action : Action) (g : G)
    (tr : list (Q * State)) (next_state : State) (reward : Q) (g' : G) :
  is_terminal self state = false ->
  dict_get2 state action (P self) = Some tr ->
  (forall t, In t tr -> (0 <= fst t)%Q) ->
  (qsum (map fst tr) == 1)%Q ->
  (0 <= fst (rng_random g) < 1)%Q ->
  step self state action g = Ok (next_state, reward, g') ->
  exists k p,
    nth_error tr k = Some (p, next_state)
    /\ (0 < p)%Q
    /\ (qsum (firstn k (map fst tr)) <= fst (rng_random g))%Q
    /\ (fst (rng_random g) < qsum (firstn k (map fst tr)) + p)%Q.
Proof.
  intros T HP Hpos Hone [Hu0 Hu1] E.
  destruct (step_nonterminal_Ok self state action g T E) as (tr' & Htr).
  cbv zeta in Htr. destruct Htr as (HP' & _ & Hle & Hi & Hnth & _).
  assert (tr' = tr) by congruence. subst tr'.
  set (probs := map fst tr) in *. set (u := fst (rng_random g)) in *.
  change (@num_zero Q Q_Number) with 0%Q in *.
  set (total := num_add (last (accumulate probs) 0%Q) 0%Q) in *.
  set (x := num_mul u total) in *.
  set (k := bisect_right (List.length tr) (accumulate probs) x 0
              (List.length tr - 1)) in *.
  assert (Hlen : List.length probs = List.length tr)
    by (unfold probs; apply length_map).
  assert (Hprobs : forall p, In p probs -> (0 <= p)%Q).
  { intros p Hp. unfold probs in Hp. apply in_map_iff in Hp as (t & <- & Ht).
    apply Hpos; exact Ht. }
  assert (Htot : (total == qsum probs)%Q).
  { unfold total. rewrite Q_add_eq, accumulate_last. ring. }
  assert (Htot0 : (0 < total)%Q).
  { destruct (Qlt_le_dec 0 total) as [Hlt|Hge]; [exact Hlt|].
    apply Qle_bool_iff in Hge.
    change (Qle_bool total 0 = false) in Hle. congruence. }
  assert (Hx : (x == u * qsum probs)%Q).
  { unfold x. rewrite Q_mul_eq, Htot. reflexivity. }
  assert (Hsorted : forall i j, i <= j < List.length tr - 1 ->
             (nth i (accumulate probs) 0 <= nth j (accumulate probs) 0)%Q).
  { intros i j Hij. rewrite !accumulate_nth by lia.
    apply qsum_firstn_mono; [exact Hprobs | lia]. }
  destruct (@bisect_right_spec (accumulate probs) x (List.length tr - 1)
              Hsorted (List.length tr) 0 (List.length tr - 1))
    as [Hbelow Habove]; [lia | lia | intros j Hj; lia | intros j Hj; lia|].
  fold k in Hbelow, Habove.
  rewrite nth_error_map in Hnth.
  destruct (nth_error tr k) as [[p s]|] eqn:Ek; [|discriminate].
  cbn [option_map snd] in Hnth. inv_Ok Hnth.
  assert (Hp : nth k probs 0%Q = p).
  { apply nth_error_nth. unfold probs.
    rewrite nth_error_map, Ek. reflexivity. }
  pose proof (@qsum_firstn_S probs k ltac:(lia)) as HS. rewrite Hp in HS.
  assert (Hlow : (qsum (firstn k probs) <= u * qsum probs)%Q).
  { destruct k as [|k'] eqn:Hk.
    - cbn [firstn]. unfold qsum at 1. cbn [fold_right].
      apply Qmult_le_0_compat; [exact Hu0 | lra].
    - rewrite <- Hx, <- (@accumulate_nth probs k') by lia.
      apply Hbelow. lia. }
  assert (Hhigh : (u * qsum probs < qsum (firstn (S k) probs))%Q).
  { destruct (Nat.eq_dec k (List.length tr - 1)) as [Hlast|Hmid].
    - replace (S k) with (List.length probs) by lia. rewrite firstn_all.
      assert (Hm : (u * qsum probs < 1 * qsum probs)%Q)
        by (apply Qmult_lt_compat_r; lra).
      lra.
    - rewrite <- Hx, <- (@accumulate_nth probs k) by lia.
      apply Habove. lia. }
  assert (Hu : (u * qsum probs == u)%Q)
    by (rewrite Hone; ring).
  exists k, p. split; [exact Ek|].
  split; [lra|]. split; lra.
Qed.

Lemma step_samples_by_cumulative_weight_witness :
  exists k p,
    nth_error [((8 # 10)%Q, "s0"%string); ((2 # 10)%Q, "s1"%string)] k
    = Some (p, "s1"%string)
    /\ (0 < p)%Q
    /\ (qsum (firstn k [(8 # 10)%Q; (2 # 10)%Q]) <= 9 # 10)%Q
    /\ (9 # 10 < qsum (firstn k [(8 # 10)%Q; (2 # 10)%Q]) + p)%Q.
Proof.
  assert (Hpos : forall t,
             In t [((8 # 10)%Q, "s0"%string); ((2 # 10)%Q, "s1"%string)] ->
             (0 <= fst t)%Q)
    by (intros t [<-|[<-|[]]]; discriminate).
  assert (Hone : (qsum (map fst [((8 # 10)%Q, "s0"%string);
                                 ((2 # 10)%Q, "s1"%string)]) == 1)%Q)
    by reflexivity.
  assert (Hu : (0 <= fst (rng_random
                            {| unit_draws := [(9 # 10)%Q];
                               index_draws := [] |}) < 1)%Q)
    by (split; [discriminate | reflexivity]).
  assert (E : step Examples.chain "s0"%string "a0"%string
                {| unit_draws := [(9 # 10)%Q]; index_draws := [] |}
              = Ok ("s1"%string, 0%Q,
                    {| unit_draws := []; index_draws := [] |}))
    by (vm_compute; reflexivity).
  exact (@step_samples_by_cumulative_weight string string (tape Q) _ _ _
           Examples.chain "s0"%string "a0"%string
           {| unit_draws := [(9 # 10)%Q]; index_draws := [] |}
           [((8 # 10)%Q, "s0"%string); ((2 # 10)%Q, "s1"%string)]
           "s1"%string 0%Q {| unit_draws := []; index_draws := [] |}
           eq_refl eq_refl Hpos Hone Hu E).
Defined.

(* ================================================================== *)
(** * A well-formed model raises nothing *)
(* ================================================================== *)

Section RaisesNothing.
Context {A B : Type}.

Lemma raises_nothing_bind (r : result A) (k : A -> result B) :
  raises_nothing r -> (forall a, r = Ok a -> raises_nothing (k a)) ->
  raises_nothing (bind r k).
Proof. destruct r; cbn [bind]; auto. Qed.

(** A loop whose body raises nothing under an invariant it keeps. *)
Lemma raises_nothing_foldM (f : A -> B -> result A) (Inv : A -> Prop)
    (l : list B) :
  (forall a b, In b l -> Inv a ->
     raises_nothing (f a b) /\ forall a', f a b = Ok a' -> Inv a') ->
  forall a, Inv a ->
    raises_nothing (foldM f l a) /\ forall r, foldM f l a = Ok r -> Inv r.
Proof.
  induction l as [|b l IH]; intros Hf a Ha; cbn [foldM].
  - split; [exact I | intros r E; inv_Ok E; exact Ha].
  - destruct (Hf a b (or_introl eq_refl) Ha) as [Hr Hk].
    assert (Hf' : forall a0 b0, In b0 l -> Inv a0 ->
              raises_nothing (f a0 b0) /\ forall a', f a0 b0 = Ok a' -> Inv a')
      by (intros a0 b0 Hb0; apply Hf; right; exact Hb0).
    destruct (f a b) as [a1| |]; cbn [bind]; try contradiction.
    + apply IH; [exact Hf' | apply Hk; reflexivity].
    + split; [exact I | discriminate].
Qed.

End RaisesNothing.

Section PlannersRaiseNothing.
Context {State Action G : Type}.
Context `{Hashable State} `{Hashable Action} `{RandomSource G Q}.
Variable self : MDP State Action Q.
Open Scope Q_scope.

Hypothesis kernel : kernel_valid self.
Hypothesis complete : tables_complete self.
Hypothesis some_action : actions self <> [].

(** A sweep loop whose update succeeds on every table with the states of
    the model raises nothing. *)
Lemma sweep_loop_raises_nothing
    (update : dict State Q -> State -> result Q) :
  (forall W y, has_states self W -> In y (states self) ->
               is_terminal self y = false -> exists v, update W y = Ok v) ->
  forall theta fuel X,
    has_states self X -> raises_nothing (sweep_loop self update theta fuel X).
Proof.
  intros Htotal theta. induction fuel as [|fuel IH]; intros X HX;
    cbn [sweep_loop]; [exact I|].
  destruct (@raises_nothing_foldM _ _ (sweep_state self update)
              (fun st => has_states self (fst st)) (states self))
    with (a := (X, @num_zero Q Q_Number)) as [Hr Hk]; [|exact HX|].
  - intros [W d] y Hy HW. cbn [fst] in HW. unfold sweep_state.
    destruct (is_terminal self y) eqn:T.
    + split; [exact I | intros a' E; inv_Ok E; exact HW].
    + destruct (Htotal W y HW Hy T) as (v & ->). cbn [bind].
      unfold getitem. destruct (dict_get y W) as [old|] eqn:Eold;
        [|exfalso; exact (HW y Hy Eold)].
      cbn [bind]. split; [exact I|]. intros a' E. inv_Ok E. cbn [fst].
      intros s Hs. rewrite dict_get_set.
      destruct (key_eq_dec y s); [discriminate | apply HW; exact Hs].
  - apply raises_nothing_bind; [exact Hr|].
    intros [X1 d1] E1. destruct (num_lt d1 theta); [exact I|].
    apply IH. exact (Hk _ E1).
Qed.

Lemma policy_evaluation_raises_nothing sweeps policy theta :
  policy_valid self policy -> policy_complete self policy ->
  raises_nothing (policy_evaluation self sweeps policy theta).
Proof.
  intros Hpv Hpc. unfold policy_evaluation. rewrite eval_loop_sweep.
  apply sweep_loop_raises_nothing.
  - apply (@eval_update_total State Action _ _ self kernel complete policy
             Hpv Hpc).
  - intros s Hs. apply dict_fromkeys_has_key. exact Hs.
Qed.

Lemma value_iteration_raises_nothing sweeps theta :
  raises_nothing (value_iteration self sweeps theta).
Proof.
  unfold value_iteration. apply raises_nothing_bind.
  - rewrite vi_loop_sweep. apply sweep_loop_raises_nothing.
    + apply (@best_value_total State Action _ _ self kernel complete
               some_action).
    + intros s Hs. apply dict_fromkeys_has_key. exact Hs.
  - intros V EV.
    assert (HV : has_states self V).
    { intros s Hs. apply dict_has_key. rewrite (vi_loop_keys _ _ _ _ EV).
      apply dict_has_key, dict_fromkeys_has_key. exact Hs. }
    destruct (@derive_policy_total State Action _ _ self kernel complete
                some_action V HV) as (policy & ->).
    cbn [bind]. exact I.
Qed.

(** The initial policy of [policy_iteration] is drawn without failure and
    gives every non-terminal state an action of the model. *)
Lemma init_policy_well_formed (g : G) :
  exists policy g',
    init_policy self g = Ok (policy, g')
    /\ policy_valid self policy /\ policy_complete self policy.
Proof.
  unfold init_policy.
  assert (Hloop : forall l p g0,
            (forall s a, dict_get s p = Some (Some a) -> In a (actions self)) ->
            exists p' g',
              foldM (init_state self) l (p, g0) = Ok (p', g')
              /\ (forall s a, dict_get s p' = Some (Some a) ->
                              In a (actions self))
              /\ (forall s, is_terminal self s = false ->
                    In s l \/ (exists a, dict_get s p = Some (Some a)) ->
                    exists a, dict_get s p' = Some (Some a))).
  { induction l as [|y l IH]; intros p g0 Hp; cbn [foldM].
    - exists p, g0. split; [reflexivity|]. split; [exact Hp|].
      intros s _ [[]|Hs]. exact Hs.
    - unfold init_state at 1. destruct (is_terminal self y) eqn:T.
      + cbn [bind]. destruct (IH p g0 Hp) as (p' & g' & E & Hv & Hc).
        exists p', g'. split; [exact E|]. split; [exact Hv|].
        intros s Ts [[->|Hs]|Hs]; [congruence | |]; apply Hc; auto.
      + destruct (@choice_nonempty Q G _ Action (actions self) g0
                    some_action) as (a & g1 & Ea).
        rewrite Ea. cbn [bind].
        assert (Ha : In a (actions self)) by (eapply choice_In; eauto).
        destruct (IH (dict_set y (Some a) p) g1) as (p' & g' & E & Hv & Hc).
        { intros s a0. rewrite dict_get_set.
          destruct (key_eq_dec y s); [intros E0; inv_Ok E0; exact Ha|].
          apply Hp. }
        exists p', g'. split; [exact E|]. split; [exact Hv|].
        intros s Ts Hs. apply Hc; [exact Ts|].
        destruct Hs as [[->|Hs]|(a0 & Hs)].
        * right. exists a. apply dict_get_set_same.
        * left. exact Hs.
        * right. rewrite dict_get_set.
          destruct (key_eq_dec y s); eauto. }
  destruct (Hloop (states self) [] g) as (p' & g' & E0 & Hv & Hc);
    [intros s a E; discriminate|].
  match goal with
  | |- context [bind ?r _] =>
      replace r with (Ok (p', g') : result (policy_map * G))
        by (symmetry; exact E0)
  end.
  cbn [bind]. eexists. exists g'. split; [reflexivity|].
  assert (Hfold : forall (l : list State) (p : dict State (option Action))
                         (s : State),
            dict_get s (fold_left (fun p0 s0 => dict_set s0 None p0) l p)
            = if in_dec key_eq_dec s l then Some None else dict_get s p).
  { intros l p s. exact (dict_get_fold_set l (@None Action) s p). }
  split.
  - intros s a. rewrite Hfold.
    destruct (in_dec key_eq_dec s (terminal_states self));
      [discriminate | apply Hv].
  - intros s Hs Ts. rewrite Hfold.
    destruct (in_dec key_eq_dec s (terminal_states self)) as [Hin|_].
    + apply contains_In in Hin. unfold is_terminal in Ts. congruence.
    + apply Hc; auto.
Qed.

(** On a table with the states of the model, the improvement step raises
    nothing and keeps the policy well formed. *)
Lemma improve_well_formed V policy :
  has_states self V ->
  policy_valid self policy -> policy_complete self policy ->
  exists policy' stable,
    improve self V policy = Ok (policy', stable)
    /\ policy_valid self policy' /\ policy_complete self policy'.
Proof.
  intros HV Hpv Hpc. unfold improve.
  assert (Hloop : forall l p b,
            incl l (states self) ->
            policy_valid self p -> policy_complete self p ->
            exists p' b',
              foldM (improve_state self V) l (p, b) = Ok (p', b')
              /\ policy_valid self p' /\ policy_complete self p').
  { induction l as [|y l IH]; intros p b Hl Hv Hc; cbn [foldM]; [eauto|].
    assert (Hy : In y (states self)) by (apply Hl; left; reflexivity).
    assert (Hl' : incl l (states self))
      by (intros x Hx; apply Hl; right; exact Hx).
    unfold improve_state at 1. destruct (is_terminal self y) eqn:T.
    - cbn [bind]. apply IH; assumption.
    - destruct (Hc y Hy T) as (old & Eold). unfold getitem. rewrite Eold.
      cbn [bind].
      destruct (@best_action_total State Action _ _ self kernel complete
                  some_action V y HV Hy T) as (best & Eb).
      rewrite Eb. cbn [bind]. apply IH; [exact Hl' | |].
      + intros s a. rewrite dict_get_set.
        destruct (key_eq_dec y s); [|apply Hv].
        intros E0. inv_Ok E0. eapply best_action_In; eauto.
      + intros s Hs Ts. rewrite dict_get_set.
        destruct (key_eq_dec y s); [eauto | apply Hc; assumption]. }
  apply Hloop; [apply incl_refl | exact Hpv | exact Hpc].
Qed.

Lemma pi_loop_raises_nothing sweeps theta rounds :
  forall policy,
    policy_valid self policy -> policy_complete self policy ->
    raises_nothing (pi_loop self sweeps theta rounds policy).
Proof.
  induction rounds as [|rounds IH]; intros policy Hpv Hpc; cbn [pi_loop];
    [exact I|].
  apply raises_nothing_bind.
  - unfold pi_round. apply raises_nothing_bind;
      [apply policy_evaluation_raises_nothing; assumption|].
    intros V EV.
    assert (HV : has_states self V)
      by (intros s Hs; apply (policy_evaluation_domain _ _ _ _ s EV); exact Hs).
    destruct (improve_well_formed HV Hpv Hpc) as (p' & b & -> & _ & _).
    cbn [bind]. exact I.
  - intros [[V p'] b] Er. destruct b; [exact I|].
    unfold pi_round in Er. apply bind_Ok in Er as (V0 & EV & Er).
    assert (HV : has_states self V0)
      by (intros s Hs; apply (policy_evaluation_domain _ _ _ _ s EV); exact Hs).
    destruct (improve_well_formed HV Hpv Hpc) as (p1 & b1 & Ei & Hv1 & Hc1).
    rewrite Ei in Er. cbn [bind] in Er. inv_Ok Er.
    apply IH; assumption.
Qed.

Lemma policy_iteration_raises_nothing sweeps rounds theta (g : G) :
  raises_nothing (policy_iteration self sweeps rounds theta g).
Proof.
  unfold policy_iteration.
  destruct (init_policy_well_formed g) as (policy & g' & -> & Hpv & Hpc).
  cbn [bind]. apply raises_nothing_bind.
  - apply pi_loop_raises_nothing; assumption.
  - intros [V p'] _. exact I.
Qed.

End PlannersRaiseNothing.

(** X16.  On exact numbers, the planners raise nothing on a well-formed
    model (a valid kernel, complete tables, at least one action):
    whatever the threshold, the bounds and the random draws,
    [policy_evaluation] (for a policy that gives every non-terminal state
    an action of the model), [value_iteration] and [policy_iteration]
    either return or are still running when their bound is spent. *)
Theorem planners_raise_nothing
    {State Action G : Type}
    `{Hashable State} `{Hashable Action} `{RandomSource G Q}
    (self : MDP State Action Q) :
  kernel_valid self -> tables_complete self -> actions self <> [] ->
  (forall sweeps policy theta,
      policy_valid self policy -> policy_complete self policy ->
      raises_nothing (policy_evaluation self sweeps policy theta))
  /\ (forall sweeps theta, raises_nothing (value_iteration self sweeps theta))
  /\ (forall sweeps rounds theta (g : G),
      raises_nothing (policy_iteration self sweeps rounds theta g)).
Proof.
  intros Hk Hc Hact. split; [|split].
  - intros sweeps policy theta Hpv Hpc.
    exact (@policy_evaluation_raises_nothing State Action _ _ self Hk Hc
             sweeps policy theta Hpv Hpc).
  - intros sweeps theta.
    exact (@value_iteration_raises_nothing State Action _ _ self Hk Hc Hact
             sweeps theta).
  - intros sweeps rounds theta g.
    exact (@policy_iteration_raises_nothing State Action G _ _ _ self Hk Hc
             Hact sweeps rounds theta g).
Qed.

Lemma planners_raise_nothing_witness :
  raises_nothing (value_iteration Examples.chain 3 Examples.theta_default)
  /\ raises_nothing
       (policy_iteration Examples.chain 3 3 Examples.theta_default
          (Examples.silent (N := Q))).
Proof.
  assert (Hact : actions Examples.chain <> []) by discriminate.
  destruct (@planners_raise_nothing string string (tape Q) _ _ _
              Examples.chain chain_kernel_valid chain_tables_complete Hact)
    as (_ & W2 & W3).
  split; [apply W2 | apply W3].
Defined.

Section LearnerRaisesNothing.
Context {State Action G : Type}.
Context `{Hashable State} `{Hashable Action} `{RandomSource G Q}.
Variable self : MDP State Action Q.
Open Scope Q_scope.

Hypothesis kernel : kernel_valid self.
Hypothesis complete : tables_complete self.
Hypothesis some_action : actions self <> [].

(** A table with the keys of the initial one has, for every state of the
    model, a non-empty row whose keys are the actions of the model. *)
Lemma q_row_of_shape (Q : dict State (dict Action Q)) (s : State) :
  q_shape Q = q_shape (q_init self) -> In s (states self) ->
  exists row,
    dict_get s Q = Some row /\ row <> []
    /\ forall a, In a (map fst row) <-> In a (actions self).
Proof.
  intros Hshape Hs.
  assert (Hq : forall a, q_value Q s a <> None <-> In a (actions self)).
  { intros a. rewrite q_value_shape, Hshape, <- q_value_shape.
    rewrite (q_init_defined self s a). tauto. }
  destruct (actions self) as [|a0 rest] eqn:Eact; [congruence|].
  assert (Hq0 : q_value Q s a0 <> None) by (apply Hq; left; reflexivity).
  unfold q_value, dict_get2 in Hq0, Hq.
  destruct (dict_get s Q) as [row|]; [|congruence].
  exists row. split; [reflexivity|]. split.
  - intros ->. apply Hq0. reflexivity.
  - intros a. rewrite <- dict_has_key. apply Hq.
Qed.

Lemma select_action_well_formed Q state epsilon (g : G) :
  q_shape Q = q_shape (q_init self) -> In state (states self) ->
  exists action g1,
    select_action self Q state epsilon g = Ok (action, g1)
    /\ In action (actions self).
Proof.
  intros Hshape Hs. unfold select_action.
  destruct (rng_random g) as [u g1]. destruct (num_lt u epsilon).
  - destruct (@choice_nonempty QArith_base.Q G _ Action (actions self) g1 some_action)
      as (a & g2 & Ea).
    exists a, g2. split; [exact Ea | eapply choice_In; eauto].
  - destruct (q_row_of_shape Q state Hshape Hs) as (row & Er & Hne & Hkeys).
    unfold getitem. rewrite Er. cbn [bind].
    destruct (max_by snd row) as [best| |] eqn:Em;
      [|destruct row; [congruence | discriminate] ..].
    cbn [bind]. exists (fst best), g1. split; [reflexivity|].
    apply Hkeys. apply in_map. exact (max_by_In snd row Em).
Qed.

Lemma step_well_formed state action (g : G) :
  In state (states self) -> is_terminal self state = false ->
  In action (actions self) ->
  exists next_state reward g',
    step self state action g = Ok (next_state, reward, g')
    /\ In next_state (states self).
Proof.
  intros Hs T Ha.
  pose proof (step_nonterminal_cases self state action g T) as Hcases.
  destruct (complete state action Hs T Ha) as [HP HR].
  destruct (step self state action g) as [[[ns r] g']|e|] eqn:E.
  - exists ns, r, g'. split; [reflexivity|].
    destruct (step_nonterminal_Ok self state action g T E) as (tr & Htr).
    cbv zeta in Htr. destruct Htr as (Etr & _ & _ & _ & Hnth & _).
    apply nth_error_In in Hnth. apply in_map_iff in Hnth as (t & <- & Ht).
    destruct (kernel state action Hs T Ha Etr) as [Hall _].
    apply Hall. exact Ht.
  - exfalso. destruct Hcases as [[_ [Hn|Hn]]|[_ (tr & Etr & Hwhy)]];
      [congruence | congruence |].
    destruct (kernel state action Hs T Ha Etr) as [_ Hsum].
    destruct Hwhy as [->|[Hle|Hfin]].
    + discriminate Hsum.
    + change (Qle_bool (num_add (last (accumulate (map fst tr)) 0) 0) 0 = true)
        in Hle.
      apply Qle_bool_iff in Hle.
      rewrite Q_add_eq, accumulate_last, Hsum in Hle.
      apply (Qlt_irrefl 0). eapply Qlt_le_trans; [|exact Hle]. reflexivity.
    + discriminate Hfin.
  - destruct Hcases.
Qed.

Lemma q_update_well_formed Q state action next_state reward alpha :
  q_shape Q = q_shape (q_init self) ->
  In state (states self) -> In action (actions self) ->
  In next_state (states self) ->
  exists Q', q_update self Q state action next_state reward alpha = Ok Q'.
Proof.
  intros Hshape Hs Ha Hn. unfold q_update.
  destruct (q_row_of_shape Q state Hshape Hs) as (row & Er & _ & Hkeys).
  destruct (q_row_of_shape Q next_state Hshape Hn) as (nrow & En & Hne & _).
  assert (Hold : dict_get action row <> None)
    by (apply dict_has_key, Hkeys; exact Ha).
  destruct (dict_get action row) as [old|] eqn:Eold; [|congruence].
  unfold getitem. rewrite Er. cbn [bind]. rewrite Eold. cbn [bind].
  rewrite En. cbn [bind].
  destruct nrow as [|e0 nrow]; [congruence|].
  cbn [map max_of max_by bind]. eauto.
Qed.

Lemma q_step_well_formed alpha epsilon Q state (g : G) :
  q_shape Q = q_shape (q_init self) ->
  In state (states self) -> is_terminal self state = false ->
  exists Q' next_state g',
    q_step self alpha epsilon Q state g = Ok (Q', next_state, g')
    /\ q_shape Q' = q_shape (q_init self)
    /\ In next_state (states self).
Proof.
  intros Hshape Hs T. unfold q_step.
  destruct (select_action_well_formed Q state epsilon g Hshape Hs)
    as (action & g1 & Ea & Ha).
  rewrite Ea. cbn [bind].
  destruct (step_well_formed state action g1 Hs T Ha)
    as (ns & r & g2 & Es & Hns).
  rewrite Es. cbn [bind].
  destruct (q_update_well_formed Q state action ns r alpha Hshape Hs Ha Hns)
    as (Q' & Eu).
  rewrite Eu. cbn [bind]. exists Q', ns, g2. split; [reflexivity|].
  split; [|exact Hns]. rewrite <- Hshape. eapply q_update_shape; eauto.
Qed.

Lemma q_walk_raises_nothing alpha epsilon fuel :
  forall Q state (g : G),
    q_shape Q = q_shape (q_init self) -> In state (states self) ->
    raises_nothing (q_walk self alpha epsilon fuel Q state g).
Proof.
  induction fuel as [|fuel IH]; intros Q state g Hshape Hs; cbn [q_walk];
    destruct (is_terminal self state) eqn:T; try exact I.
  destruct (q_step_well_formed alpha epsilon Q state g Hshape Hs T)
    as (Q' & ns & g' & -> & Hshape' & Hns).
  cbn [bind]. apply IH; assumption.
Qed.

Hypothesis some_start :
  exists s, In s (states self) /\ is_terminal self s = false.

Lemma q_episodes_raises_nothing alpha epsilon fuel episodes :
  forall Q (g : G),
    q_shape Q = q_shape (q_init self) ->
    raises_nothing (q_episodes self alpha epsilon fuel episodes Q g).
Proof.
  induction episodes as [|n IH]; intros Q g Hshape; cbn [q_episodes];
    [exact I|].
  apply raises_nothing_bind.
  - unfold q_episode, sample_start.
    destruct (@choice_nonempty QArith_base.Q G _ State
                (filter (fun s => negb (is_terminal self s)) (states self)) g)
      as (s0 & g1 & E0).
    { destruct some_start as (s & Hs & T). intros Hnil.
      assert (Hin : In s (filter (fun s => negb (is_terminal self s))
                            (states self)))
        by (apply filter_In; split; [exact Hs | rewrite T; reflexivity]).
      rewrite Hnil in Hin. destruct Hin. }
    rewrite E0. cbn [bind]. apply q_walk_raises_nothing; [exact Hshape|].
    apply choice_In in E0. apply filter_In in E0. tauto.
  - intros [Q1 g1] E1. apply IH. rewrite <- Hshape.
    unfold q_episode in E1. apply bind_Ok in E1 as ([s0 g2] & _ & E1).
    eapply q_walk_shape; eauto.
Qed.

Lemma greedy_policy_total Q :
  q_shape Q = q_shape (q_init self) ->
  exists policy, greedy_policy self Q = Ok policy.
Proof.
  intros Hshape. unfold greedy_policy. apply foldM_total.
  intros p s Hs. unfold greedy_state. destruct (is_terminal self s); [eauto|].
  destruct (q_row_of_shape Q s Hshape Hs) as (row & Er & Hne & _).
  unfold getitem. rewrite Er. cbn [bind].
  destruct row as [|e0 row]; [congruence|]. cbn [max_by bind]. eauto.
Qed.

Lemma learner_raises_nothing fuel episodes alpha epsilon (g : G) :
  raises_nothing (q_learning self fuel episodes alpha epsilon g).
Proof.
  unfold q_learning. apply raises_nothing_bind.
  - apply q_episodes_raises_nothing. reflexivity.
  - intros [Q1 g1] E1. apply q_episodes_shape in E1.
    destruct (greedy_policy_total Q1 E1) as (policy & ->).
    cbn [bind]. exact I.
Qed.

End LearnerRaisesNothing.

(** X17.  On exact numbers, [q_learning] raises nothing on a well-formed
    model (a valid kernel, complete tables, at least one action, at least
    one non-terminal state): whatever the parameters and the random
    draws, it returns, or an episode is still walking when its bound is
    spent. *)
Theorem q_learning_raises_nothing
    {State Action G : Type}
    `{Hashable State} `{Hashable Action} `{RandomSource G Q}
    (self : MDP State Action Q) (fuel episodes : nat) (alpha epsilon : Q)
    (g : G) :
  kernel_valid self -> tables_complete self -> actions self <> [] ->
  (exists s, In s (states self) /\ is_terminal self s = false) ->
  raises_nothing (q_learning self fuel episodes alpha epsilon g).
Proof.
  intros Hk Hc Hact Hstart.
  exact (@learner_raises_nothing State Action G _ _ _ self
           Hk Hc Hact Hstart fuel episodes alpha epsilon g).
Qed.

Lemma q_learning_raises_nothing_witness :
  raises_nothing
    (q_learning Examples.chain 10 1 (1 # 10)%Q (1 # 10)%Q
       Examples.one_episode).
Proof.
  assert (Hact : actions Examples.chain <> []) by discriminate.
  assert (Hstart : exists s, In s (states Examples.chain)
                             /\ is_terminal Examples.chain s = false)
    by (exists "s0"%string; split; [simpl; auto | reflexivity]).
  exact (@q_learning_raises_nothing string string (tape Q) _ _ _
           Examples.chain 10 1 (1 # 10)%Q (1 # 10)%Q Examples.one_episode
           chain_kernel_valid chain_tables_complete Hact Hstart).
Defined.

(* ================================================================== *)
(** * The Learner without episodes *)
(* ================================================================== *)

Section UntrainedTable.
Context {State Action N G : Type}.
Context `{Hashable State} `{Hashable Action} `{Number N} `{RandomSource G N}.
Variable self : MDP State Action N.

Lemma dict_set_constant {K : Type} `{Hashable K} (k : K) (v : N)
    (d : dict K N) :
  Forall (fun e => snd e = v) d -> Forall (fun e => snd e = v) (dict_set k v d).
Proof.
  induction d as [|[k' v'] d IH]; intros Hd; cbn [dict_set].
  - constructor; [reflexivity | constructor].
  - apply Forall_cons_iff in Hd as [Hv Hd']. destruct (key_eq_dec k k').
    + constructor; [reflexivity | exact Hd'].
    + constructor; [exact Hv | apply IH; exact Hd'].
Qed.

(** A row built by [{a: 0 for a in actions}] starts with the first action
    and holds the same value everywhere. *)
Lemma dict_fromkeys_head {K : Type} `{Hashable K} (k0 : K) (keys : list K)
    (v : N) :
  exists tail,
    dict_fromkeys (k0 :: keys) v = (k0, v) :: tail
    /\ Forall (fun e => snd e = v) tail.
Proof.
  unfold dict_fromkeys. cbn [fold_left dict_set].
  assert (Hgen : forall l tail,
            Forall (fun e : K * N => snd e = v) tail ->
            exists tail',
              fold_left (fun d k => dict_set k v d) l ((k0, v) :: tail)
              = (k0, v) :: tail'
              /\ Forall (fun e => snd e = v) tail').
  { induction l as [|k l IH]; intros tail Ht; cbn [fold_left]; [eauto|].
    cbn [dict_set]. destruct (key_eq_dec k k0).
    - apply IH; exact Ht.
    - apply IH. apply dict_set_constant; exact Ht. }
  apply Hgen. constructor.
Qed.

Lemma max_scan_constant {A : Type} (key : A -> N) (best : A) (l : list A) :
  num_lt (key best) (key best) = false ->
  Forall (fun x => key x = key best) l -> max_scan key best l = best.
Proof.
  intros Hirr. induction l as [|x l IH]; intros Hl; cbn [max_scan];
    [reflexivity|].
  apply Forall_cons_iff in Hl as [Hx Hl'].
  rewrite Hx, Hirr. apply IH; exact Hl'.
Qed.

Lemma untrained_row_choice (a0 : Action) (rest : list Action) :
  num_lt (num_zero : N) num_zero = false ->
  max_by snd (dict_fromkeys (a0 :: rest) (@num_zero N _))
  = Ok (a0, num_zero).
Proof.
  intros Hirr.
  destruct (dict_fromkeys_head a0 rest (@num_zero N _)) as (tail & -> & Ht).
  cbn [max_by]. f_equal. apply max_scan_constant; [exact Hirr | exact Ht].
Qed.

End UntrainedTable.

(** X18.  With [episodes = 0] and at least one action, [q_learning]
    draws nothing, returns the all-zero table it starts from, and its
    policy gives every non-terminal state of the model the first action
    of the action list: [max] over a row of equal values keeps the first
    key.  All it asks of the numbers is that [0 < 0] is false, as it is on
    exact numbers and in binary64. *)
Theorem q_learning_without_episodes
    {State Action N G : Type}
    `{Hashable State} `{Hashable Action} `{Number N} `{RandomSource G N}
    (self : MDP State Action N) (fuel : nat) (alpha epsilon : N) (g : G)
    (a0 : Action) (rest : list Action) :
  num_lt (num_zero : N) num_zero = false ->
  actions self = a0 :: rest ->
  exists policy,
    q_learning self fuel 0 alpha epsilon g = Ok (q_init self, policy, g)
    /\ (forall s a, In s (states self) -> In a (actions self) ->
          q_value (q_init self) s a = Some num_zero)
    /\ (forall s, In s (states self) -> is_terminal self s = false ->
          dict_get s policy = Some (Some a0)).
Proof.
  intros Hirr Hact. unfold q_learning. cbn [q_episodes bind].
  destruct (@foldM_total _ _ (greedy_state self (q_init self)) (states self)
              []) as (policy & Ep).
  { intros p s Hs. unfold greedy_state. destruct (is_terminal self s);
      [eauto|].
    unfold getitem. rewrite (q_init_row self s Hs). cbn [bind].
    rewrite Hact, (untrained_row_choice a0 rest Hirr). cbn [bind]. eauto. }
  exists policy. unfold greedy_policy. rewrite Ep. cbn [bind].
  split; [reflexivity|]. split.
  - intros s a Hs Ha. apply q_init_zero; assumption.
  - intros s Hs T.
    destruct (greedy_policy_valid self (q_init self) s Hs T Ep)
      as (row & a & q & Er & Em & Hp).
    rewrite (q_init_row self s Hs) in Er. inv_Ok Er.
    rewrite Hact, (untrained_row_choice a0 rest Hirr) in Em. inv_Ok Em.
    exact Hp.
Qed.

Lemma q_learning_without_episodes_witness :
  exists policy,
    q_learning Examples.dither64 10 0 Examples.theta_default64
      Examples.theta_default64 (Examples.silent (N := PrimFloat.float))
    = Ok (q_init Examples.dither64, policy, Examples.silent)
    /\ (forall s a, In s (states Examples.dither64) ->
                    In a (actions Examples.dither64) ->
          q_value (q_init Examples.dither64) s a = Some PrimFloat.zero)
    /\ (forall s, In s (states Examples.dither64) ->
                  is_terminal Examples.dither64 s = false ->
          dict_get s policy = Some (Some "a0"%string)).
Proof.
  exact (@q_learning_without_episodes string string PrimFloat.float
           (tape PrimFloat.float) _ _ _ _ Examples.dither64 10
           Examples.theta_default64 Examples.theta_default64 Examples.silent
           "a0"%string ["a1"%string] eq_refl eq_refl).
Defined.

(* ================================================================== *)
(** * The trajectory loop under a learned policy *)
(* ================================================================== *)

Section LearnedPolicy.
Context {State Action N G : Type}.
Context `{Hashable State} `{Hashable Action} `{Number N} `{RandomSource G N}.
Variable self : MDP State Action N.

(** The entries of the policy that [q_learning] returns. *)
Lemma q_learning_policy_entries fuel episodes alpha epsilon (g g' : G)
    Q policy s :
  q_learning self fuel episodes alpha epsilon g = Ok (Q, policy, g') ->
  In s (states self) ->
  if is_terminal self s then dict_get s policy = Some None
  else exists a, dict_get s policy = Some (Some a) /\ In a (actions self).
Proof.
  intros E Hs. pose proof E as E'. unfold q_learning in E'.
  apply bind_Ok in E' as ([Q1 g1] & _ & E').
  apply bind_Ok in E' as (p & Ep & E'). inv_Ok E'.
  destruct (is_terminal self s) eqn:T.
  - eapply greedy_policy_terminal; eauto.
  - destruct (greedy_policy_valid self Q s Hs T Ep)
      as (row & a & q & Er & Em & Hp).
    exists a. split; [exact Hp|].
    apply max_by_In in Em.
    assert (Hq : q_value Q s a <> None).
    { unfold q_value, dict_get2. rewrite Er. apply dict_has_key.
      change a with (fst (a, q)). apply in_map. exact Em. }
    eapply q_learning_defined in Hq; eauto. apply Hq.
Qed.

Lemma trajectory_at_terminal policy (s : State) :
  is_terminal self s = true -> dict_get s policy = Some None ->
  forall n (g : G),
    trajectory self policy n s g = Ok (repeat (s, None, num_zero, s) n, g).
Proof.
  intros T Hp. induction n as [|n IH]; intros g; cbn [trajectory repeat];
    [reflexivity|].
  unfold getitem. rewrite Hp. cbn [bind step_with]. rewrite T. cbn [bind].
  rewrite IH. reflexivity.
Qed.

End LearnedPolicy.

(** X19.  Under the policy that [q_learning] returns, the trajectory loop
    of [main] is absorbed at a terminal state of the model: every
    remaining line reads the action [None] from the policy, reports the
    reward [0] and the same state again, no transition or reward table is
    looked up, and nothing is drawn. *)
Theorem trajectory_absorbed_at_terminal_state
    {State Action N G : Type}
    `{Hashable State} `{Hashable Action} `{Number N} `{RandomSource G N}
    (self : MDP State Action N) fuel episodes alpha epsilon (g0 g1 : G)
    Q policy (s : State) :
  q_learning self fuel episodes alpha epsilon g0 = Ok (Q, policy, g1) ->
  In s (states self) ->
  is_terminal self s = true ->
  forall n (g : G),
    trajectory self policy n s g = Ok (repeat (s, None, num_zero, s) n, g).
Proof.
  intros E Hs T.
  pose proof (q_learning_policy_entries self fuel episodes alpha epsilon
                g0 s E Hs) as Hp.
  rewrite T in Hp. apply trajectory_at_terminal; assumption.
Qed.

Lemma trajectory_absorbed_at_terminal_state_witness :
  exists Q policy g1,
    q_learning Examples.chain 10 1 (1 # 10)%Q (1 # 10)%Q Examples.one_episode
    = Ok (Q, policy, g1)
    /\ trajectory Examples.chain policy 5 "s2"%string g1
       = Ok (repeat ("s2"%string, None, 0%Q, "s2"%string) 5, g1).
Proof.
  run_of (q_learning Examples.chain 10 1 (1 # 10)%Q (1 # 10)%Q
            Examples.one_episode) ipattern:([[[Q policy] g1]| |]) E.
  exists Q, policy, g1. split; [reflexivity|].
  apply (@trajectory_absorbed_at_terminal_state string string QArith_base.Q
           (tape QArith_base.Q) _ _ _ _ Examples.chain 10 1 (1 # 10)%Q
           (1 # 10)%Q Examples.one_episode g1 Q policy "s2"%string E).
  - simpl; auto.
  - reflexivity.
Defined.

Section TrajectoryOnModel.
Context {State Action G : Type}.
Context `{Hashable State} `{Hashable Action} `{RandomSource G Q}.
Variable self : MDP State Action Q.

Hypothesis kernel : kernel_valid self.
Hypothesis complete : tables_complete self.

(** Under a policy with [None] at the terminal states and an action of
    the model elsewhere, the loop prints all its lines and stays among the
    states of the model. *)
Lemma trajectory_well_formed policy :
  (forall s, In s (states self) ->
     if is_terminal self s then dict_get s policy = Some None
     else exists a, dict_get s policy = Some (Some a) /\ In a (actions self)) ->
  forall n s (g : G),
    In s (states self) ->
    exists lines g',
      trajectory self policy n s g = Ok (lines, g')
      /\ List.length lines = n
      /\ Forall (fun line =>
                   In (fst (fst (fst line))) (states self)
                   /\ In (snd line) (states self)) lines.
Proof.
  intros Hp. induction n as [|n IH]; intros s g Hs; cbn [trajectory].
  - exists [], g. split; [reflexivity|]. split; [reflexivity | constructor].
  - pose proof (Hp s Hs) as Hps. destruct (is_terminal self s) eqn:T.
    + unfold getitem. rewrite Hps. cbn [bind step_with]. rewrite T.
      cbn [bind]. destruct (IH s g Hs) as (lines & g' & -> & Hlen & Hall).
      cbn [bind]. eexists. exists g'. split; [reflexivity|].
      split; [simpl; congruence|]. constructor; [simpl; auto | exact Hall].
    + destruct Hps as (a & Ea & Ha). unfold getitem. rewrite Ea.
      cbn [bind step_with].
      destruct (@step_well_formed State Action G _ _ _ self kernel complete
                  s a g Hs T Ha) as (ns & r & g1 & -> & Hns).
      cbn [bind]. destruct (IH ns g1 Hns) as (lines & g' & -> & Hlen & Hall).
      cbn [bind]. eexists. exists g'. split; [reflexivity|].
      split; [simpl; congruence|]. constructor; [simpl; auto | exact Hall].
Qed.

End TrajectoryOnModel.

(** X20.  On exact numbers and a well-formed model (a valid kernel and
    complete tables), the trajectory loop of [main] under the policy that
    [q_learning] returns raises nothing: from any state of the model it
    prints all its [n] lines, and every line goes from a state of the
    model to a state of the model. *)
Theorem trajectory_after_q_learning
    {State Action G : Type}
    `{Hashable State} `{Hashable Action} `{RandomSource G Q}
    (self : MDP State Action Q) fuel episodes alpha epsilon (g0 g1 : G)
    Qt policy (n : nat) (s : State) (g : G) :
  kernel_valid self -> tables_complete self ->
  q_learning self fuel episodes alpha epsilon g0 = Ok (Qt, policy, g1) ->
  In s (states self) ->
  exists lines g',
    trajectory self policy n s g = Ok (lines, g')
    /\ List.length lines = n
    /\ Forall (fun line =>
                 In (fst (fst (fst line))) (states self)
                 /\ In (snd line) (states self)) lines.
Proof.
  intros Hk Hc E Hs.
  apply (@trajectory_well_formed State Action G _ _ _ self Hk Hc policy);
    [|exact Hs].
  intros s0 Hs0.
  exact (q_learning_policy_entries self fuel episodes alpha epsilon g0 s0
           E Hs0).
Qed.

Lemma trajectory_after_q_learning_witness :
  exists Qt policy g1 lines g',
    q_learning Examples.chain 10 1 (1 # 10)%Q (1 # 10)%Q Examples.one_episode
    = Ok (Qt, policy, g1)
    /\ trajectory Examples.chain policy 5 "s0"%string g1 = Ok (lines, g')
    /\ List.length lines = 5
    /\ Forall (fun line =>
                 In (fst (fst (fst line))) (states Examples.chain)
                 /\ In (snd line) (states Examples.chain)) lines.
Proof.
  run_of (q_learning Examples.chain 10 1 (1 # 10)%Q (1 # 10)%Q
            Examples.one_episode) ipattern:([[[Qt policy] g1]| |]) E.
  assert (Hs : In "s0"%string (states Examples.chain)) by (simpl; auto).
  destruct (@trajectory_after_q_learning string string (tape Q) _ _ _
              Examples.chain 10 1 (1 # 10)%Q (1 # 10)%Q Examples.one_episode
              g1 Qt policy 5 "s0"%string g1 chain_kernel_valid
              chain_tables_complete E Hs) as (lines & g' & W).
  exists Qt, policy, g1, lines, g'. split; [reflexivity | exact W].
Defined.
